(** * Spec-RAG pipeline: document processor, retriever and extractor

    A shallow embedding of [services/documentProcessor.ts],
    [services/groqService.ts] and [services/openaiService.ts], with the
    properties the specification states about them.

    Conventions of the model.
    - A JavaScript string is the list of its code units.  For the texts
      of the pipeline (pages, chunks, prompts, answers) the model covers
      the code units below 256, so such a text is a [list ascii]; a
      string inside a JSON value holds code units of any value.
    - An integer-valued [number] (a count, an index, a page number, a hash)
      is a [Z]; a coordinate is a rational [Q] (every finite double is one,
      and rounding, subtraction signs and comparisons are exact on them).
    - A similarity score, an embedding component or a number of a JSON
      text is an IEEE 754 double, with the arithmetic of the standard
      (round to nearest, ties to even): a [spec_float] of precision 53.
    - An exception is a value: fallible code returns a [completion]. *)

From Stdlib Require Import List Ascii String ZArith Lia Bool Arith.
From Stdlib Require DecimalString DecimalZ.
From Stdlib Require Import Permutation Sorted.
From Stdlib Require Import QArith Qround Qpower.
From Stdlib Require Import SpecFloat.
From Stdlib Require Zpower Lqa.
Import ListNotations.

Local Open Scope Z_scope.

(** ** JavaScript strings *)

Module JSString.

Definition jstring := list ascii.

(** A string literal of the model. *)
Definition js (s : string) : jstring := list_ascii_of_string s.

(** The line feed, [\n]. *)
Definition newline : ascii := "010"%char.

(** [s.length] *)
Definition jlength (s : jstring) : Z := Z.of_nat (List.length s).

(** [s.charCodeAt(i)] for an index inside the string. *)
Definition charCode (c : ascii) : Z := Z.of_nat (nat_of_ascii c).

(** The characters [\s] matches, which are also the ones [trim] removes
    (WhiteSpace and LineTerminator): tab, line feed, vertical tab, form
    feed, carriage return, space and no-break space. *)
Definition is_space (c : ascii) : bool :=
  let n := nat_of_ascii c in
  ((9 <=? n) && (n <=? 13))%nat || (n =? 32)%nat || (n =? 160)%nat.

Fixpoint trimStart (s : jstring) : jstring :=
  match s with
  | c :: s' => if is_space c then trimStart s' else s
  | [] => []
  end.

Definition trimEnd (s : jstring) : jstring := rev (trimStart (rev s)).

(** [s.trim()] *)
Definition trim (s : jstring) : jstring := trimEnd (trimStart s).

(** [parts.join(sep)] *)
Fixpoint join (sep : jstring) (parts : list jstring) : jstring :=
  match parts with
  | [] => []
  | [p] => p
  | p :: rest => p ++ sep ++ join sep rest
  end.

(** [s.startsWith(p)] *)
Fixpoint startsWith (p s : jstring) : bool :=
  match p, s with
  | [], _ => true
  | a :: p', b :: s' => Ascii.eqb a b && startsWith p' s'
  | _ :: _, [] => false
  end.

(** [s.includes(p)] *)
Fixpoint includes (p s : jstring) : bool :=
  startsWith p s ||
  match s with
  | [] => false
  | _ :: s' => includes p s'
  end.

(** [toLowerCase] on one code unit below 256: the ASCII capitals and the
    Latin-1 capitals (all of 192..222 but the multiplication sign). *)
Definition lowerChar (c : ascii) : ascii :=
  let n := nat_of_ascii c in
  if ((65 <=? n) && (n <=? 90))%nat
     || ((192 <=? n) && (n <=? 222) && negb (n =? 215))%nat
  then ascii_of_nat (n + 32)
  else c.

Definition toLowerCase (s : jstring) : jstring := map lowerChar s.

(** Number-to-string conversion of an integer-valued number (exact below
    1e21, where JavaScript switches to exponent notation). *)
Definition numToString (z : Z) : jstring :=
  list_ascii_of_string (DecimalString.NilEmpty.string_of_int (Z.to_int z)).

(** [arr.slice(0, end)]: a negative [end] counts from the end of the
    array, and the bounds are clamped to the array. *)
Definition slice0 {A} (l : list A) (e : Z) : list A :=
  if e <? 0 then firstn (Z.to_nat (Z.max 0 (Z.of_nat (List.length l) + e))) l
  else firstn (Z.to_nat e) l.

End JSString.
Import JSString.

(** ** JavaScript numbers *)

(** A [number]: a binary64 floating-point number.  The operations are
    those of the standard, correctly rounded. *)
Module Double.

Definition double := spec_float.

Definition prec : Z := 53.
Definition emax : Z := 1024.

Definition add : double -> double -> double := SFadd prec emax.
Definition sub : double -> double -> double := SFsub prec emax.
Definition mul : double -> double -> double := SFmul prec emax.
Definition div : double -> double -> double := SFdiv prec emax.

(** [Math.sqrt] *)
Definition sqrt : double -> double := SFsqrt prec emax.

(** [-x] *)
Definition opp : double -> double := SFopp.

(** The number [0]. *)
Definition zero : double := S754_zero false.

(** [x < y] and [x <= y]; both are false when an operand is [NaN]. *)
Definition ltb : double -> double -> bool := SFltb.
Definition leb : double -> double -> bool := SFleb.

(** [x === 0]: true of both zeros, false of [NaN]. *)
Definition isZero (x : double) : bool := SFeqb x zero.

Definition isNaN (x : double) : bool :=
  match x with S754_nan => true | _ => false end.

(** Neither [NaN] nor an infinity. *)
Definition isFinite (x : double) : bool :=
  match x with S754_zero _ | S754_finite _ _ _ => true | _ => false end.

(** The double of an integer: the nearest one, the integer itself when it
    has 53 bits or fewer. *)
Definition ofZ (z : Z) : double := binary_normalize prec emax z 0 false.

Definition one : double := ofZ 1.

(** The double nearest to a rational, as a decimal literal is read. *)
Definition ofQ (q : Q) : double :=
  match Qnum q with
  | Z0 => zero
  | Zpos p =>
      let '(m, e, l) :=
        SFdiv_core_binary prec emax (Zpos p) 0 (Zpos (Qden q)) 0 in
      binary_round_aux prec emax false m e l
  | Zneg p =>
      let '(m, e, l) :=
        SFdiv_core_binary prec emax (Zpos p) 0 (Zpos (Qden q)) 0 in
      binary_round_aux prec emax true m e l
  end.

(** The rational a finite double denotes. *)
Definition value (x : double) : Q :=
  match x with
  | S754_finite s m e => inject_Z (cond_Zopp s (Zpos m)) * Qpower 2 e
  | _ => 0
  end.

(** The least exponent of a double, [-1074].  A finite double is in
    range when it is written with an exponent that is not less, as every
    double is that an operation returns. *)
Definition leastExponent : Z := emin prec emax.

Definition inRange (x : double) : bool :=
  match x with
  | S754_finite _ _ e => leastExponent <=? e
  | _ => true
  end.

(** A finite double in units of the least positive double. *)
Definition ulps (x : double) : Z :=
  match x with
  | S754_finite s m e => cond_Zopp s (Zpos m * 2 ^ (e - leastExponent))
  | _ => 0
  end.

End Double.

(** ** Data model ([types.ts]) *)

Record Chunk := mkChunk {
  id : jstring;
  text : jstring;
  section : option jstring;
  page : Z;
  embedding : option (list Double.double);
  isSpecPriority : option bool
}.

(** Truthiness of an optional boolean field. *)
Definition truthy (b : option bool) : bool :=
  match b with Some true => true | _ => false end.

(** ** The chunker ([DocumentProcessor.generateSemanticChunks]) *)

Record PageText := mkPage { num : Z; content : jstring }.

Module Chunker.

Section WithRegExp.

(** The three regular expressions of the chunker are run by the JavaScript
    engine; the model takes their results as given, so what is proved
    holds whatever they match.
    - [SECTION_HEADER_match s] is [s.match(SECTION_HEADER)], with
      [SECTION_HEADER = /(?:SECTION|GROUP)\s+(\d+-\d+[A-Z]?):?\s+([A-Z][A-Z\s\-]+)/i]:
      the capture groups 1 and 2 of the first match, if any.
    - [split_subheaders s] is
      [s.split(/(?=(?:TORQUE SPECIFICATIONS?|GENERAL SPECIFICATIONS?|FLUID CAPACIT|CAPACITIES\n|Torque\s*\n))/i)].
    - [SPEC_VALUE_PATTERN_test s] is [SPEC_VALUE_PATTERN.test(s)], with
      [SPEC_VALUE_PATTERN = /\b(\d+(?:\.\d+)?)\s*(Nm|N.m|lb-ft|ft-lb|liter|liters|qt|quart|psi|bar|mm|pt)\b/i]
      (the second unit is N, a middle dot, m). *)
Variable SECTION_HEADER_match : jstring -> option (jstring * jstring).
Variable split_subheaders : jstring -> list jstring.
Variable SPEC_VALUE_PATTERN_test : jstring -> bool.

(** The body of [segments.forEach((seg, sIdx) => ...)] for one segment:
    the chunk pushed on [allChunks], or nothing for a short segment. *)
Definition segmentChunk (activeSection : jstring) (p : PageText)
    (sIdx : nat) (seg : jstring) : list Chunk :=
  let clean := trim seg in
  if jlength clean <? 30 then []
  else
    [ {| id := js "p" ++ numToString (num p) ++ js "-s"
                 ++ numToString (Z.of_nat sIdx);
         text := js "SECTION: " ++ activeSection ++ newline :: js "PAGE: "
                 ++ numToString (num p) ++ newline :: js "CONTENT: "
                 ++ clean;
         section := Some activeSection;
         page := num p;
         embedding := None;
         isSpecPriority := Some (SPEC_VALUE_PATTERN_test clean) |} ].

(** [segments.forEach] from index [sIdx] on. *)
Fixpoint segmentChunks (activeSection : jstring) (p : PageText)
    (sIdx : nat) (segments : list jstring) : list Chunk :=
  match segments with
  | [] => []
  | seg :: rest =>
      segmentChunk activeSection p sIdx seg
        ++ segmentChunks activeSection p (S sIdx) rest
  end.

(** The section a page leaves active. *)
Definition nextSection (activeSection : jstring) (p : PageText) : jstring :=
  match SECTION_HEADER_match (content p) with
  | Some (code, title) => code ++ js ": " ++ trim title
  | None => activeSection
  end.

(** [pages.forEach]: the state is [activeSection], the result is what the
    loop pushes on [allChunks]. *)
Fixpoint pagesChunks (activeSection : jstring) (pages : list PageText)
    : list Chunk :=
  match pages with
  | [] => []
  | p :: rest =>
      let activeSection' := nextSection activeSection p in
      segmentChunks activeSection' p 0 (split_subheaders (content p))
        ++ pagesChunks activeSection' rest
  end.

Definition allChunks (pages : list PageText) : list Chunk :=
  pagesChunks (js "GENERAL INFORMATION") pages.

(** The id of segment [i] of page [n], as the template literal builds it. *)
Definition idOf (n : Z) (i : nat) : jstring :=
  js "p" ++ numToString n ++ js "-s" ++ numToString (Z.of_nat i).

(** Where a chunk of the page loop comes from: a page of the input and a
    position in the split of its text. *)
Definition fromSegment (pages : list PageText) (c : Chunk) : Prop :=
  exists p sIdx seg,
    In p pages /\
    nth_error (split_subheaders (content p)) sIdx = Some seg /\
    page c = num p /\
    id c = idOf (num p) sIdx.

Definition specChunks (all : list Chunk) : list Chunk :=
  filter (fun c => truthy (isSpecPriority c)) all.

Definition generalChunks (all : list Chunk) : list Chunk :=
  filter (fun c => negb (truthy (isSpecPriority c))) all.

(** The selection under budget (the last statement of the function). *)
Definition selectChunks (all : list Chunk) (maxChunks : Z) : list Chunk :=
  let spec := specChunks all in
  let general := generalChunks all in
  slice0
    (spec ++ slice0 general
               (Z.max 0 (maxChunks - Z.of_nat (List.length spec))))
    maxChunks.

(** [generateSemanticChunks(pages, maxChunks = 300)]; an omitted budget is
    [None]. *)
Definition generateSemanticChunks (pages : list PageText)
    (maxChunks : option Z) : list Chunk :=
  let maxChunks := match maxChunks with Some m => m | None => 300 end in
  selectChunks (allChunks pages) maxChunks.

End WithRegExp.

End Chunker.

(** ** [Array.prototype.sort] *)

Module JSArray.

Section Sort.
Context {A : Type}.

(** [before a b] says that [compareFn(a, b) <= 0]: [a] may stay in front
    of [b].  The sort is stable (ECMAScript 2019), which fixes its result
    for a consistent comparator; insertion from the right computes it. *)
Variable before : A -> A -> bool.

Fixpoint insertSorted (x : A) (l : list A) : list A :=
  match l with
  | [] => [x]
  | y :: l' => if before x y then x :: l else y :: insertSorted x l'
  end.

Fixpoint sort (l : list A) : list A :=
  match l with
  | [] => []
  | x :: l' => insertSorted x (sort l')
  end.

End Sort.

End JSArray.

(** ** The layout reconstructor ([DocumentProcessor.extractTextWithStructure]) *)

Module Layout.

(** A text item of PDF.js: [item.str], [item.transform[4]] (horizontal)
    and [item.transform[5]] (vertical). *)
Record TextItem := mkItem {
  str : jstring;
  transform4 : Q;
  transform5 : Q
}.

(** [Math.round]: the nearest integer, a tie going up. *)
Definition Math_round (x : Q) : Z := Qfloor (x + (1 # 2)).

Definition ROW_DELTA : Z := 3.

(** [lineMap]: a [Map] from row coordinate to the row's items.  A [Map]
    iterates in insertion order, so it is the list of its entries in the
    order the keys were first set. *)
Definition LineMap := list (Z * list TextItem).

(** [Array.from(lineMap.keys())] *)
Definition keys (lineMap : LineMap) : list Z := map fst lineMap.

(** [lineMap.get(k)] *)
Fixpoint get (lineMap : LineMap) (k : Z) : option (list TextItem) :=
  match lineMap with
  | [] => None
  | (k', items) :: rest => if k' =? k then Some items else get rest k
  end.

(** [lineMap.get(k)!.push(item)] *)
Fixpoint push (lineMap : LineMap) (k : Z) (item : TextItem) : LineMap :=
  match lineMap with
  | [] => []
  | (k', items) :: rest =>
      if k' =? k then (k', items ++ [item]) :: rest
      else (k', items) :: push rest k item
  end.

(** The coordinate a fragment is grouped by: [y] in the source. *)
Definition rowCoordinate (item : TextItem) : Z := Math_round (transform5 item).

(** The body of [items.forEach((item) => ...)]. *)
Definition groupItem (lineMap : LineMap) (item : TextItem) : LineMap :=
  let y := rowCoordinate item in
  match find (fun k => Z.abs (k - y) <? ROW_DELTA) (keys lineMap) with
  | None => lineMap ++ [(y, [item])]
  | Some existingKey => push lineMap existingKey item
  end.

(** The whole loop, from the empty map. *)
Definition groupRows (items : list TextItem) : LineMap :=
  fold_left groupItem items [].

(** The comparator [(a, b) => b - a] on keys. *)
Definition keyBefore (a b : Z) : bool := b - a <=? 0.

(** The comparator [(a, b) => a.transform[4] - b.transform[4]] on items. *)
Definition itemBefore (a b : TextItem) : bool :=
  Qle_bool (transform4 a - transform4 b) 0.

(** [Boolean(s)] for a string: it is not empty. *)
Definition nonEmpty (s : jstring) : bool :=
  match s with [] => false | _ => true end.

(** The test for an item at horizontal coordinate [x]. *)
Definition atX (x : Q) (item : TextItem) : bool := Qeq_bool (transform4 item) x.

Definition sortedItems (row : list TextItem) : list TextItem :=
  JSArray.sort itemBefore row.

(** One row to its line of text. *)
Definition rowText (row : list TextItem) : jstring :=
  join (js "  ") (filter nonEmpty (map (fun item => trim (str item))
                                       (sortedItems row))).

Definition sortedKeys (lineMap : LineMap) : list Z :=
  JSArray.sort keyBefore (keys lineMap).

(** A key of the map to its row; the keys come from the map itself. *)
Definition rowOf (lineMap : LineMap) (y : Z) : list TextItem :=
  match get lineMap y with Some items => items | None => [] end.

(** [pageText] of a page, from its [lineMap]. *)
Definition pageTextOf (lineMap : LineMap) : jstring :=
  join [newline]
    (filter (fun line => 0 <? jlength (trim line))
       (map (fun y => rowText (rowOf lineMap y)) (sortedKeys lineMap))).

(** [pageText] of a page, from its items. *)
Definition pageText (items : list TextItem) : jstring :=
  pageTextOf (groupRows items).

(** The loop over the pages of the document: page [i], counted from 1,
    with the text of its items. *)
Fixpoint extractPagesFrom (i : Z) (pageItems : list (list TextItem))
    : list PageText :=
  match pageItems with
  | [] => []
  | items :: rest =>
      {| num := i; content := pageText items |} :: extractPagesFrom (i + 1) rest
  end.

(** The [pages] of [extractTextWithStructure], from the items of each page. *)
Definition extractPages (pageItems : list (list TextItem)) : list PageText :=
  extractPagesFrom 1 pageItems.

End Layout.

(** ** The retriever ([cosineSimilarity], [retrieveRelevantChunks])

    The two services carry the same code for both functions. *)

Module Retriever.
Import Double.

Record ScoredChunk := mkScored { chunk : Chunk; score : double }.

(** The accumulators [(dot, normA, normB)] after the loop
    [for (let i = 0; i < a.length; i++)], for arrays of one length. *)
Fixpoint accumulate (a b : list double) (acc : double * double * double)
    : double * double * double :=
  match a, b with
  | x :: a', y :: b' =>
      let '(dot, normA, normB) := acc in
      accumulate a' b'
        (add dot (mul x y), add normA (mul x x), add normB (mul y y))
  | _, _ => acc
  end.

Definition cosineSimilarity (a b : list double) : double :=
  if negb (List.length a =? List.length b)%nat || (List.length a =? 0)%nat
  then zero
  else
    let '(dot, normA, normB) := accumulate a b (zero, zero, zero) in
    let mag := mul (sqrt normA) (sqrt normB) in
    if isZero mag then zero else div dot mag.

(** The dot product and the magnitude of the specification, as doubles:
    the products are added from left to right. *)
Definition dotFrom (acc : double) (a b : list double) : double :=
  fold_left (fun acc p => add acc (mul (fst p) (snd p))) (combine a b) acc.

Definition dot (a b : list double) : double := dotFrom zero a b.

Definition magnitude (v : list double) : double := sqrt (dot v v).

(** [c.embedding && c.embedding.length > 0] *)
Definition hasEmbedding (c : Chunk) : bool :=
  match embedding c with
  | Some (_ :: _) => true
  | _ => false
  end.

(** [chunk.embedding!] *)
Definition embeddingOf (c : Chunk) : list double :=
  match embedding c with Some e => e | None => [] end.

(** The comparator [(a, b) => b.score - a.score]. *)
Definition compareScores (a b : ScoredChunk) : double :=
  sub (score b) (score a).

(** [a] stays in front of [b] unless the comparator is positive; a [NaN]
    counts as 0. *)
Definition scoreBefore (a b : ScoredChunk) : bool :=
  negb (ltb zero (compareScores a b)).

(** The same order read off the scores themselves, each counted in
    units of the least positive double. *)
Definition ulpsBefore (a b : ScoredChunk) : bool :=
  ulps (score b) <=? ulps (score a).

(** The candidates with their scores, before sorting. *)
Definition scoreAll (queryEmbedding : list double) (chunks : list Chunk)
    : list ScoredChunk :=
  map (fun c => {| chunk := c;
                   score := cosineSimilarity queryEmbedding (embeddingOf c) |})
      (filter hasEmbedding chunks).

(** The test for a candidate whose score is the number [v]. *)
Definition scoreIs (v : Q) (sc : ScoredChunk) : bool :=
  Qeq_bool (value (score sc)) v.

Definition ranked (queryEmbedding : list double) (chunks : list Chunk)
    : list ScoredChunk :=
  JSArray.sort scoreBefore (scoreAll queryEmbedding chunks).

Record Retrieval := mkRetrieval { context : jstring; scored : list ScoredChunk }.

(** [retrieveRelevantChunks(query, chunks, k = 6)] once the query embedding
    is there; an omitted [k] is [None]. *)
Definition retrieveRelevantChunks (queryEmbedding : list double)
    (chunks : list Chunk) (k : option Z) : Retrieval :=
  let k := match k with Some k => k | None => 6 end in
  let scored := slice0 (ranked queryEmbedding chunks) k in
  {| context := join (newline :: js "---" ++ [newline])
                     (map (fun sc => text (chunk sc)) scored);
     scored := scored |}.

End Retriever.

(** ** The hashing embedding ([GroqService.getEmbedding]) *)

Module Embedding.

Definition dim : Z := 1536.

(** [text.toLowerCase().slice(0, 2000)] *)
Definition normalize (text : jstring) : jstring :=
  firstn 2000 (toLowerCase text).

(** [vector[i] += w] *)
Fixpoint bump (i : nat) (w : Z) (vector : list Z) : list Z :=
  match vector, i with
  | [], _ => []
  | v :: rest, O => (v + w) :: rest
  | v :: rest, S i' => v :: bump i' w rest
  end.

(** The loop over the character bigrams. *)
Fixpoint bigrams (s : jstring) (vector : list Z) : list Z :=
  match s with
  | c1 :: ((c2 :: _) as rest) =>
      let code := (charCode c1 * 31 + charCode c2) mod dim in
      bigrams rest (bump (Z.to_nat (Z.abs code)) 1 vector)
  | _ => vector
  end.

(** [\w]: a letter, a digit or the underscore. *)
Definition is_word (c : ascii) : bool :=
  let n := nat_of_ascii c in
  ((48 <=? n) && (n <=? 57))%nat || ((65 <=? n) && (n <=? 90))%nat
  || ((97 <=? n) && (n <=? 122))%nat || (n =? 95)%nat.

(** [s.match(/\b\w+\b/g) || []]: the maximal runs of word characters;
    [cur] is the run being read. *)
Fixpoint wordsFrom (cur : jstring) (s : jstring) : list jstring :=
  match s with
  | [] => match cur with [] => [] | _ => [cur] end
  | c :: rest =>
      if is_word c then wordsFrom (cur ++ [c]) rest
      else match cur with
           | [] => wordsFrom [] rest
           | _ => cur :: wordsFrom [] rest
           end
  end.

Definition words (s : jstring) : list jstring := wordsFrom [] s.

Definition autoTerms : list jstring :=
  map js ["torque"; "nm"; "lb"; "ft"; "capacity"; "pressure"; "fluid";
          "bolt"; "nut"; "spec"; "liter"; "psi"; "clearance"]%string.

Definition has (set : list jstring) (w : jstring) : bool :=
  existsb (fun t => if list_eq_dec ascii_dec t w then true else false) set.

(** [x | 0]: the signed 32-bit integer of an integer-valued number. *)
Definition toInt32 (z : Z) : Z := (z + 2 ^ 31) mod 2 ^ 32 - 2 ^ 31.

(** [((hash << 5) - hash + word.charCodeAt(i)) | 0], over the word. *)
Definition hashWord (word : jstring) : Z :=
  fold_left (fun hash c => toInt32 (toInt32 (hash * 32) - hash + charCode c))
            word 0.

(** The loop over the words. *)
Definition unigrams (ws : list jstring) (vector : list Z) : list Z :=
  fold_left
    (fun vector word =>
       let weight := if has autoTerms word then 3 else 1 in
       bump (Z.to_nat (Z.abs (hashWord word) mod dim)) weight vector)
    ws vector.

(** The bucket counts before normalisation; they are small integers, which
    a [Float32Array] holds exactly. *)
Definition buckets (normalized : jstring) : list Z :=
  unigrams (words normalized)
           (bigrams normalized (repeat 0 (Z.to_nat dim))).

(** The L2 normalisation.  The sum of the squares is a small integer,
    which a double holds exactly; [norm = Math.sqrt(norm) || 1] puts 1
    for a square root that is zero or [NaN]. *)
Definition l2normalize (vector : list Z) : list Double.double :=
  let norm :=
    Double.sqrt
      (Double.ofZ (fold_left (fun norm v => norm + v * v) vector 0)) in
  let norm :=
    if Double.isZero norm || Double.isNaN norm then Double.one else norm in
  map (fun v => Double.div (Double.ofZ v) norm) vector.

Definition getEmbedding (text : jstring) : list Double.double :=
  l2normalize (buckets (normalize text)).

(** [GroqService.retrieveRelevantChunks]: the query is embedded by the
    hashing embedding. *)
Definition retrieveRelevantChunks (query : jstring) (chunks : list Chunk)
    (k : option Z) : Retriever.Retrieval :=
  Retriever.retrieveRelevantChunks (getEmbedding query) chunks k.

End Embedding.

(** ** Exceptions *)

(** A thrown value, as far as the handlers and the callers look at it:
    [e.name], the name of its class, and [e.message]. *)
Record JSError := mkError { name : jstring; message : option jstring }.

Inductive completion (A : Type) : Type :=
| Returned (value : A)
| Thrown (e : JSError).
Arguments Returned {A} value.
Arguments Thrown {A} e.

(** [throw new Error(msg)] *)
Definition throwError {A} (msg : jstring) : completion A :=
  Thrown {| name := js "Error"; message := Some msg |}.

(** ** [JSON.parse] *)

Module JSON.

(** A code unit of a string, and the strings of JSON values: an escape
    [\uXXXX] of a text can stand for any code unit. *)
Definition codeUnit := N.
Definition ustring := list codeUnit.

Definition unitOf (c : ascii) : codeUnit := N_of_ascii c.

(** A string literal as a string of code units. *)
Definition ujs (s : string) : ustring := map unitOf (js s).

(** A JSON value.  A number is the double nearest to what its text
    denotes; an object keeps its members in source order. *)
Unset Elimination Schemes.
Inductive json : Type :=
| JNull
| JBool (b : bool)
| JNumber (x : Double.double)
| JString (s : ustring)
| JArray (elements : list json)
| JObject (members : list (ustring * json)).
Set Elimination Schemes.

Definition ch (c : ascii) (lit : string) : bool :=
  match lit with
  | String a EmptyString => Ascii.eqb c a
  | _ => false
  end.

(** The double quote. *)
Definition quote : ascii := "034"%char.

(** JSON whitespace: space, tab, line feed, carriage return. *)
Definition is_ws (c : ascii) : bool :=
  ch c " " || Ascii.eqb c "009" || Ascii.eqb c "010" || Ascii.eqb c "013".

Fixpoint skip_ws (s : jstring) : jstring :=
  match s with
  | c :: s' => if is_ws c then skip_ws s' else s
  | [] => []
  end.

Definition is_digit (c : ascii) : bool :=
  let n := nat_of_ascii c in ((48 <=? n) && (n <=? 57))%nat.

Definition digitValue (c : ascii) : Z := Z.of_nat (nat_of_ascii c) - 48.

(** The longest prefix of digits, and what follows it. *)
Fixpoint takeDigits (s : jstring) : jstring * jstring :=
  match s with
  | c :: s' =>
      if is_digit c then let '(ds, r) := takeDigits s' in (c :: ds, r)
      else ([], s)
  | [] => ([], [])
  end.

Definition digitsValue (ds : jstring) : Z :=
  fold_left (fun n c => 10 * n + digitValue c) ds 0.

(** [int]: a single [0], or a digit [1-9] and more digits. *)
Definition parse_int (s : jstring) : option (jstring * jstring) :=
  match s with
  | c :: s' =>
      if ch c "0" then Some ([c], s')
      else if is_digit c then let '(ds, r) := takeDigits s' in Some (c :: ds, r)
      else None
  | [] => None
  end.

(** [frac]: nothing, or a point and at least one digit. *)
Definition parse_frac (s : jstring) : option (jstring * jstring) :=
  match s with
  | c :: s' =>
      if ch c "." then
        match takeDigits s' with
        | ([], _) => None
        | (ds, r) => Some (ds, r)
        end
      else Some ([], s)
  | [] => Some ([], [])
  end.

(** The sign of an exponent, if there is one. *)
Definition parse_sign (s : jstring) : bool * jstring :=
  match s with
  | d :: t => if ch d "-" then (true, t)
              else if ch d "+" then (false, t) else (false, s)
  | [] => (false, s)
  end.

(** [exp]: nothing, or [e]/[E], a sign and at least one digit. *)
Definition parse_exp (s : jstring) : option (Z * jstring) :=
  match s with
  | c :: s' =>
      if ch c "e" || ch c "E" then
        let '(neg, s'') := parse_sign s' in
        match takeDigits s'' with
        | ([], _) => None
        | (ds, r) => Some (if neg then - digitsValue ds else digitsValue ds, r)
        end
      else Some (0, s)
  | [] => Some (0, [])
  end.

(** [mantissa * 10 ^ e] as a rational. *)
Definition scale10 (mantissa e : Z) : Q :=
  if e <? 0 then Qmake mantissa (Z.to_pos (10 ^ (- e)))
  else Qmake (mantissa * 10 ^ e) 1.

Definition parse_unsigned (s : jstring) : option (Q * jstring) :=
  match parse_int s with
  | None => None
  | Some (ip, r1) =>
      match parse_frac r1 with
      | None => None
      | Some (fp, r2) =>
          match parse_exp r2 with
          | None => None
          | Some (e, r3) =>
              Some (scale10 (digitsValue (ip ++ fp))
                            (e - Z.of_nat (List.length fp)), r3)
          end
      end
  end.

(** A number: the double nearest to the decimal, with the sign in front
    of it ([-0] is the negative zero). *)
Definition parse_number (s : jstring) : option (Double.double * jstring) :=
  match s with
  | c :: s' =>
      if ch c "-" then
        match parse_unsigned s' with
        | Some (q, r) => Some (Double.opp (Double.ofQ q), r)
        | None => None
        end
      else
        match parse_unsigned s with
        | Some (q, r) => Some (Double.ofQ q, r)
        | None => None
        end
  | [] => None
  end.

Definition hexValue (c : ascii) : option nat :=
  let n := nat_of_ascii c in
  if ((48 <=? n) && (n <=? 57))%nat then Some (n - 48)%nat
  else if ((65 <=? n) && (n <=? 70))%nat then Some (n - 55)%nat
  else if ((97 <=? n) && (n <=? 102))%nat then Some (n - 87)%nat
  else None.

(** The code unit of [\uXXXX], from its four hexadecimal digits. *)
Definition unicodeEscape (h1 h2 h3 h4 : ascii) : option codeUnit :=
  match hexValue h1, hexValue h2, hexValue h3, hexValue h4 with
  | Some a, Some b, Some c, Some d =>
      Some (N.of_nat (a * 4096 + b * 256 + c * 16 + d))
  | _, _, _, _ => None
  end.

(** The character a one-letter escape stands for. *)
Definition simpleEscape (c : ascii) : option codeUnit :=
  if Ascii.eqb c quote then Some (unitOf c)
  else if ch c "\" then Some (unitOf c)
  else if ch c "/" then Some (unitOf c)
  else if ch c "b" then Some 8%N
  else if ch c "f" then Some 12%N
  else if ch c "n" then Some 10%N
  else if ch c "r" then Some 13%N
  else if ch c "t" then Some 9%N
  else None.

Definition consChar (c : codeUnit) (r : option (ustring * jstring))
    : option (ustring * jstring) :=
  match r with
  | Some (str, rest) => Some (c :: str, rest)
  | None => None
  end.

(** The characters of a string after its opening quote, up to and with
    the closing quote. *)
Fixpoint parse_chars (s : jstring) : option (ustring * jstring) :=
  match s with
  | [] => None
  | c :: r =>
      if Ascii.eqb c quote then Some ([], r)
      else if ch c "\" then
        match r with
        | e :: r' =>
            if ch e "u" then
              match r' with
              | h1 :: h2 :: h3 :: h4 :: r'' =>
                  match unicodeEscape h1 h2 h3 h4 with
                  | Some u => consChar u (parse_chars r'')
                  | None => None
                  end
              | _ => None
              end
            else
              match simpleEscape e with
              | Some x => consChar x (parse_chars r')
              | None => None
              end
        | [] => None
        end
      else if (nat_of_ascii c <? 32)%nat then None
      else consChar (unitOf c) (parse_chars r)
  end.

(** A literal name at the head of the text. *)
Definition parse_literal (name : string) (v : json) (s : jstring)
    : option (json * jstring) :=
  let n := js name in
  if startsWith n s then Some (v, skipn (List.length n) s) else None.

(** A value at the head of [s], and the text behind it. *)
Fixpoint parse_value (fuel : nat) (s : jstring) : option (json * jstring) :=
  match fuel with
  | O => None
  | S fuel' =>
      match s with
      | [] => None
      | c :: r =>
          if ch c "[" then
            match skip_ws r with
            | d :: r' =>
                if ch d "]" then Some (JArray [], r')
                else match parse_elements fuel' (d :: r') with
                     | Some (vs, rest) => Some (JArray vs, rest)
                     | None => None
                     end
            | [] => None
            end
          else if ch c "{" then
            match skip_ws r with
            | d :: r' =>
                if ch d "}" then Some (JObject [], r')
                else match parse_members fuel' (d :: r') with
                     | Some (ms, rest) => Some (JObject ms, rest)
                     | None => None
                     end
            | [] => None
            end
          else if Ascii.eqb c quote then
            match parse_chars r with
            | Some (str, rest) => Some (JString str, rest)
            | None => None
            end
          else if ch c "t" then parse_literal "true" (JBool true) s
          else if ch c "f" then parse_literal "false" (JBool false) s
          else if ch c "n" then parse_literal "null" JNull s
          else
            match parse_number s with
            | Some (x, rest) => Some (JNumber x, rest)
            | None => None
            end
      end
  end

(** The elements of an array after its bracket, up to and with the closing
    bracket; [s] starts at an element. *)
with parse_elements (fuel : nat) (s : jstring)
    : option (list json * jstring) :=
  match fuel with
  | O => None
  | S fuel' =>
      match parse_value fuel' s with
      | None => None
      | Some (v, r) =>
          match skip_ws r with
          | d :: r' =>
              if ch d "," then
                match parse_elements fuel' (skip_ws r') with
                | Some (vs, rest) => Some (v :: vs, rest)
                | None => None
                end
              else if ch d "]" then Some ([v], r')
              else None
          | [] => None
          end
      end
  end

(** The members of an object after its brace, up to and with the closing
    brace; [s] starts at a member. *)
with parse_members (fuel : nat) (s : jstring)
    : option (list (ustring * json) * jstring) :=
  match fuel with
  | O => None
  | S fuel' =>
      match s with
      | q :: r0 =>
          if Ascii.eqb q quote then
            match parse_chars r0 with
            | None => None
            | Some (key, r1) =>
                match skip_ws r1 with
                | col :: r2 =>
                    if ch col ":" then
                      match parse_value fuel' (skip_ws r2) with
                      | None => None
                      | Some (v, r3) =>
                          match skip_ws r3 with
                          | d :: r4 =>
                              if ch d "," then
                                match parse_members fuel' (skip_ws r4) with
                                | Some (ms, rest) => Some ((key, v) :: ms, rest)
                                | None => None
                                end
                              else if ch d "}" then Some ([(key, v)], r4)
                              else None
                          | [] => None
                          end
                      end
                    else None
                | [] => None
                end
            end
          else None
      | [] => None
      end
  end.

(** Two steps of recursion read at least one character, so this is more
    fuel than a text can use: what any amount of fuel parses, this amount
    parses. *)
Definition fuelFor (s : jstring) : nat := 2 * List.length s + 2.

Definition SyntaxError : JSError :=
  {| name := js "SyntaxError";
     message := Some (js "Unexpected token in JSON") |}.

(** [JSON.parse(s)] *)
Definition JSON_parse (s : jstring) : completion json :=
  match parse_value (fuelFor s) (skip_ws s) with
  | Some (v, rest) =>
      match skip_ws rest with
      | [] => Returned v
      | _ => Thrown SyntaxError
      end
  | None => Thrown SyntaxError
  end.

Definition digit (c : ascii) : Prop := is_digit c = true.

(** What a value read at the head of [s] may end with: a closing bracket
    only when [s] starts with an opening one. *)
Definition closes (s : jstring) (x : ascii) : Prop :=
  x = "]"%char -> exists t, s = "["%char :: t.

(** Reading [s] leaves [r] and the last character read satisfies [P]. *)
Definition consumes (P : ascii -> Prop) (s r : jstring) : Prop :=
  exists c x, s = c ++ x :: r /\ P x.

(** [obj[key]] on a parsed object: the last member of that name. *)
Fixpoint lookup (key : ustring) (members : list (ustring * json))
    : option json :=
  match members with
  | [] => None
  | (k, v) :: rest =>
      match lookup key rest with
      | Some v' => Some v'
      | None => if list_eq_dec N.eq_dec k key then Some v else None
      end
  end.

(** [record.confidence], when the record is an object that has a numeric
    field of that name. *)
Definition confidence (record : json) : option Double.double :=
  match record with
  | JObject members =>
      match lookup (ujs "confidence") members with
      | Some (JNumber x) => Some x
      | _ => None
      end
  | _ => None
  end.

End JSON.

(** ** The extractor ([extractSpecs]) *)

Module Extractor.
Import JSON.

(** [try { body } catch (e) { handler }] *)
Definition try_catch {A} (body : completion A)
    (handler : JSError -> completion A) : completion A :=
  match body with
  | Returned v => Returned v
  | Thrown e => handler e
  end.

(** [Array.isArray(v)] *)
Definition isArray (v : json) : bool :=
  match v with JArray _ => true | _ => false end.

(** [s.match(/\[[\s\S]*\]/)]: from the first opening bracket to the last
    closing bracket behind it. *)
Fixpoint fromFirstOpen (s : jstring) : option jstring :=
  match s with
  | [] => None
  | c :: r => if ch c "[" then Some s else fromFirstOpen r
  end.

Fixpoint fromFirstClose (s : jstring) : option jstring :=
  match s with
  | [] => None
  | c :: r => if ch c "]" then Some s else fromFirstClose r
  end.

Definition firstBracketBlock (s : jstring) : option jstring :=
  match fromFirstOpen s with
  | None => None
  | Some t =>
      match fromFirstClose (rev t) with
      | None => None
      | Some u => Some (rev u)
      end
  end.

(** The message to the model: the query and the retrieved context. *)
Definition userMessage (query context : jstring) : jstring :=
  js "Query: " ++ query ++ [newline; newline]
    ++ js "Service Manual Context:" ++ [newline] ++ context.

(** *** [GroqService.extractSpecs] *)

Module Groq.

Definition fence : jstring := js "```".

(** [s.replace(/^```(?:json)?\s*/i, "")] *)
Definition stripOpeningFence (s : jstring) : jstring :=
  if startsWith fence s then
    let r := skipn 3 s in
    let r := if startsWith (js "json") (toLowerCase r) then skipn 4 r else r in
    trimStart r
  else s.

(** [s.replace(/\s*```$/, "")] *)
Definition stripClosingFence (s : jstring) : jstring :=
  let r := rev s in
  if startsWith fence r then rev (trimStart (skipn 3 r)) else s.

(** [response.choices[0]?.message?.content?.trim() || "[]"] *)
Definition rawOf (content : option jstring) : jstring :=
  match content with
  | None => js "[]"
  | Some c => match trim c with [] => js "[]" | t => t end
  end.

Definition cleanOf (raw : jstring) : jstring :=
  trim (stripClosingFence (stripOpeningFence raw)).

(** From the model's answer to the returned value: the part of the [try]
    block behind the call. *)
Definition parseResponse (content : option jstring) : completion json :=
  let raw := rawOf content in
  let clean := cleanOf raw in
  try_catch
    (match JSON_parse clean with
     | Returned parsed => Returned (if isArray parsed then parsed else JArray [])
     | Thrown e => Thrown e
     end)
    (fun _ =>
       let fallback := Returned (JArray []) in
       match firstBracketBlock clean with
       | Some block => try_catch (JSON_parse block) (fun _ => fallback)
       | None => fallback
       end).

Definition invalidKeyMessage : jstring :=
  js "Invalid Groq API key. Check GROQ_API_KEY in your .env.local file.".

Definition rateLimitMessage : jstring :=
  js "Groq rate limit hit. Wait 30 seconds and try again.".

Definition extractionFailedPrefix : jstring := js "LLM extraction failed: ".

(** [e.message || ""] *)
Definition messageOr (e : JSError) : jstring :=
  match message e with Some m => m | None => [] end.

(** The outer [catch (e)] block. *)
Definition handleFailure {A} (e : JSError) : completion A :=
  let msg := messageOr e in
  if includes (js "401") msg || includes (js "invalid_api_key") msg
  then throwError invalidKeyMessage
  else if includes (js "429") msg || includes (js "rate_limit") msg
  then throwError rateLimitMessage
  else throwError (extractionFailedPrefix ++ msg).

Section WithClient.

(** [this.client.chat.completions.create] with the fixed model, system
    prompt, temperature and token limit: from the user message to
    [response.choices[0]?.message?.content], or to what the call throws. *)
Variable create : jstring -> completion (option jstring).

Definition extractSpecs (query context : jstring) : completion json :=
  try_catch
    (match create (userMessage query context) with
     | Returned content => parseResponse content
     | Thrown e => Thrown e
     end)
    handleFailure.

End WithClient.

End Groq.

(** *** [OpenAIService.extractSpecs] *)

Module OpenAI.

(** [response.choices[0]?.message?.content || ''] *)
Definition textOf (content : option jstring) : jstring :=
  match content with Some c => c | None => [] end.

(** [jsonMatch ? jsonMatch[0] : text] *)
Definition jsonStrOf (text : jstring) : jstring :=
  match firstBracketBlock text with
  | Some block => block
  | None => text
  end.

Definition parseResponse (content : option jstring) : completion json :=
  let text := textOf content in
  try_catch
    (let jsonStr := jsonStrOf text in
     match JSON_parse jsonStr with
     | Returned parsed => Returned (if isArray parsed then parsed else JArray [])
     | Thrown e => Thrown e
     end)
    (fun _ => Returned (JArray [])).

(** [`${e.message}`] *)
Definition messageText (e : JSError) : jstring :=
  match message e with Some m => m | None => js "undefined" end.

Definition handleFailure {A} (e : JSError) : completion A :=
  throwError (js "LLM extraction failed: " ++ messageText e).

Section WithClient.

Variable create : jstring -> completion (option jstring).

Definition extractSpecs (query context : jstring) : completion json :=
  try_catch
    (match create (userMessage query context) with
     | Returned content => parseResponse content
     | Thrown e => Thrown e
     end)
    handleFailure.

End WithClient.

End OpenAI.

(** *** Model answers and the notions of the properties *)

(** The text of an array: from a bracket to a bracket. *)
Definition bracketed (body : jstring) : jstring :=
  "["%char :: body ++ ["]"%char].

Definition space (c : ascii) : Prop := is_space c = true.

(** Prose that holds no opening bracket. *)
Definition noOpen (p : jstring) : Prop := Forall (fun c => c <> "["%char) p.

(** [sub] occurs in [s]. *)
Definition infix (sub s : jstring) : Prop :=
  exists pre post, s = pre ++ sub ++ post.

(** A response that holds no JSON array anywhere: whatever part of it is
    handed to [JSON.parse], no array comes back. *)
Definition holdsNoArray (content : jstring) : Prop :=
  forall sub l, infix sub content -> JSON_parse sub <> Returned (JArray l).

(** All the parts of a text, and the test that none of them parses to an
    array: [holdsNoArray] decided. *)
Definition prefixes (s : jstring) : list jstring :=
  map (fun n => firstn n s) (seq 0 (S (List.length s))).

Definition suffixes (s : jstring) : list jstring :=
  map (fun n => skipn n s) (seq 0 (S (List.length s))).

Definition parts (s : jstring) : list jstring := flat_map prefixes (suffixes s).

Definition parsesToArray (s : jstring) : bool :=
  match JSON_parse s with
  | Returned (JArray _) => true
  | _ => false
  end.

Definition noPartIsArray (s : jstring) : bool :=
  forallb (fun sub => negb (parsesToArray sub)) (parts s).

(** What may follow the array of an answer: whitespace, or a closing fence
    between whitespace. *)
Definition closingTail (tail : jstring) : Prop :=
  Forall space tail \/
  exists ws ws', tail = ws ++ js "```" ++ ws' /\
                 Forall space ws /\ Forall space ws'.

(** A model answer that wraps [body] in a markdown code fence: the opening
    fence with its info string and line break [info], the body, and the
    closing fence behind whitespace [ws]. *)
Definition fenced (info body ws : jstring) : jstring :=
  js "```" ++ info ++ body ++ ws ++ js "```".

(** A text in double quotes. *)
Definition quoted (s : string) : jstring := quote :: js s ++ [quote].

(** The confidence floor of the specification, on what [extractSpecs]
    returns: no record below 0.5. *)
Definition confidenceFloor (result : completion json) : Prop :=
  forall l, result = Returned (JArray l) ->
    Forall (fun record =>
              forall x, confidence record = Some x ->
                        Double.leb (Double.ofQ (1 # 2)) x = true) l.

(** A model answer with one record of confidence 0.2. *)
Definition lowConfidenceAnswer : jstring :=
  js "[{" ++ quoted "component" ++ js ":" ++ quoted "Wheel nut" ++ js ","
    ++ quoted "unit" ++ js ":" ++ quoted "Nm" ++ js ","
    ++ quoted "confidence" ++ js ":0.2}]".

Definition lowConfidenceRecord : json :=
  JObject [ (ujs "component", JString (ujs "Wheel nut"));
            (ujs "unit", JString (ujs "Nm"));
            (ujs "confidence", JNumber (Double.ofQ (2 # 10))) ].

(** How the handlers recognise an authentication failure and a rate
    limit in the message of what the call threw. *)
Definition authFailure (msg : jstring) : bool :=
  includes (js "401") msg || includes (js "invalid_api_key") msg.

Definition rateLimited (msg : jstring) : bool :=
  includes (js "429") msg || includes (js "rate_limit") msg.

(** The typed taxonomy of the specification: the class of the error
    that a failure of the call comes out as. *)
Definition taxonomyClass (msg : jstring) : jstring :=
  if authFailure msg then js "InvalidCredentialsError"
  else if rateLimited msg then js "RateLimitedError"
  else js "ExtractionError".

Definition raisesTypedErrors
    (extractSpecs : (jstring -> completion (option jstring)) ->
                    jstring -> jstring -> completion json) : Prop :=
  forall create query context e,
    create (userMessage query context) = Thrown e ->
    exists e', extractSpecs create query context = Thrown e' /\
               name e' = taxonomyClass (Groq.messageOr e).

(** A failure of the call that is an authentication failure does not come
    out as the general extraction failure around its message. *)
Definition tellsAuthFailureApart
    (extractSpecs : (jstring -> completion (option jstring)) ->
                    jstring -> jstring -> completion json) : Prop :=
  forall create query context e,
    create (userMessage query context) = Thrown e ->
    authFailure (Groq.messageOr e) = true ->
    extractSpecs create query context
    <> throwError (js "LLM extraction failed: " ++ Groq.messageOr e).

End Extractor.

(** * More of the code *)

From Stdlib Require Qabs Lqa.

(** ** The page loop of [extractTextWithStructure] *)

Module Document.
Import Layout.

(** [`[START_PAGE_${i}]\n${pageText}\n[END_PAGE_${i}]\n\n`] *)
Definition pageFrame (p : PageText) : jstring :=
  js "[START_PAGE_" ++ numToString (num p) ++ js "]" ++ [newline]
    ++ content p ++ [newline]
    ++ js "[END_PAGE_" ++ numToString (num p) ++ js "]" ++ [newline; newline].

(** [fullText], to which every page adds its frame. *)
Definition fullTextOf (pages : list PageText) : jstring :=
  fold_left (fun fullText p => fullText ++ pageFrame p) pages [].

(** The message of the error thrown when PDF.js cannot open the file. *)
Definition openFailedMessage (e : JSError) : jstring :=
  js "PDF.js failed to open the file: " ++ Extractor.OpenAI.messageText e
    ++ js ". Make sure the file is a valid, non-encrypted PDF.".

(** [extractTextWithStructure(file)]: [document] is what
    [pdfjsLib.getDocument(...).promise] gives, the text items of each page
    of the file, or what it throws. *)
Definition extractTextWithStructure
    (document : completion (list (list TextItem)))
    : completion (jstring * list PageText) :=
  match document with
  | Thrown e => throwError (openFailedMessage e)
  | Returned pageItems =>
      let pages := extractPages pageItems in
      Returned (fullTextOf pages, pages)
  end.

(** The rows of a map are pairwise at least [ROW_DELTA] apart. *)
Definition rowsApart (lineMap : LineMap) : Prop :=
  ForallOrdPairs (fun a b => ROW_DELTA <= Z.abs (a - b)) (keys lineMap).

(** A row is keyed by the coordinate of its first item, and all its items
    are within reach of the key. *)
Definition rowWellFormed (entry : Z * list TextItem) : Prop :=
  let (k, row) := entry in
  (exists first rest, row = first :: rest /\ rowCoordinate first = k) /\
  Forall (fun item => Z.abs (k - rowCoordinate item) < ROW_DELTA) row.

End Document.

(** ** The section a page inherits *)

Module Sections.

Section WithRegExp.

Variable SECTION_HEADER_match : jstring -> option (jstring * jstring).

(** [activeSection] after the pages [pages], from [activeSection] before
    them. *)
Definition sectionAfter (activeSection : jstring) (pages : list PageText)
    : jstring :=
  fold_left (Chunker.nextSection SECTION_HEADER_match) pages activeSection.

(** A page without a section header. *)
Definition headerless (p : PageText) : Prop :=
  SECTION_HEADER_match (content p) = None.

End WithRegExp.

(** Two pages for the examples: the first opens a section and holds a
    torque value, the second has no header.  The stand-ins for the regular
    expressions: a page has a header when it starts with SECTION, a page
    is one segment, and a value is the text Nm. *)
Definition exampleHeader (s : jstring) : option (jstring * jstring) :=
  if startsWith (js "SECTION") s
  then Some (js "204-01", js " FRONT SUSPENSION ") else None.

Definition exampleSplit (s : jstring) : list jstring := [s].

Definition exampleTest (s : jstring) : bool := includes (js "Nm") s.

Definition examplePages : list PageText :=
  [ {| num := 1;
       content := js "SECTION 204-01 FRONT SUSPENSION Cam bolt nut 350 Nm" |};
    {| num := 2;
       content := js "Install the stabilizer bar bracket and the link." |} ].

Definition exampleChunk2 : Chunk :=
  {| id := js "p2-s0";
     text := js "SECTION: 204-01: FRONT SUSPENSION" ++ newline
               :: js "PAGE: 2" ++ newline
               :: js "CONTENT: Install the stabilizer bar bracket and the link.";
     section := Some (js "204-01: FRONT SUSPENSION");
     page := 2;
     embedding := None;
     isSpecPriority := Some false |}.

End Sections.

(** ** The weight the hashing embedding hands out *)

Module Weights.
Import Embedding.

(** The sum of the buckets of a vector. *)
Definition total (vector : list Z) : Z := fold_right Z.add 0 vector.

(** [autoTerms.has(word) ? 3 : 1] *)
Definition weightOf (word : jstring) : Z :=
  if has autoTerms word then 3 else 1.

(** The number of character bigrams of a string,
    [normalized.length - 1] when there is a character. *)
Definition bigramCount (s : jstring) : Z :=
  Z.of_nat (List.length s - 1).

End Weights.

(** ** The embedding step of [runPipeline] ([App.tsx]) *)

Module Pipeline.

Definition BATCH : nat := 20.

(** An entry of the array a service answers with: an embedding, or
    [undefined] ([None]). *)
Definition entry := option (list Double.double).

(** [c.embedding = e]: the chunk object after the assignment. *)
Definition setEmbedding (e : entry) (c : Chunk) : Chunk :=
  {| id := id c; text := text c; section := section c; page := page c;
     embedding := e; isSpecPriority := isSpecPriority c |}.

(** What [batch[idx].embedding = e] throws when [batch[idx]] is
    [undefined] (the wording is V8's). *)
Definition TypeError : JSError :=
  {| name := js "TypeError";
     message :=
       Some (js "Cannot set properties of undefined (setting 'embedding')") |}.

(** [embs.forEach((e, idx) => { batch[idx].embedding = e; })].  The array
    [batch] is a slice of [chunks]: it holds the same chunk objects, so
    what is assigned through [batch] is seen through [chunks].  The
    result is the objects of the batch after the loop; an embedding with
    no chunk at its index raises the error. *)
Fixpoint assignEmbeddings (embs : list entry) (batch : list Chunk)
    : completion (list Chunk) :=
  match embs, batch with
  | [], _ => Returned batch
  | _ :: _, [] => Thrown TypeError
  | e :: embs', c :: batch' =>
      match assignEmbeddings embs' batch' with
      | Returned assigned => Returned (setEmbedding e c :: assigned)
      | Thrown err => Thrown err
      end
  end.

Section WithEmbedder.

(** [groq.getBatchEmbeddings] or [openai.getBatchEmbeddings]. *)
Variable getBatchEmbeddings : list jstring -> completion (list entry).

(** [for (let i = 0; i < chunks.length; i += BATCH) { ... }] from [i] on:
    the chunk objects, in the order of [chunks], once the loop is over,
    or what the loop throws.  [fuel] bounds the number of rounds. *)
Fixpoint embedFrom (fuel : nat) (i : nat) (chunks : list Chunk)
    : option (completion (list Chunk)) :=
  match fuel with
  | O => None
  | S fuel' =>
      if (i <? List.length chunks)%nat then
        let batch := firstn BATCH (skipn i chunks) in
        match getBatchEmbeddings (map text batch) with
        | Thrown err => Some (Thrown err)
        | Returned embs =>
            match assignEmbeddings embs batch with
            | Thrown err => Some (Thrown err)
            | Returned assigned =>
                embedFrom fuel' (i + BATCH)
                  (firstn i chunks ++ assigned ++ skipn (i + BATCH) chunks)
            end
        end
      else Some (Returned chunks)
  end.

(** The whole loop; it makes fewer rounds than there are chunks, plus
    one. *)
Definition embedChunks (chunks : list Chunk)
    : option (completion (list Chunk)) :=
  embedFrom (S (List.length chunks)) 0 chunks.

End WithEmbedder.

(** [GroqService.getBatchEmbeddings]: the hashing embedding of each
    text. *)
Definition groqBatchEmbeddings (texts : list jstring)
    : completion (list entry) :=
  Returned (map (fun t => Some (Embedding.getEmbedding t)) texts).

(** A chunk as the Groq pipeline leaves it. *)
Definition embedded (c : Chunk) : Chunk :=
  setEmbedding (Some (Embedding.getEmbedding (text c))) c.

(** A chunk without looking at its embedding. *)
Definition sameButEmbedding (c c' : Chunk) : Prop :=
  id c' = id c /\ text c' = text c /\ section c' = section c /\
  page c' = page c /\ isSpecPriority c' = isSpecPriority c.

(** A chunk for the examples. *)
Definition exampleChunk : Chunk :=
  {| id := js "p1-s0"; text := js "Wheel nut torque 204 Nm";
     section := Some (js "GENERAL INFORMATION"); page := 1;
     embedding := None; isSpecPriority := Some true |}.

End Pipeline.

(** ** The embeddings of [OpenAIService] *)

Module OpenAIEmbeddings.
Import Extractor.

(** An entry of [response.data], as far as the code reads it: its
    [index] and its [embedding], which the code tests for and which
    may be missing. *)
Record Item := mkItem { index : Z; itemEmbedding : Pipeline.entry }.

(** The response of [client.embeddings.create], as far as the code reads
    it: [response.data], which may be missing. *)
Definition Response := option (list Item).

(** The comparator [(a, b) => a.index - b.index]. *)
Definition indexBefore (a b : Item) : bool := index a - index b <=? 0.

Definition invalidKeyMessage : jstring :=
  js "Invalid or missing OpenAI API key. Check your .env.local file.".

Definition rateLimitMessage : jstring :=
  js "OpenAI API rate limit exceeded. Wait a moment and retry.".

Definition embeddingFailedPrefix : jstring := js "Embedding failed: ".

(** The [catch (e)] block of [getBatchEmbeddings]. *)
Definition handleFailure {A} (e : JSError) : completion A :=
  let msg := Groq.messageOr e in
  if includes (js "API_KEY") msg || includes (js "401") msg
     || includes (js "403") msg
  then throwError invalidKeyMessage
  else if includes (js "429") msg || includes (js "quota") msg
          || includes (js "rate_limit") msg
  then throwError rateLimitMessage
  else throwError (embeddingFailedPrefix ++ msg).

Section WithClient.

(** [this.client.embeddings.create] with the fixed model, for a single
    text and for an array of texts. *)
Variable createOne : jstring -> completion Response.
Variable createMany : list jstring -> completion Response.

Definition getBatchEmbeddings (texts : list jstring)
    : completion (list Pipeline.entry) :=
  try_catch
    (match createMany texts with
     | Thrown e => Thrown e
     | Returned response =>
         match response with
         | None | Some [] => throwError (js "No embeddings returned")
         | Some data =>
             Returned (map itemEmbedding (JSArray.sort indexBefore data))
         end
     end)
    handleFailure.

(** [getEmbedding]: the embedding of the first entry when it is there,
    and [batch[0]] of the fallback otherwise. *)
Definition getEmbedding (text : jstring) : completion Pipeline.entry :=
  try_catch
    (match createOne text with
     | Thrown e => Thrown e
     | Returned response =>
         match response with
         | Some ({| itemEmbedding := Some e |} :: _) => Returned (Some e)
         | _ => throwError (js "Empty embedding response")
         end
     end)
    (fun _ =>
       match getBatchEmbeddings [text] with
       | Thrown e => Thrown e
       | Returned batch =>
           Returned (match batch with e :: _ => e | [] => None end)
       end).

End WithClient.

(** The messages a failure of the embedding service can carry. *)
Definition classified (e : JSError) : Prop :=
  message e = Some invalidKeyMessage \/
  message e = Some rateLimitMessage \/
  exists msg, message e = Some (embeddingFailedPrefix ++ msg).

End OpenAIEmbeddings.

(** ** The CSV export ([downloadCSV] of [App.tsx]) *)

Module CSV.
Import JSON.

(** The [replace] with the global pattern: every double quote of the value
    becomes two. *)
Fixpoint doubleQuotes (s : jstring) : jstring :=
  match s with
  | [] => []
  | c :: r =>
      if Ascii.eqb c quote then quote :: quote :: doubleQuotes r
      else c :: doubleQuotes r
  end.

(** The template around it: the value between two double quotes.  [v] is
    [String(v)], the value as a string. *)
Definition csvField (v : jstring) : jstring :=
  quote :: doubleQuotes v ++ [quote].

(** [[...].map(v => ...).join(',')] *)
Definition csvRow (values : list jstring) : jstring :=
  join (js ",") (map csvField values).

(** A reader for the fields of a row, to say that a row can be read back:
    the value of a quoted field from behind its opening quote, and what
    follows its closing quote. *)
Fixpoint readQuoted (s : jstring) : option (jstring * jstring) :=
  match s with
  | [] => None
  | c :: r =>
      if Ascii.eqb c quote then
        match r with
        | c' :: r' =>
            if Ascii.eqb c' quote then
              match readQuoted r' with
              | Some (v, rest) => Some (quote :: v, rest)
              | None => None
              end
            else Some ([], r)
        | [] => Some ([], [])
        end
      else
        match readQuoted r with
        | Some (v, rest) => Some (c :: v, rest)
        | None => None
        end
  end.

(** The rows of a line: quoted fields with commas between them. *)
Fixpoint readFields (fuel : nat) (s : jstring) : option (list jstring) :=
  match fuel, s with
  | _, [] => Some []
  | S fuel', c :: r =>
      if Ascii.eqb c quote then
        match readQuoted r with
        | Some (v, []) => Some [v]
        | Some (v, d :: rest) =>
            if ch d "," then
              match readFields fuel' rest with
              | Some (v' :: vs) => Some (v :: v' :: vs)
              | _ => None
              end
            else None
        | None => None
        end
      else None
  | O, _ :: _ => None
  end.

Definition readRow (s : jstring) : option (list jstring) :=
  readFields (List.length s) s.

End CSV.

(** ** An answer wrapped in an object *)

Module Answers.
Import JSON Extractor.

(** A text in braces. *)
Definition braced (body : jstring) : jstring :=
  "{"%char :: body ++ ["}"%char].

(** The answer [{"specs": [1]}] and the array inside it. *)
Definition wrappedAnswer : jstring :=
  braced (quoted "specs" ++ js ": [1]").

Definition wrappedArray : list json := [JNumber Double.one].

End Answers.
(** * Properties *)

(** ** Doubles *)

Module DoubleFacts.
Import Double.

Lemma mul_comm (x y : double) : mul x y = mul y x.
Proof.
  unfold mul, SFmul.
  destruct x as [sx | sx | | sx mx ex], y as [sy | sy | | sy my ey];
    try reflexivity; try (now rewrite xorb_comm).
  now rewrite xorb_comm, Pos.mul_comm, Z.add_comm.
Qed.

Lemma leastExponent_eq : leastExponent = -1074.
Proof. reflexivity. Qed.

(** *** Shifting to the right *)

Lemma shr_1_m (mrs : shr_record) :
  0 <= shr_m mrs -> shr_m (shr_1 mrs) = shr_m mrs / 2.
Proof.
  destruct mrs as [m r s]. simpl. intros Hm.
  destruct m as [| p | p]; [reflexivity | | lia].
  destruct p as [p | p |]; simpl.
  - rewrite Pos2Z.inj_xI. apply Z.div_unique with 1; lia.
  - rewrite Pos2Z.inj_xO. apply Z.div_unique with 0; lia.
  - reflexivity.
Qed.

Lemma iter_shr_1_m (p : positive) (mrs : shr_record) :
  0 <= shr_m mrs ->
  shr_m (iter_pos shr_1 p mrs) = shr_m mrs / 2 ^ Zpos p.
Proof.
  revert mrs. induction p as [p IH | p IH |]; intros mrs Hm; simpl iter_pos.
  - assert (H1 : 0 <= shr_m (shr_1 mrs))
      by (rewrite shr_1_m by exact Hm; apply Z.div_pos; lia).
    assert (H2 : 0 <= shr_m (iter_pos shr_1 p (shr_1 mrs)))
      by (rewrite IH by exact H1; apply Z.div_pos; lia).
    rewrite (IH _ H2), (IH _ H1), shr_1_m by exact Hm.
    rewrite !Z.div_div by lia.
    f_equal.
    replace (Zpos p~1) with (1 + Zpos p + Zpos p) by lia.
    rewrite !Z.pow_add_r by lia. lia.
  - assert (H1 : 0 <= shr_m (iter_pos shr_1 p mrs))
      by (rewrite IH by exact Hm; apply Z.div_pos; lia).
    rewrite (IH _ H1), (IH _ Hm).
    rewrite Z.div_div by lia.
    f_equal.
    replace (Zpos p~0) with (Zpos p + Zpos p) by lia.
    rewrite Z.pow_add_r by lia. reflexivity.
  - rewrite shr_1_m by exact Hm. reflexivity.
Qed.

Lemma digits2_pos_lower (m : positive) :
  2 ^ (Zpos (digits2_pos m) - 1) <= Zpos m.
Proof.
  induction m as [m IH | m IH |]; simpl digits2_pos.
  - rewrite Pos2Z.inj_succ.
    replace (Z.succ (Zpos (digits2_pos m)) - 1)
      with (Z.succ (Zpos (digits2_pos m) - 1)) by lia.
    rewrite Z.pow_succ_r by lia.
    change (Zpos m~1) with (2 * Zpos m + 1). lia.
  - rewrite Pos2Z.inj_succ.
    replace (Z.succ (Zpos (digits2_pos m)) - 1)
      with (Z.succ (Zpos (digits2_pos m) - 1)) by lia.
    rewrite Z.pow_succ_r by lia.
    change (Zpos m~0) with (2 * Zpos m). lia.
  - simpl. lia.
Qed.

(** The exponent behind a shift is a double's. *)
Lemma shr_fexp_exponent (m e : Z) (l : location) :
  leastExponent <= snd (shr_fexp prec emax m e l).
Proof.
  unfold shr_fexp, shr.
  pose proof (Z.le_max_r (Zdigits2 m + e - prec) (emin prec emax)) as Hmax.
  fold (fexp prec emax (Zdigits2 m + e)) in Hmax.
  destruct (fexp prec emax (Zdigits2 m + e) - e) as [| p | p] eqn:Hn;
    unfold leastExponent; simpl snd; lia.
Qed.

(** A mantissa that is not zero stays so behind a shift, from a double's
    exponent on. *)
Lemma shr_fexp_positive (m : positive) (e : Z) (l : location) :
  leastExponent <= e ->
  0 < shr_m (fst (shr_fexp prec emax (Zpos m) e l)).
Proof.
  intros He. unfold shr_fexp, shr.
  assert (Hrec : shr_m (shr_record_of_loc (Zpos m) l) = Zpos m)
    by (destruct l as [| []]; reflexivity).
  destruct (fexp prec emax (Zdigits2 (Zpos m) + e) - e) as [| p | p] eqn:Hn;
    simpl fst; try (rewrite Hrec; lia).
  rewrite iter_shr_1_m by (rewrite Hrec; lia). rewrite Hrec.
  unfold fexp, leastExponent in *. simpl Zdigits2 in Hn.
  pose proof (digits2_pos_lower m) as Hd.
  set (d := Zpos (digits2_pos m)) in *.
  assert (Hprec : prec = 53) by reflexivity.
  assert (Hp : Zpos p = d - prec) by lia.
  rewrite Hp.
  apply Z.div_str_pos. split; [apply Z.pow_pos_nonneg; lia |].
  eapply Z.le_trans; [| exact Hd].
  apply Z.pow_le_mono_r; lia.
Qed.

Lemma round_nearest_even_ge (m : Z) (l : location) :
  m <= round_nearest_even m l.
Proof.
  unfold round_nearest_even.
  destruct l as [| []]; try destruct (Z.even m); lia.
Qed.

(** Rounding a mantissa that is not zero at a double's exponent gives a
    number of the same sign that is not zero. *)
Lemma binary_round_aux_sign (s : bool) (m : positive) (e : Z) (l : location) :
  leastExponent <= e ->
  (exists m' e', binary_round_aux prec emax s (Zpos m) e l = S754_finite s m' e') \/
  binary_round_aux prec emax s (Zpos m) e l = S754_infinity s.
Proof.
  intros He. unfold binary_round_aux.
  pose proof (shr_fexp_positive m e l He) as H1.
  pose proof (shr_fexp_exponent (Zpos m) e l) as E1.
  destruct (shr_fexp prec emax (Zpos m) e l) as [mrs' e'].
  simpl fst in H1. simpl snd in E1.
  pose proof (round_nearest_even_ge (shr_m mrs') (loc_of_shr_record mrs')) as Hr.
  destruct (round_nearest_even (shr_m mrs') (loc_of_shr_record mrs'))
    as [| r | r] eqn:Hround; try lia.
  pose proof (shr_fexp_positive r e' loc_Exact E1) as H2.
  destruct (shr_fexp prec emax (Zpos r) e' loc_Exact) as [mrs'' e''].
  simpl fst in H2.
  destruct (shr_m mrs'') as [| m'' | m'']; try lia.
  destruct (e'' <=? emax - prec); [left; eauto | now right].
Qed.

(** What rounding returns has a double's exponent. *)
Lemma binary_round_aux_exponent (s s' : bool) (m : Z) (e : Z) (l : location)
    (m' : positive) (e' : Z) :
  binary_round_aux prec emax s m e l = S754_finite s' m' e' ->
  leastExponent <= e'.
Proof.
  unfold binary_round_aux.
  destruct (shr_fexp prec emax m e l) as [mrs1 e1].
  pose proof (shr_fexp_exponent
                (round_nearest_even (shr_m mrs1) (loc_of_shr_record mrs1))
                e1 loc_Exact) as E2.
  destruct (shr_fexp prec emax _ e1 loc_Exact) as [mrs2 e2].
  simpl snd in E2.
  destruct (shr_m mrs2); try discriminate.
  destruct (e2 <=? emax - prec); [| discriminate].
  intros [= _ _ <-]. exact E2.
Qed.

Lemma div_inRange (x y : double) : inRange (div x y) = true.
Proof.
  unfold div, SFdiv.
  destruct x as [sx | sx | | sx mx ex], y as [sy | sy | | sy my ey];
    try reflexivity.
  destruct (SFdiv_core_binary prec emax (Zpos mx) ex (Zpos my) ey)
    as [[mz ez] lz].
  destruct (binary_round_aux prec emax (xorb sx sy) mz ez lz)
    as [| | | s m e] eqn:H; try reflexivity.
  apply binary_round_aux_exponent in H. unfold inRange.
  now apply Z.leb_le.
Qed.

(** *** The sign of a difference *)

Lemma shl_align_fst (m : positive) (e e' : Z) :
  e' <= e -> Zpos (fst (shl_align m e e')) = Zpos m * 2 ^ (e - e').
Proof.
  intros He. unfold shl_align.
  destruct (e' - e) as [| d | d] eqn:Hd; simpl fst.
  - replace (e - e') with 0 by lia. lia.
  - lia.
  - change (Pos.iter xO m d) with (Zpower.shift_pos d m).
    rewrite Zpower.shift_pos_correct.
    replace (e - e') with (Zpos d) by lia.
    change (2 ^ Zpos d) with (Z.pow_pos 2 d). lia.
Qed.

(** Rounding an integer that is not zero, at a double's exponent. *)
Lemma binary_round_sign (s : bool) (m : positive) (e : Z) :
  leastExponent <= e ->
  (exists m' e', binary_round prec emax s m e = S754_finite s m' e') \/
  binary_round prec emax s m e = S754_infinity s.
Proof.
  intros He. unfold binary_round.
  pose proof (Z.le_max_r (Zpos (digits2_pos m) + e - prec) (emin prec emax))
    as Hmax.
  fold (fexp prec emax (Zpos (digits2_pos m) + e)) in Hmax.
  unfold shl_align.
  destruct (fexp prec emax (Zpos (digits2_pos m) + e) - e) as [| d | d] eqn:Hd;
    apply binary_round_aux_sign; unfold leastExponent in *; lia.
Qed.

Lemma ltb_zero (x : double) :
  ltb zero x = match x with
               | S754_finite s _ _ | S754_infinity s => negb s
               | _ => false
               end.
Proof. destruct x as [s | [] | | [] m e]; try reflexivity; now destruct s. Qed.

Lemma ltb_zero_normalize (d e : Z) :
  leastExponent <= e ->
  ltb zero (binary_normalize prec emax d e false) = (0 <? d).
Proof.
  intros He. rewrite ltb_zero. unfold binary_normalize.
  destruct d as [| m | m]; [reflexivity | |].
  - destruct (binary_round_sign false m e He) as [(m' & e' & ->) | ->];
      reflexivity.
  - destruct (binary_round_sign true m e He) as [(m' & e' & ->) | ->];
      reflexivity.
Qed.

Lemma cond_Zopp_mul (s : bool) (a b : Z) :
  cond_Zopp s (a * b) = cond_Zopp s a * b.
Proof. destruct s; simpl; lia. Qed.

(** The comparator [y - x] of two finite doubles is positive exactly when
    [x] is the smaller one. *)
Lemma ltb_zero_sub (x y : double) :
  isFinite x = true -> isFinite y = true ->
  inRange x = true -> inRange y = true ->
  ltb zero (sub y x) = (ulps x <? ulps y).
Proof.
  intros Fx Fy Rx Ry. unfold sub, SFsub.
  destruct y as [sy | sy | | sy my ey], x as [sx | sx | | sx mx ex];
    try discriminate.
  - destruct sy, sx; reflexivity.
  - rewrite ltb_zero. unfold ulps.
    assert (0 < Zpos mx * 2 ^ (ex - leastExponent))
      by (apply Z.mul_pos_pos; [lia | apply Z.pow_pos_nonneg; [lia |]];
          apply Z.leb_le in Rx; lia).
    destruct sx; cbn [negb cond_Zopp]; symmetry;
      [apply Z.ltb_lt | apply Z.ltb_ge]; lia.
  - rewrite ltb_zero. unfold ulps.
    assert (0 < Zpos my * 2 ^ (ey - leastExponent))
      by (apply Z.mul_pos_pos; [lia | apply Z.pow_pos_nonneg; [lia |]];
          apply Z.leb_le in Ry; lia).
    destruct sy; cbn [negb cond_Zopp]; symmetry;
      [apply Z.ltb_ge | apply Z.ltb_lt]; lia.
  - apply Z.leb_le in Rx, Ry. simpl in Rx, Ry.
    rewrite ltb_zero_normalize by lia.
    rewrite !shl_align_fst by lia.
    unfold ulps. set (ez := Z.min ey ex).
    assert (Hpos : 0 < 2 ^ (ez - leastExponent))
      by (apply Z.pow_pos_nonneg; lia).
    assert (Hy : Zpos my * 2 ^ (ey - leastExponent)
                 = Zpos my * 2 ^ (ey - ez) * 2 ^ (ez - leastExponent)).
    { rewrite <- Z.mul_assoc, <- Z.pow_add_r by lia. do 2 f_equal. lia. }
    assert (Hx : Zpos mx * 2 ^ (ex - leastExponent)
                 = Zpos mx * 2 ^ (ex - ez) * 2 ^ (ez - leastExponent)).
    { rewrite <- Z.mul_assoc, <- Z.pow_add_r by lia. do 2 f_equal. lia. }
    rewrite Hy, Hx, !cond_Zopp_mul.
    set (a := cond_Zopp sy (Zpos my) * 2 ^ (ey - ez)).
    set (b := cond_Zopp sx (Zpos mx) * 2 ^ (ex - ez)).
    destruct (Z.ltb_spec 0 (a - b)), (Z.ltb_spec (b * 2 ^ (ez - leastExponent))
                                                 (a * 2 ^ (ez - leastExponent)));
      try reflexivity; nia.
Qed.

(** *** The number a double denotes *)

Lemma value_ulps (x : double) :
  inRange x = true ->
  (value x == inject_Z (ulps x) * Qpower 2 leastExponent)%Q.
Proof.
  destruct x as [s | s | | s m e]; unfold value, ulps, inRange; intros Hr;
    try (change (inject_Z 0) with 0%Q; rewrite Qmult_0_l; reflexivity).
  apply Z.leb_le in Hr.
  rewrite !cond_Zopp_mul, inject_Z_mult.
  rewrite (Zpower_Qpower 2 (e - leastExponent)) by lia.
  rewrite <- Qmult_assoc.
  rewrite <- Qpower_plus by discriminate.
  replace (e - leastExponent + leastExponent) with e by lia.
  reflexivity.
Qed.

Lemma value_le (x y : double) :
  inRange x = true -> inRange y = true ->
  (value x <= value y)%Q <-> ulps x <= ulps y.
Proof.
  intros Rx Ry. rewrite !value_ulps by assumption.
  assert (Hpos : (0 < Qpower 2 leastExponent)%Q)
    by (apply Qpower_0_lt; reflexivity).
  rewrite Zle_Qle. split; intros H.
  - eapply Qmult_le_r; eassumption.
  - apply Qmult_le_r; assumption.
Qed.

Lemma value_eq (x y : double) :
  inRange x = true -> inRange y = true ->
  (value x == value y)%Q <-> ulps x = ulps y.
Proof.
  intros Rx Ry. split; intros H.
  - apply Z.le_antisymm; apply value_le; try assumption;
      rewrite H; apply Qle_refl.
  - rewrite !value_ulps by assumption. now rewrite H.
Qed.

End DoubleFacts.


(** ** Arrays and strings *)

Module JSFacts.

Lemma slice0_nonneg {A} (l : list A) (e : Z) :
  0 <= e -> slice0 l e = firstn (Z.to_nat e) l.
Proof.
  intros He. unfold slice0.
  destruct (Z.ltb_spec e 0) as [Hlt | _]; [lia | reflexivity].
Qed.

Lemma slice0_negative {A} (l : list A) (e : Z) :
  e < 0 -> slice0 l e = firstn (List.length l - Z.to_nat (- e)) l.
Proof.
  intros He. unfold slice0.
  destruct (Z.ltb_spec e 0) as [_ | Hge]; [| lia].
  f_equal. lia.
Qed.

Lemma slice0_is_prefix {A} (l : list A) (e : Z) :
  exists n, slice0 l e = firstn n l.
Proof.
  unfold slice0. destruct (e <? 0); eexists; reflexivity.
Qed.

Lemma NoDup_firstn {A} (n : nat) (l : list A) :
  NoDup l -> NoDup (firstn n l).
Proof.
  intros H. rewrite <- (firstn_skipn n l) in H.
  apply NoDup_app_remove_r in H. exact H.
Qed.

Lemma In_firstn {A} (n : nat) (l : list A) (x : A) :
  In x (firstn n l) -> In x l.
Proof.
  intros H. rewrite <- (firstn_skipn n l). apply in_or_app. now left.
Qed.

Lemma NoDup_map_inj {A B} (g : A -> B) (l : list A) (a b : A) :
  NoDup (map g l) -> In a l -> In b l -> g a = g b -> a = b.
Proof.
  induction l as [| x l IH]; simpl; intros Hnd Ha Hb Heq; [contradiction |].
  inversion Hnd as [| ? ? Hx Hl]; subst.
  destruct Ha as [-> | Ha], Hb as [-> | Hb]; auto.
  - exfalso. apply Hx. rewrite Heq. now apply in_map.
  - exfalso. apply Hx. rewrite <- Heq. now apply in_map.
Qed.

Lemma NoDup_map_filter {A B} (g : A -> B) (f : A -> bool) (l : list A) :
  NoDup (map g l) -> NoDup (map g (filter f l)).
Proof.
  induction l as [| x l IH]; simpl; intros Hnd; [constructor |].
  inversion Hnd as [| ? ? Hx Hl]; subst.
  destruct (f x); simpl; auto.
  constructor; auto.
  intros Hin. apply Hx.
  apply in_map_iff in Hin as (y & Hy & Hin).
  apply filter_In in Hin as [Hin _].
  rewrite <- Hy. now apply in_map.
Qed.

(** Splitting a list by a test and gluing the halves again, the second one
    cut short, keeps the keys apart. *)
Lemma NoDup_map_partition {A B} (g : A -> B) (f : A -> bool)
    (l : list A) (n : nat) :
  NoDup (map g l) ->
  NoDup (map g (filter f l ++ firstn n (filter (fun x => negb (f x)) l))).
Proof.
  intros Hnd. rewrite map_app.
  apply NoDup_app.
  - now apply NoDup_map_filter.
  - rewrite <- firstn_map. apply NoDup_firstn. now apply NoDup_map_filter.
  - intros x Hx Hy.
    apply in_map_iff in Hx as (a & Ha & Hina).
    apply in_map_iff in Hy as (b & Hb & Hinb).
    apply filter_In in Hina as [Hina Hfa].
    apply In_firstn, filter_In in Hinb as [Hinb Hfb].
    assert (a = b) by (apply (NoDup_map_inj g l); congruence).
    subst b. rewrite Hfa in Hfb. discriminate.
Qed.

End JSFacts.

(** ** The chunker *)

Module ChunkerFacts.
Import Chunker JSFacts.

Lemma uint_chars_not_s (d : Decimal.uint) :
  Forall (fun c => c <> "s"%char)
         (list_ascii_of_string (DecimalString.NilEmpty.string_of_uint d)).
Proof.
  induction d; simpl; constructor; try assumption; discriminate.
Qed.

Lemma numToString_not_s (z : Z) :
  Forall (fun c => c <> "s"%char) (numToString z).
Proof.
  unfold numToString. destruct (Z.to_int z) as [d | d]; simpl.
  - apply uint_chars_not_s.
  - constructor; [discriminate | apply uint_chars_not_s].
Qed.

Lemma numToString_inj (a b : Z) : numToString a = numToString b -> a = b.
Proof.
  unfold numToString. intros H.
  apply (f_equal string_of_list_ascii) in H.
  rewrite !string_of_list_ascii_of_string in H.
  apply (f_equal DecimalString.NilEmpty.int_of_string) in H.
  rewrite !DecimalString.NilEmpty.isi in H.
  injection H as H.
  apply (f_equal Z.of_int) in H.
  now rewrite !DecimalZ.of_to in H.
Qed.

(** Two texts without an [s], each followed by ["-s"] and more, split at
    the same place. *)
Lemma split_at_marker (a a' b b' : jstring) :
  Forall (fun c => c <> "s"%char) a ->
  Forall (fun c => c <> "s"%char) a' ->
  a ++ js "-s" ++ b = a' ++ js "-s" ++ b' ->
  a = a' /\ b = b'.
Proof.
  intros Ha. revert a'.
  induction Ha as [| x a Hx Ha IH]; intros a' Ha' Heq.
  - destruct Ha' as [| y a' Hy Ha'].
    + simpl in Heq. injection Heq as Heq. now split.
    + simpl in Heq. injection Heq as Hc Heq. subst y.
      destruct Ha' as [| z a' Hz Ha']; simpl in Heq.
      * discriminate.
      * injection Heq as Hc _. now subst z.
  - destruct Ha' as [| y a' Hy Ha'].
    + simpl in Heq. injection Heq as Hc Heq. subst x.
      destruct Ha as [| z a Hz Ha]; simpl in Heq.
      * discriminate.
      * injection Heq as Hc _. now subst z.
    + simpl in Heq. injection Heq as Hc Heq. subst y.
      destruct (IH a' Ha' Heq) as [-> ->]. now split.
Qed.

Lemma idOf_inj (n n' : Z) (i i' : nat) :
  idOf n i = idOf n' i' -> n = n' /\ i = i'.
Proof.
  unfold idOf. simpl. intros H. injection H as H.
  apply split_at_marker in H; try apply numToString_not_s.
  destruct H as [Hn Hi].
  apply numToString_inj in Hn. apply numToString_inj in Hi.
  split; [assumption | lia].
Qed.

Section WithRegExp.

Variable header : jstring -> option (jstring * jstring).
Variable split : jstring -> list jstring.
Variable test : jstring -> bool.


Lemma segmentChunks_origin sec p segs i c :
  In c (segmentChunks test sec p i segs) ->
  exists j seg, nth_error segs j = Some seg /\
                page c = num p /\ id c = idOf (num p) (i + j).
Proof.
  revert i. induction segs as [| seg segs IH]; simpl; intros i Hin.
  - contradiction.
  - apply in_app_or in Hin as [Hin | Hin].
    + unfold Chunker.segmentChunk in Hin.
      destruct (jlength (trim seg) <? 30); simpl in Hin; [contradiction |].
      destruct Hin as [<- | []].
      exists 0%nat, seg. simpl. rewrite Nat.add_0_r. auto.
    + apply IH in Hin as (j & seg' & Hnth & Hp & Hid).
      exists (S j), seg'. simpl. rewrite Nat.add_succ_r. auto.
Qed.

Lemma segmentChunks_NoDup sec p segs i :
  NoDup (map id (segmentChunks test sec p i segs)).
Proof.
  revert i. induction segs as [| seg segs IH]; simpl; intros i.
  - constructor.
  - rewrite map_app. apply NoDup_app.
    + unfold Chunker.segmentChunk.
      destruct (jlength (trim seg) <? 30); simpl; repeat constructor; auto.
    + apply IH.
    + intros x Hx Hy.
      apply in_map_iff in Hx as (a & <- & Ha).
      apply in_map_iff in Hy as (b & Heq & Hb).
      unfold Chunker.segmentChunk in Ha.
      destruct (jlength (trim seg) <? 30); simpl in Ha; [contradiction |].
      destruct Ha as [<- | []]. simpl in Heq.
      apply segmentChunks_origin in Hb as (j & _ & _ & _ & Hid).
      rewrite Hid in Heq.
      change (idOf (num p) (S i + j) = idOf (num p) i) in Heq.
      apply idOf_inj in Heq. lia.
Qed.

Lemma pagesChunks_origin sec pages c :
  In c (pagesChunks header split test sec pages) -> fromSegment split pages c.
Proof.
  revert sec. induction pages as [| p pages IH]; simpl; intros sec Hin.
  - contradiction.
  - apply in_app_or in Hin as [Hin | Hin].
    + apply segmentChunks_origin in Hin as (j & seg & Hnth & Hp & Hid).
      exists p, j, seg. simpl. auto.
    + apply IH in Hin as (p' & j & seg & Hp' & Hrest).
      exists p', j, seg. simpl. auto.
Qed.

Lemma pagesChunks_NoDup sec pages :
  NoDup (map num pages) -> NoDup (map id (pagesChunks header split test sec pages)).
Proof.
  revert sec. induction pages as [| p pages IH]; simpl; intros sec Hnd.
  - constructor.
  - inversion Hnd as [| ? ? Hp Hrest]; subst.
    rewrite map_app. apply NoDup_app.
    + apply segmentChunks_NoDup.
    + now apply IH.
    + intros x Hx Hy.
      apply in_map_iff in Hx as (a & <- & Ha).
      apply in_map_iff in Hy as (b & Heq & Hb).
      apply segmentChunks_origin in Ha as (j & _ & _ & _ & Hida).
      apply pagesChunks_origin in Hb as (p' & j' & _ & Hp' & _ & _ & Hidb).
      rewrite Hida, Hidb in Heq. apply idOf_inj in Heq as [Hnum _].
      apply Hp. rewrite <- Hnum. now apply in_map.
Qed.

Lemma selectChunks_is_prefix all maxChunks :
  exists n m,
    selectChunks all maxChunks
    = firstn n (specChunks all ++ firstn m (generalChunks all)).
Proof.
  unfold selectChunks.
  destruct (slice0_is_prefix (generalChunks all)
              (Z.max 0 (maxChunks - Z.of_nat (List.length (specChunks all)))))
    as [m ->].
  destruct (slice0_is_prefix (specChunks all ++ firstn m (generalChunks all))
              maxChunks) as [n ->].
  now exists n, m.
Qed.

Lemma selectChunks_incl all maxChunks c :
  In c (selectChunks all maxChunks) -> In c all.
Proof.
  destruct (selectChunks_is_prefix all maxChunks) as (n & m & ->).
  intros Hin. apply In_firstn in Hin.
  apply in_app_or in Hin as [H | H].
  - now apply filter_In in H.
  - apply In_firstn in H. now apply filter_In in H.
Qed.

(** C9.  When the page numbers of the input are pairwise distinct, the
    chunks [generateSemanticChunks] returns have pairwise distinct ids,
    whatever the budget; and the id of each returned chunk is
    [p<page>-s<segmentIndex>], built from the chunk's page number and the
    index of its segment in the split of that page. *)
Theorem chunk_ids_unique (pages : list PageText) (maxChunks : option Z) :
  NoDup (map num pages) ->
  NoDup (map id (generateSemanticChunks header split test pages maxChunks)) /\
  forall c, In c (generateSemanticChunks header split test pages maxChunks) ->
    exists p sIdx seg,
      In p pages /\
      nth_error (split (content p)) sIdx = Some seg /\
      page c = num p /\
      id c = js "p" ++ numToString (page c) ++ js "-s"
               ++ numToString (Z.of_nat sIdx).
Proof.
  intros Hnd. unfold Chunker.generateSemanticChunks.
  set (m := match maxChunks with Some m => m | None => 300 end).
  split.
  - destruct (selectChunks_is_prefix (allChunks header split test pages) m) as (n & k & ->).
    rewrite <- firstn_map. apply NoDup_firstn.
    apply NoDup_map_partition. now apply pagesChunks_NoDup.
  - intros c Hin. apply selectChunks_incl in Hin.
    apply pagesChunks_origin in Hin as (p & j & seg & Hp & Hnth & Hpage & Hid).
    exists p, j, seg. rewrite Hpage. auto.
Qed.

(** C1.  For a budget [maxChunks >= 0], [generateSemanticChunks] returns
    the spec-priority chunks in generation order, then the first
    [max(0, maxChunks - |spec-priority|)] general chunks in generation
    order, the whole cut to its first [maxChunks] chunks; so the result has
    at most [maxChunks] chunks, and when the spec-priority chunks fit the
    budget every one of them is in the result.  An omitted budget is 300. *)
Theorem selection_under_budget (pages : list PageText) (maxChunks : Z) :
  0 <= maxChunks ->
  let all := allChunks header split test pages in
  let spec := filter (fun c => truthy (isSpecPriority c)) all in
  let general := filter (fun c => negb (truthy (isSpecPriority c))) all in
  let budget := Z.to_nat maxChunks in
  let result := generateSemanticChunks header split test pages (Some maxChunks) in
  result
  = firstn budget (spec ++ firstn (budget - List.length spec) general) /\
  (List.length result <= budget)%nat /\
  ((List.length spec <= budget)%nat ->
     result = spec ++ firstn (budget - List.length spec) general /\
     forall c, In c spec -> In c result) /\
  generateSemanticChunks header split test pages None
  = generateSemanticChunks header split test pages (Some 300).
Proof.
  intros Hm all spec general budget result.
  assert (Hres : result
    = firstn budget (spec ++ firstn (budget - List.length spec) general)).
  { unfold result, Chunker.generateSemanticChunks, selectChunks.
    fold all. change (specChunks all) with spec.
    change (generalChunks all) with general.
    rewrite !slice0_nonneg by lia.
    replace (Z.to_nat (Z.max 0 (maxChunks - Z.of_nat (List.length spec))))
      with (budget - List.length spec)%nat by (unfold budget; lia).
    reflexivity. }
  split; [exact Hres |].
  split; [rewrite Hres; apply firstn_le_length |].
  split; [| reflexivity].
  intros Hfit.
  assert (Hall : result = spec ++ firstn (budget - List.length spec) general).
  { rewrite Hres. apply firstn_all2.
    rewrite length_app.
    pose proof (firstn_le_length (budget - List.length spec) general). lia. }
  split; [exact Hall |].
  intros c Hc. rewrite Hall. apply in_or_app. now left.
Qed.

End WithRegExp.

(** A run of the chunker on two pages, the second one holding a torque
    value, with a budget of one chunk. *)
Lemma selection_under_budget_witness :
  let header := fun _ : jstring => @None (jstring * jstring) in
  let split := fun s : jstring => [s] in
  let test := includes (js "Nm") in
  let pages :=
    [ {| num := 1; content := js "General information about the vehicle." |};
      {| num := 2; content := js "Wheel nut torque specification: 204 Nm" |} ] in
  0 <= 1 /\
  map id (generateSemanticChunks header split test pages (Some 1)) = [js "p2-s0"].
Proof.
  intros header split test pages.
  split; [lia |].
  rewrite (proj1 (selection_under_budget header split test pages 1 ltac:(lia))).
  reflexivity.
Defined.

Lemma chunk_ids_unique_witness :
  let header := fun _ : jstring => @None (jstring * jstring) in
  let split := fun s : jstring => [s] in
  let test := includes (js "Nm") in
  let pages :=
    [ {| num := 1; content := js "General information about the vehicle." |};
      {| num := 2; content := js "Wheel nut torque specification: 204 Nm" |} ] in
  NoDup (map num pages) /\
  NoDup (map id (generateSemanticChunks header split test pages None)).
Proof.
  intros header split test pages.
  assert (Hnd : NoDup (map num pages)).
  { simpl. repeat constructor; simpl; intuition discriminate. }
  split; [exact Hnd |].
  exact (proj1 (chunk_ids_unique header split test pages None Hnd)).
Defined.

End ChunkerFacts.

(** ** The stable sort *)

Module SortFacts.
Import JSArray.

Section Sort.
Context {A : Type}.
Variable before : A -> A -> bool.

Lemma insertSorted_perm (x : A) (l : list A) :
  Permutation (insertSorted before x l) (x :: l).
Proof.
  induction l as [| y l IH]; simpl.
  - apply Permutation_refl.
  - destruct (before x y).
    + apply Permutation_refl.
    + eapply Permutation_trans; [apply perm_skip, IH | apply perm_swap].
Qed.

Lemma sort_perm (l : list A) : Permutation (sort before l) l.
Proof.
  induction l as [| x l IH]; simpl.
  - apply perm_nil.
  - eapply Permutation_trans; [apply insertSorted_perm | now apply perm_skip].
Qed.

(** Stability: elements that the comparator ranks alike keep their order.
    [P] picks a class of such elements. *)
Lemma insertSorted_filter (P : A -> bool) (x : A) (l : list A) :
  (forall a b, P a = true -> P b = true -> before a b = true) ->
  filter P (insertSorted before x l) = filter P (x :: l).
Proof.
  intros HP. induction l as [| y l IH]; simpl.
  - reflexivity.
  - destruct (before x y) eqn:Hxy; simpl.
    + reflexivity.
    + rewrite IH. simpl.
      destruct (P x) eqn:Hx, (P y) eqn:Hy; try reflexivity.
      rewrite (HP x y Hx Hy) in Hxy. discriminate.
Qed.

Lemma sort_stable (P : A -> bool) (l : list A) :
  (forall a b, P a = true -> P b = true -> before a b = true) ->
  filter P (sort before l) = filter P l.
Proof.
  intros HP. induction l as [| x l IH]; simpl.
  - reflexivity.
  - rewrite insertSorted_filter by exact HP. simpl. now rewrite IH.
Qed.

Hypothesis before_total : forall a b, before a b = true \/ before b a = true.
Hypothesis before_trans :
  forall a b c, before a b = true -> before b c = true -> before a c = true.

Lemma insertSorted_sorted (x : A) (l : list A) :
  StronglySorted (fun a b => before a b = true) l ->
  StronglySorted (fun a b => before a b = true) (insertSorted before x l).
Proof.
  induction 1 as [| y l Hl IH Hy]; simpl.
  - repeat constructor.
  - destruct (before x y) eqn:Hxy.
    + constructor; [now constructor |].
      constructor; [exact Hxy |].
      eapply Forall_impl; [| exact Hy].
      intros a Ha. now apply before_trans with y.
    + constructor; [exact IH |].
      assert (Hyx : before y x = true).
      { destruct (before_total x y) as [H | H]; [congruence | exact H]. }
      eapply Permutation_Forall.
      * apply Permutation_sym, insertSorted_perm.
      * now constructor.
Qed.

Lemma sort_sorted (l : list A) :
  StronglySorted (fun a b => before a b = true) (sort before l).
Proof.
  induction l as [| x l IH]; simpl.
  - constructor.
  - now apply insertSorted_sorted.
Qed.

End Sort.

Lemma StronglySorted_impl {A} (R1 R2 : A -> A -> Prop) (l : list A) :
  (forall a b, R1 a b -> R2 a b) ->
  StronglySorted R1 l -> StronglySorted R2 l.
Proof.
  intros Himp. induction 1 as [| x l Hl IH Hx]; constructor; auto.
  eapply Forall_impl; [| exact Hx]. auto.
Qed.


End SortFacts.

(** ** The layout reconstructor *)

Module LayoutFacts.
Import Layout SortFacts.

Lemma keyBefore_iff (a b : Z) : keyBefore a b = true <-> b <= a.
Proof. unfold keyBefore. rewrite Z.leb_le. lia. Qed.

Lemma itemBefore_iff (a b : TextItem) :
  itemBefore a b = true <-> (transform4 a <= transform4 b)%Q.
Proof.
  unfold itemBefore. rewrite Qle_bool_iff.
  split; intros H.
  - apply Qle_minus_iff in H. apply Qle_minus_iff.
    setoid_replace (transform4 b + - transform4 a)%Q
      with (0 + - (transform4 a - transform4 b))%Q by ring.
    exact H.
  - apply Qle_minus_iff. apply Qle_minus_iff in H.
    setoid_replace (0 + - (transform4 a - transform4 b))%Q
      with (transform4 b + - transform4 a)%Q by ring.
    exact H.
Qed.

Lemma sortedKeys_descending (lineMap : LineMap) :
  StronglySorted (fun a b => a >= b) (sortedKeys lineMap).
Proof.
  unfold sortedKeys.
  apply StronglySorted_impl with (R1 := fun a b => keyBefore a b = true).
  - intros a b H. apply keyBefore_iff in H. lia.
  - apply sort_sorted.
    + intros a b. rewrite !keyBefore_iff. lia.
    + intros a b c. rewrite !keyBefore_iff. lia.
Qed.

Lemma sortedItems_ascending (row : list TextItem) :
  StronglySorted (fun a b => transform4 a <= transform4 b)%Q (sortedItems row).
Proof.
  unfold sortedItems.
  apply StronglySorted_impl with (R1 := fun a b => itemBefore a b = true).
  - intros a b H. now apply itemBefore_iff.
  - apply sort_sorted.
    + intros a b. rewrite !itemBefore_iff.
      destruct (Qlt_le_dec (transform4 b) (transform4 a)) as [H | H].
      * right. now apply Qlt_le_weak.
      * now left.
    + intros a b c. rewrite !itemBefore_iff. apply Qle_trans.
Qed.

Lemma sortedItems_stable (x : Q) (row : list TextItem) :
  filter (atX x) (sortedItems row) = filter (atX x) row.
Proof.
  apply sort_stable. intros a b Ha Hb.
  apply itemBefore_iff. unfold atX in *.
  apply Qeq_bool_iff in Ha, Hb. rewrite Ha, Hb. apply Qle_refl.
Qed.

Lemma get_In (lineMap : LineMap) (y : Z) :
  In y (keys lineMap) ->
  exists items, In (y, items) lineMap /\ rowOf lineMap y = items.
Proof.
  unfold rowOf.
  induction lineMap as [| [k items] rest IH]; simpl; intros Hin.
  - contradiction.
  - destruct (Z.eqb_spec k y) as [-> | Hne].
    + exists items. auto.
    + destruct Hin as [Heq | Hin]; [contradiction |].
      destruct (IH Hin) as (items' & Hin' & Hget).
      exists items'. auto.
Qed.

(** C4.  Whatever the grouping of a page's fragments into rows, the page
    text is made of the rows in descending order of their vertical
    coordinate, each row giving the texts of its fragments in ascending
    order of their horizontal coordinate (fragments at one coordinate in
    arrival order), joined by two spaces, and the lines joined by a line
    feed; empty texts and blank lines are left out.  The fragments
    ("Nm",50,100), ("350",10,100), ("Cam Bolt",5,40) give
    "350  Nm\nCam Bolt". *)
Theorem rows_in_reading_order (lineMap : LineMap) :
  let ys := sortedKeys lineMap in
  Permutation ys (keys lineMap) /\
  StronglySorted (fun a b => a >= b) ys /\
  (forall y, In y ys ->
     exists items, In (y, items) lineMap /\ rowOf lineMap y = items) /\
  (forall row,
     let items := sortedItems row in
     Permutation items row /\
     StronglySorted (fun a b => transform4 a <= transform4 b)%Q items /\
     (forall x, filter (atX x) items = filter (atX x) row) /\
     rowText row
     = join (js "  ")
         (filter nonEmpty (map (fun item => trim (str item)) items))) /\
  pageTextOf lineMap
  = join [newline]
      (filter (fun line => 0 <? jlength (trim line))
         (map (fun y => rowText (rowOf lineMap y)) ys)) /\
  pageText [ {| str := js "Nm"; transform4 := 50; transform5 := 100 |};
             {| str := js "350"; transform4 := 10; transform5 := 100 |};
             {| str := js "Cam Bolt"; transform4 := 5; transform5 := 40 |} ]
  = js "350  Nm" ++ newline :: js "Cam Bolt".
Proof.
  intros ys.
  assert (Hperm : Permutation ys (keys lineMap)) by apply sort_perm.
  repeat split.
  - exact Hperm.
  - apply sortedKeys_descending.
  - intros y Hy. apply get_In. eapply Permutation_in; eassumption.
  - apply sort_perm.
  - apply sortedItems_ascending.
  - intros x. apply sortedItems_stable.
Qed.

(** The page of the example: its keys come out as 100, 40. *)
Lemma rows_in_reading_order_witness :
  let lineMap :=
    groupRows [ {| str := js "Nm"; transform4 := 50; transform5 := 100 |};
                {| str := js "350"; transform4 := 10; transform5 := 100 |};
                {| str := js "Cam Bolt"; transform4 := 5; transform5 := 40 |} ] in
  In 100 (sortedKeys lineMap) /\
  exists items, In (100, items) lineMap /\ rowOf lineMap 100 = items.
Proof.
  intros lineMap.
  assert (Hin : In 100 (sortedKeys lineMap)) by (vm_compute; auto).
  split; [exact Hin |].
  exact (proj1 (proj2 (proj2 (rows_in_reading_order lineMap))) 100 Hin).
Defined.

Lemma find_none_pre (within : Z -> bool) (pre : LineMap) (ks : list Z) :
  Forall (fun e => within (fst e) = false) pre ->
  find within (keys pre ++ ks) = find within ks.
Proof.
  induction 1 as [| e pre He Hpre IH]; simpl; [reflexivity |].
  now rewrite He.
Qed.

Lemma push_past (pre : LineMap) (k : Z) (row : list TextItem)
    (post : LineMap) (item : TextItem) :
  Forall (fun e => fst e <> k) pre ->
  push (pre ++ (k, row) :: post) k item = pre ++ (k, row ++ [item]) :: post.
Proof.
  induction 1 as [| [k' r'] pre He Hpre IH]; simpl.
  - now rewrite Z.eqb_refl.
  - simpl in He. destruct (Z.eqb_spec k' k) as [Heq | _]; [contradiction |].
    now rewrite IH.
Qed.

(** The grouping in terms of [y], the rounded vertical coordinate of the
    fragment: a fragment that arrives is appended to the first row, in
    the order the rows were created, whose key is less than 3 away from
    [y], also when a later row is nearer; when no row is that near, a
    new row keyed by [y] is added behind the others. *)
Theorem first_match_row_assignment (lineMap : LineMap) (item : TextItem) :
  let y := rowCoordinate item in
  let within := fun k => Z.abs (k - y) < 3 in
  (forall pre k row post,
     lineMap = pre ++ (k, row) :: post ->
     Forall (fun e => ~ within (fst e)) pre ->
     within k ->
     groupItem lineMap item = pre ++ (k, row ++ [item]) :: post) /\
  (Forall (fun e => ~ within (fst e)) lineMap ->
     groupItem lineMap item = lineMap ++ [(y, [item])]) /\
  (forall items,
     groupRows (items ++ [item]) = groupItem (groupRows items) item).
Proof.
  intros y within. repeat split.
  - intros pre k row post -> Hpre Hk.
    unfold groupItem. fold y. unfold keys. rewrite map_app. simpl.
    change (map fst pre) with (keys pre).
    rewrite find_none_pre.
    + simpl. replace (Z.abs (k - y) <? ROW_DELTA) with true.
      * apply push_past.
        eapply Forall_impl; [| exact Hpre].
        intros e He Heq. apply He. now rewrite Heq.
      * symmetry. apply Z.ltb_lt. exact Hk.
    + eapply Forall_impl; [| exact Hpre].
      intros e He. apply Z.ltb_ge. unfold within, ROW_DELTA in *. lia.
  - intros Hall. unfold groupItem. fold y.
    replace (find _ (keys lineMap)) with (@None Z); [reflexivity |].
    symmetry. unfold keys.
    induction Hall as [| e l He Hl IH]; simpl; [reflexivity |].
    replace (Z.abs (fst e - y) <? ROW_DELTA) with false; [exact IH |].
    symmetry. apply Z.ltb_ge. unfold within, ROW_DELTA in *. lia.
  - intros items. unfold groupRows. now rewrite fold_left_app.
Qed.

(** Rows at 100 and 97, and a fragment at 98: it joins the row at 100, the
    first one within reach, although the row at 97 is nearer. *)
Lemma first_match_row_assignment_witness :
  let a := {| str := js "a"; transform4 := 0; transform5 := 100 |} in
  let b := {| str := js "b"; transform4 := 0; transform5 := 97 |} in
  let c := {| str := js "c"; transform4 := 0; transform5 := 98 |} in
  Z.abs (100 - rowCoordinate c) < 3 /\
  Z.abs (97 - rowCoordinate c) < Z.abs (100 - rowCoordinate c) /\
  groupItem (groupRows [a; b]) c = [(100, [a; c]); (97, [b])].
Proof.
  intros a b c.
  assert (H : Z.abs (100 - rowCoordinate c) < 3) by (vm_compute; reflexivity).
  split; [exact H |].
  split; [vm_compute; reflexivity |].
  exact (proj1 (first_match_row_assignment (groupRows [a; b]) c)
               [] 100 [a] [(97, [b])] eq_refl (Forall_nil _) H).
Defined.

(** C5.  The fragment's own vertical coordinate is not what the code
    compares: it rounds the coordinate first.  A row at 100 and a
    fragment at 102.5 are 2.5 apart, less than the tolerance of 3, and
    by the specification the fragment joins the row; the code rounds
    102.5 to 103, finds the row 3 away and opens a second row, keyed
    103, so that the value and its unit come out on two lines. *)
Theorem fragment_within_tolerance_opens_row :
  let a := {| str := js "350"; transform4 := 10; transform5 := 100 |} in
  let b := {| str := js "Nm"; transform4 := 50; transform5 := 1025 # 10 |} in
  groupRows [a] = [(100, [a])] /\
  (Qabs.Qabs (inject_Z 100 - transform5 b) < inject_Z ROW_DELTA)%Q /\
  rowCoordinate b = 103 /\
  groupItem (groupRows [a]) b = [(100, [a]); (103, [b])] /\
  pageText [a; b] = js "Nm" ++ [newline] ++ js "350".
Proof.
  intros a b. repeat split.
Qed.

Lemma extractPagesFrom_lower (i n : Z) (pageItems : list (list TextItem)) :
  In n (map num (extractPagesFrom i pageItems)) -> i <= n.
Proof.
  revert i. induction pageItems as [| items rest IH]; simpl; intros i Hin.
  - contradiction.
  - destruct Hin as [<- | Hin]; [lia |]. apply IH in Hin. lia.
Qed.

(** The pages of one document carry pairwise distinct numbers. *)
Lemma extractPages_distinct (pageItems : list (list TextItem)) :
  NoDup (map num (extractPages pageItems)).
Proof.
  unfold extractPages. generalize 1.
  induction pageItems as [| items rest IH]; simpl; intros i.
  - constructor.
  - constructor; [| apply IH].
    intros Hin. apply extractPagesFrom_lower in Hin. lia.
Qed.

End LayoutFacts.

(** ** The retriever *)

Module RetrieverFacts.
Import Double DoubleFacts Retriever SortFacts JSFacts.

Lemma accumulate_dot (a b : list double) (d na nb : double) :
  List.length a = List.length b ->
  accumulate a b (d, na, nb) = (dotFrom d a b, dotFrom na a a, dotFrom nb b b).
Proof.
  revert b d na nb.
  induction a as [| x a IH]; intros [| y b] d na nb Hlen;
    simpl in Hlen; try discriminate.
  - reflexivity.
  - injection Hlen as Hlen. cbn [accumulate]. now rewrite IH.
Qed.

Lemma cosineSimilarity_mismatch (a b : list double) :
  List.length a <> List.length b -> cosineSimilarity a b = zero.
Proof.
  intros Hne. unfold cosineSimilarity.
  apply Nat.eqb_neq in Hne. now rewrite Hne.
Qed.

Lemma cosineSimilarity_empty (b : list double) : cosineSimilarity [] b = zero.
Proof.
  unfold cosineSimilarity. cbn [List.length]. now rewrite orb_true_r.
Qed.

Lemma cosineSimilarity_same_length (a b : list double) :
  List.length a = List.length b -> a <> [] ->
  cosineSimilarity a b
  = if isZero (mul (magnitude a) (magnitude b)) then zero
    else div (dot a b) (mul (magnitude a) (magnitude b)).
Proof.
  intros Hlen Hne. unfold cosineSimilarity.
  rewrite Hlen, Nat.eqb_refl.
  destruct b as [| y b]; [destruct a; [congruence | discriminate] |].
  cbn [List.length Nat.eqb negb orb].
  rewrite accumulate_dot by exact Hlen. reflexivity.
Qed.

(** The product of a zero and a finite number is a zero. *)
Lemma mul_zero_finite (x y : double) :
  isZero x = true -> isFinite y = true -> isZero (mul x y) = true.
Proof.
  destruct x as [sx | sx | | sx mx ex]; try discriminate;
    try (destruct sx; discriminate).
  intros _. destruct y as [sy | sy | | sy my ey]; try discriminate;
    intros _; cbn; now destruct (xorb sx sy).
Qed.

(** With one magnitude zero and the other one finite the product of the
    magnitudes is zero, and so is the similarity. *)
Lemma cosineSimilarity_zero_magnitude (a b : list double) :
  isZero (magnitude a) = true /\ isFinite (magnitude b) = true \/
  isFinite (magnitude a) = true /\ isZero (magnitude b) = true ->
  cosineSimilarity a b = zero.
Proof.
  intros Hzero.
  destruct (Nat.eq_dec (List.length a) (List.length b)) as [Hlen | Hlen];
    [| now apply cosineSimilarity_mismatch].
  destruct a as [| x a]; [apply cosineSimilarity_empty |].
  rewrite cosineSimilarity_same_length by (auto; discriminate).
  replace (isZero (mul (magnitude (x :: a)) (magnitude b))) with true;
    [reflexivity |].
  symmetry. destruct Hzero as [[Ha Hb] | [Ha Hb]].
  - now apply mul_zero_finite.
  - rewrite mul_comm. now apply mul_zero_finite.
Qed.

(** C8.  The guard [mag === 0] misses a case.  The vector (0) has
    magnitude zero, and by the specification its similarity with any
    vector is 0; with the vector (1e200) the square overflows, the
    magnitude is infinite, the product of the magnitudes is [NaN], which
    is not [=== 0], and the function returns [0 / NaN], that is [NaN].  The
    same happens in [retrieveRelevantChunks] for the query "?", whose
    embedding is the zero vector, and a chunk whose embedding holds
    1e200 throughout. *)
Theorem cosine_zero_magnitude_unguarded :
  let a := [zero] in
  let b := [ofQ (inject_Z (10 ^ 200))] in
  let c := {| id := js "p1-s0"; text := js "Wheel nut torque 204 Nm";
              section := None; page := 1;
              embedding := Some (repeat (ofQ (inject_Z (10 ^ 200))) 1536);
              isSpecPriority := Some true |} in
  isZero (magnitude a) = true /\
  magnitude b = S754_infinity false /\
  mul (magnitude a) (magnitude b) = S754_nan /\
  cosineSimilarity a b = S754_nan /\
  cosineSimilarity a b <> zero /\
  isZero (magnitude (Embedding.getEmbedding (js "?"))) = true /\
  map score (scored (Embedding.retrieveRelevantChunks (js "?") [c] None))
  = [S754_nan].
Proof.
  intros a b c.
  assert (H : cosineSimilarity a b = S754_nan) by (vm_compute; reflexivity).
  repeat split; try (vm_compute; reflexivity); try exact H.
  rewrite H. discriminate.
Qed.

(** *** The order of the scores *)

Lemma insertSorted_ext {A} (f g : A -> A -> bool) (x : A) (l : list A) :
  (forall y, In y l -> f x y = g x y) ->
  JSArray.insertSorted f x l = JSArray.insertSorted g x l.
Proof.
  induction l as [| y l IH]; intros H; cbn [JSArray.insertSorted];
    [reflexivity |].
  rewrite (H y) by now left.
  rewrite IH by (intros z Hz; apply H; now right). reflexivity.
Qed.

(** Two comparators that agree on the elements of an array sort it
    alike. *)
Lemma sort_ext {A} (f g : A -> A -> bool) (l : list A) :
  (forall a b, In a l -> In b l -> f a b = g a b) ->
  JSArray.sort f l = JSArray.sort g l.
Proof.
  induction l as [| x l IH]; intros H; cbn [JSArray.sort]; [reflexivity |].
  rewrite IH by (intros a b Ha Hb; apply H; now right).
  apply insertSorted_ext. intros y Hy. apply H; [now left | right].
  eapply Permutation_in; [apply sort_perm | exact Hy].
Qed.


Lemma cosineSimilarity_inRange (a b : list double) :
  inRange (cosineSimilarity a b) = true.
Proof.
  unfold cosineSimilarity.
  destruct (negb _ || _); [reflexivity |].
  destruct (accumulate a b (zero, zero, zero)) as [[d na] nb].
  destruct (isZero _); [reflexivity | apply div_inRange].
Qed.

Lemma scoreAll_inRange (q : list double) (chunks : list Chunk) (sc : ScoredChunk) :
  In sc (scoreAll q chunks) -> inRange (score sc) = true.
Proof.
  unfold scoreAll. intros Hin. apply in_map_iff in Hin as (c & <- & _).
  apply cosineSimilarity_inRange.
Qed.

Lemma scoreBefore_ulps (a b : ScoredChunk) :
  isFinite (score a) = true -> isFinite (score b) = true ->
  inRange (score a) = true -> inRange (score b) = true ->
  scoreBefore a b = ulpsBefore a b.
Proof.
  intros Fa Fb Ra Rb. unfold scoreBefore, compareScores, ulpsBefore.
  rewrite ltb_zero_sub by assumption.
  rewrite Z.leb_antisym. reflexivity.
Qed.

Section Finite.

Variable q : list double.
Variable chunks : list Chunk.
Hypothesis finite :
  Forall (fun sc => isFinite (score sc) = true) (scoreAll q chunks).

Lemma candidate_finite (sc : ScoredChunk) :
  In sc (scoreAll q chunks) -> isFinite (score sc) = true.
Proof. rewrite Forall_forall in finite. apply finite. Qed.

Lemma ranked_by_ulps :
  ranked q chunks = JSArray.sort ulpsBefore (scoreAll q chunks).
Proof.
  unfold ranked. apply sort_ext. intros a b Ha Hb.
  apply scoreBefore_ulps;
    auto using candidate_finite; eapply scoreAll_inRange; eassumption.
Qed.



Lemma ranked_stable (v : Q) :
  filter (scoreIs v) (ranked q chunks) = filter (scoreIs v) (scoreAll q chunks).
Proof.
  rewrite ranked_by_ulps.
  set (P := fun sc => scoreIs v sc && inRange (score sc)).
  assert (HP : forall l, (forall sc, In sc l -> In sc (scoreAll q chunks)) ->
                         filter (scoreIs v) l = filter P l).
  { intros l Hl. apply filter_ext_in. intros sc Hsc. unfold P.
    rewrite (scoreAll_inRange q chunks sc) by auto.
    now rewrite andb_true_r. }
  rewrite (HP (scoreAll q chunks)) by auto.
  rewrite HP.
  - apply sort_stable. intros a b Ha Hb. unfold P in Ha, Hb.
    apply andb_prop in Ha as [Ha Ra], Hb as [Hb Rb].
    unfold scoreIs in Ha, Hb. apply Qeq_bool_iff in Ha, Hb.
    unfold ulpsBefore. apply Z.leb_le.
    apply value_le; try assumption. rewrite Ha, Hb. apply Qle_refl.
  - intros sc. apply Permutation_in, sort_perm.
Qed.

End Finite.



End RetrieverFacts.

(** ** The hashing embedding *)

Module EmbeddingFacts.
Import Embedding.

Lemma bump_length (i : nat) (w : Z) (vector : list Z) :
  List.length (bump i w vector) = List.length vector.
Proof.
  revert i. induction vector as [| v rest IH]; intros [| i]; simpl; auto.
Qed.

Lemma bigrams_length (s : jstring) (vector : list Z) :
  List.length (bigrams s vector) = List.length vector.
Proof.
  revert vector. induction s as [| c1 s IH]; intros vector; simpl.
  - reflexivity.
  - destruct s as [| c2 s']; [reflexivity |].
    rewrite IH. apply bump_length.
Qed.

Lemma unigrams_length (ws : list jstring) (vector : list Z) :
  List.length (unigrams ws vector) = List.length vector.
Proof.
  unfold unigrams. revert vector.
  induction ws as [| w ws IH]; intros vector; simpl.
  - reflexivity.
  - rewrite IH. apply bump_length.
Qed.

Lemma buckets_length (s : jstring) : List.length (buckets s) = 1536%nat.
Proof.
  unfold buckets. rewrite unigrams_length, bigrams_length, repeat_length.
  reflexivity.
Qed.

Lemma normalize_app (text extra : jstring) :
  (2000 <= List.length text)%nat ->
  normalize (text ++ extra) = normalize text.
Proof.
  intros Hlen. unfold normalize, toLowerCase.
  rewrite map_app, firstn_app.
  replace (2000 - List.length (map lowerChar text))%nat with 0%nat
    by (rewrite length_map; lia).
  simpl. apply app_nil_r.
Qed.

(** C10.  [getEmbedding] looks at its text through
    [text.toLowerCase().slice(0, 2000)] only: two texts whose lowercased
    forms agree on their first 2000 characters get the same vector (the
    function is deterministic), the vector has 1536 components, and what
    a text holds behind its first 2000 characters changes nothing. *)
Theorem embedding_reads_prefix_only :
  (forall t1 t2,
     firstn 2000 (toLowerCase t1) = firstn 2000 (toLowerCase t2) ->
     getEmbedding t1 = getEmbedding t2) /\
  (forall t, List.length (getEmbedding t) = 1536%nat) /\
  (forall t extra,
     (2000 <= List.length t)%nat ->
     getEmbedding (t ++ extra) = getEmbedding t).
Proof.
  repeat split.
  - intros t1 t2 H. unfold getEmbedding, normalize. now rewrite H.
  - intros t. unfold getEmbedding, l2normalize.
    rewrite length_map. apply buckets_length.
  - intros t extra Hlen. unfold getEmbedding.
    now rewrite normalize_app.
Qed.

(** Two texts that differ in case only. *)
Lemma embedding_reads_prefix_only_witness :
  firstn 2000 (toLowerCase (js "Torque 204 Nm"))
  = firstn 2000 (toLowerCase (js "TORQUE 204 NM")) /\
  getEmbedding (js "Torque 204 Nm") = getEmbedding (js "TORQUE 204 NM").
Proof.
  assert (H : firstn 2000 (toLowerCase (js "Torque 204 Nm"))
              = firstn 2000 (toLowerCase (js "TORQUE 204 NM")))
    by reflexivity.
  split; [exact H |].
  exact (proj1 embedding_reads_prefix_only _ _ H).
Defined.

End EmbeddingFacts.

(** ** Strings *)

Module StringFacts.
Import JSON Extractor.

Lemma space_not_bracket (c : ascii) :
  is_space c = true -> c <> "["%char /\ c <> "]"%char /\ c <> "`"%char.
Proof.
  intros H. repeat split; intros ->; discriminate.
Qed.

Lemma trimStart_suffix (s : jstring) : exists ws, s = ws ++ trimStart s.
Proof.
  induction s as [| c s [ws IH]]; simpl.
  - now exists [].
  - destruct (is_space c).
    + exists (c :: ws). simpl. now rewrite <- IH.
    + now exists [].
Qed.

Lemma trimStart_head (s : jstring) (c : ascii) (t : jstring) :
  trimStart s = c :: t -> is_space c = false.
Proof.
  induction s as [| d s IH]; simpl; [discriminate |].
  destruct (is_space d) eqn:Hd; [exact IH |].
  intros [= <- _]. exact Hd.
Qed.

Lemma trimStart_fixed (c : ascii) (t : jstring) :
  is_space c = false -> trimStart (c :: t) = c :: t.
Proof. intros H. simpl. now rewrite H. Qed.

Lemma trimStart_spaces (ws s : jstring) :
  Forall (fun c => is_space c = true) ws -> trimStart (ws ++ s) = trimStart s.
Proof.
  induction 1 as [| c ws Hc Hws IH]; simpl; [reflexivity |].
  now rewrite Hc.
Qed.

Lemma trimStart_app (p : jstring) (c : ascii) (t : jstring) :
  is_space c = false -> trimStart (p ++ c :: t) = trimStart p ++ c :: t.
Proof.
  intros Hc. induction p as [| d p IH]; simpl.
  - now rewrite Hc.
  - destruct (is_space d); [exact IH | reflexivity].
Qed.

Lemma trimEnd_fixed (s : jstring) (c : ascii) :
  is_space c = false -> trimEnd (s ++ [c]) = s ++ [c].
Proof.
  intros Hc. unfold trimEnd. rewrite rev_app_distr. simpl.
  rewrite Hc. simpl. now rewrite rev_involutive.
Qed.

Lemma trimEnd_prefix (s : jstring) : exists ws, s = trimEnd s ++ ws.
Proof.
  unfold trimEnd. destruct (trimStart_suffix (rev s)) as [ws Hws].
  exists (rev ws). rewrite <- rev_app_distr, <- Hws. now rewrite rev_involutive.
Qed.

Lemma infix_refl (s : jstring) : infix s s.
Proof. exists [], []. simpl. now rewrite app_nil_r. Qed.

Lemma infix_trans (a b c : jstring) : infix a b -> infix b c -> infix a c.
Proof.
  intros (p1 & q1 & ->) (p2 & q2 & ->).
  exists (p2 ++ p1), (q1 ++ q2). now rewrite !app_assoc.
Qed.

Lemma infix_suffix (ws s : jstring) : infix s (ws ++ s).
Proof. exists ws, []. now rewrite app_nil_r. Qed.

Lemma infix_prefix (s ws : jstring) : infix s (s ++ ws).
Proof. now exists [], ws. Qed.

Lemma trimStart_infix (s : jstring) : infix (trimStart s) s.
Proof.
  destruct (trimStart_suffix s) as [ws H]. rewrite H at 2. apply infix_suffix.
Qed.

Lemma trimEnd_infix (s : jstring) : infix (trimEnd s) s.
Proof.
  destruct (trimEnd_prefix s) as [ws H]. rewrite H at 2. apply infix_prefix.
Qed.

Lemma trim_infix (s : jstring) : infix (trim s) s.
Proof.
  unfold trim. eapply infix_trans; [apply trimEnd_infix | apply trimStart_infix].
Qed.

Lemma skipn_infix (n : nat) (s : jstring) : infix (skipn n s) s.
Proof.
  rewrite <- (firstn_skipn n s) at 2. apply infix_suffix.
Qed.

Lemma startsWith_app (p x : jstring) : startsWith p (p ++ x) = true.
Proof.
  induction p as [| a p IH]; simpl; [reflexivity |].
  now rewrite Ascii.eqb_refl.
Qed.

(** A pattern without a bracket that matches at the head of [p ++ "[" ...]
    lies within [p]. *)
Lemma startsWith_before_bracket (pat p t : jstring) :
  Forall (fun c => c <> "["%char) pat ->
  startsWith pat (p ++ "["%char :: t) = true ->
  (List.length pat <= List.length p)%nat.
Proof.
  intros Hpat. revert p.
  induction Hpat as [| a pat Ha Hpat IH]; intros p H; simpl; [lia |].
  destruct p as [| b p]; simpl in H.
  - apply andb_true_iff in H as [H _].
    apply Ascii.eqb_eq in H. contradiction.
  - apply andb_true_iff in H as [_ H]. apply IH in H. simpl. lia.
Qed.

Lemma fromFirstOpen_skip (p : jstring) (t : jstring) :
  Forall (fun c => c <> "["%char) p ->
  fromFirstOpen (p ++ "["%char :: t) = Some ("["%char :: t).
Proof.
  induction 1 as [| c p Hc Hp IH]; simpl; [reflexivity |].
  destruct (Ascii.eqb_spec c "["); [contradiction | exact IH].
Qed.

Lemma fromFirstClose_skip (p : jstring) (t : jstring) :
  Forall (fun c => c <> "]"%char) p ->
  fromFirstClose (p ++ "]"%char :: t) = Some ("]"%char :: t).
Proof.
  induction 1 as [| c p Hc Hp IH]; simpl; [reflexivity |].
  destruct (Ascii.eqb_spec c "]"); [contradiction | exact IH].
Qed.

Lemma fromFirstOpen_spec (s t : jstring) :
  fromFirstOpen s = Some t ->
  exists p u, s = p ++ t /\ t = "["%char :: u.
Proof.
  induction s as [| c s IH]; simpl; [discriminate |].
  destruct (Ascii.eqb_spec c "[") as [-> | _].
  - intros [= <-]. now exists [], s.
  - intros H. destruct (IH H) as (p & u & -> & ->).
    now exists (c :: p), u.
Qed.

Lemma fromFirstClose_spec (s t : jstring) :
  fromFirstClose s = Some t ->
  exists p u, s = p ++ t /\ t = "]"%char :: u.
Proof.
  induction s as [| c s IH]; simpl; [discriminate |].
  destruct (Ascii.eqb_spec c "]") as [-> | _].
  - intros [= <-]. now exists [], s.
  - intros H. destruct (IH H) as (p & u & -> & ->). now exists (c :: p), u.
Qed.

(** The bracket block is a part of the text and starts with a bracket. *)
Lemma firstBracketBlock_spec (s b : jstring) :
  firstBracketBlock s = Some b ->
  infix b s /\ exists u, b = "["%char :: u.
Proof.
  unfold firstBracketBlock.
  destruct (fromFirstOpen s) as [t |] eqn:Ht; [| discriminate].
  destruct (fromFirstClose (rev t)) as [u |] eqn:Hu; [| discriminate].
  intros [= <-].
  apply fromFirstOpen_spec in Ht as (p & t' & -> & ->).
  apply fromFirstClose_spec in Hu as (q & w & Hq & ->).
  apply (f_equal (@rev ascii)) in Hq.
  rewrite rev_involutive, rev_app_distr in Hq.
  split.
  - exists p, (rev q). now rewrite <- Hq.
  - simpl in *. destruct (rev w) as [| x w'].
    + discriminate.
    + simpl in Hq. injection Hq as <- _. now exists (w' ++ ["]"%char]).
Qed.

(** A text [p ++ arr] whose [p] has no bracket and whose [arr] runs from a
    bracket to a bracket: the block is [arr]. *)
Lemma firstBracketBlock_found (p body t : jstring) :
  Forall (fun c => c <> "["%char) p ->
  Forall (fun c => c <> "]"%char) t ->
  firstBracketBlock (p ++ bracketed body ++ t) = Some (bracketed body).
Proof.
  intros Hp Ht. unfold firstBracketBlock, bracketed.
  simpl. rewrite fromFirstOpen_skip by exact Hp.
  replace (rev ("["%char :: (body ++ ["]"%char]) ++ t))
    with (rev t ++ "]"%char :: rev ("["%char :: body)).
  - rewrite fromFirstClose_skip.
    + f_equal. change ("]"%char :: rev ("["%char :: body))
        with (rev ["]"%char] ++ rev ("["%char :: body)).
      rewrite <- rev_app_distr, rev_involutive. reflexivity.
    + apply Forall_rev. exact Ht.
  - change ("["%char :: (body ++ ["]"%char]) ++ t)
      with ((("["%char :: body) ++ ["]"%char]) ++ t).
    rewrite !rev_app_distr. reflexivity.
Qed.

Lemma firstBracketBlock_last (p body : jstring) :
  noOpen p -> firstBracketBlock (p ++ bracketed body) = Some (bracketed body).
Proof.
  intros Hp. rewrite <- (app_nil_r (bracketed body)) at 1.
  apply firstBracketBlock_found; [exact Hp | constructor].
Qed.

End StringFacts.

(** ** [JSON.parse] *)

Module JSONFacts.
Import JSON.

Lemma skip_ws_suffix (s : jstring) :
  exists ws, s = ws ++ skip_ws s /\ Forall (fun c => is_ws c = true) ws.
Proof.
  induction s as [| c s (ws & IH & Hws)]; simpl.
  - exists []. auto.
  - destruct (is_ws c) eqn:Hc.
    + exists (c :: ws). simpl. rewrite <- IH. auto.
    + exists []. auto.
Qed.

Lemma skip_ws_nil (s : jstring) :
  skip_ws s = [] -> Forall (fun c => is_ws c = true) s.
Proof.
  intros H. destruct (skip_ws_suffix s) as (ws & Heq & Hws).
  rewrite H, app_nil_r in Heq. now subst.
Qed.

Lemma skip_ws_head (c : ascii) (t : jstring) :
  is_ws c = false -> skip_ws (c :: t) = c :: t.
Proof. intros H. simpl. now rewrite H. Qed.

Lemma consumes_after (P : ascii -> Prop) (c0 s r : jstring) :
  consumes P s r -> consumes P (c0 ++ s) r.
Proof.
  intros (c & x & -> & Hx). exists (c0 ++ c), x.
  now rewrite <- app_assoc.
Qed.

Lemma consumes_weaken (P Q : ascii -> Prop) (s r : jstring) :
  (forall x, P x -> Q x) -> consumes P s r -> consumes Q s r.
Proof. intros H (c & x & -> & Hx). exists c, x. auto. Qed.

Lemma consumes_nonempty (P : ascii -> Prop) (ds r : jstring) :
  ds <> [] -> Forall P ds -> consumes P (ds ++ r) r.
Proof.
  intros Hne Hall.
  destruct (exists_last Hne) as (c & x & ->).
  exists c, x. rewrite <- app_assoc. split; [reflexivity |].
  apply Forall_app in Hall as [_ Hx]. now inversion Hx.
Qed.

Lemma takeDigits_spec (s ds r : jstring) :
  takeDigits s = (ds, r) -> s = ds ++ r /\ Forall digit ds.
Proof.
  revert ds r. induction s as [| c s IH]; simpl; intros ds r H.
  - injection H as <- <-. auto.
  - destruct (is_digit c) eqn:Hc.
    + destruct (takeDigits s) as [ds' r'].
      injection H as <- <-.
      destruct (IH ds' r' eq_refl) as [-> Hds]. split; [reflexivity |].
      now constructor.
    + injection H as <- <-. auto.
Qed.

Lemma parse_int_spec (s ip r : jstring) :
  parse_int s = Some (ip, r) -> consumes digit s r.
Proof.
  destruct s as [| c s]; simpl; [discriminate |].
  destruct (Ascii.eqb_spec c "0") as [-> | _].
  - intros [= <- <-]. exists [], "0"%char. split; reflexivity.
  - destruct (is_digit c) eqn:Hc; [| discriminate].
    destruct (takeDigits s) as [ds r'] eqn:Hds.
    intros [= <- <-].
    apply takeDigits_spec in Hds as [-> Hds].
    apply (consumes_nonempty digit (c :: ds) r'); [discriminate |].
    now constructor.
Qed.

Lemma parse_frac_spec (s fp r : jstring) :
  parse_frac s = Some (fp, r) -> s = r \/ consumes digit s r.
Proof.
  unfold parse_frac. destruct s as [| c s].
  - intros [= _ <-]. now left.
  - destruct (ch c ".").
    + destruct (takeDigits s) as [ds r'] eqn:Hds.
      apply takeDigits_spec in Hds as [-> Hds].
      destruct ds as [| d ds]; [discriminate |].
      intros [= _ <-]. right.
      apply (consumes_after digit [c]).
      apply consumes_nonempty; [discriminate | exact Hds].
    + intros [= _ <-]. now left.
Qed.

Lemma parse_sign_spec (s : jstring) (neg : bool) (r : jstring) :
  parse_sign s = (neg, r) -> exists sg, s = sg ++ r.
Proof.
  unfold parse_sign. destruct s as [| d t].
  - intros [= _ <-]. now exists [].
  - destruct (ch d "-"); [intros [= _ <-]; now exists [d] |].
    destruct (ch d "+"); [intros [= _ <-]; now exists [d] |].
    intros [= _ <-]. now exists [].
Qed.

Lemma parse_exp_spec (s : jstring) (e : Z) (r : jstring) :
  parse_exp s = Some (e, r) -> s = r \/ consumes digit s r.
Proof.
  unfold parse_exp. destruct s as [| c s].
  - intros [= _ <-]. now left.
  - destruct (ch c "e" || ch c "E").
    + destruct (parse_sign s) as [neg s''] eqn:Hsign.
      apply parse_sign_spec in Hsign as [sg ->].
      destruct (takeDigits s'') as [ds r'] eqn:Hds.
      apply takeDigits_spec in Hds as [-> Hds].
      destruct ds as [| d ds]; [discriminate |].
      intros [= _ <-]. right.
      apply (consumes_after digit (c :: sg)).
      apply consumes_nonempty; [discriminate | exact Hds].
    + intros [= _ <-]. now left.
Qed.

Lemma consumes_then (P : ascii -> Prop) (s r1 r2 : jstring) :
  consumes P s r1 -> r1 = r2 \/ consumes P r1 r2 -> consumes P s r2.
Proof.
  intros H [<- | H2]; [exact H |].
  destruct H as (c & x & -> & _).
  now apply (consumes_after P (c ++ [x])) in H2; rewrite <- app_assoc in H2.
Qed.

Lemma parse_unsigned_spec (s : jstring) (q : Q) (r : jstring) :
  parse_unsigned s = Some (q, r) -> consumes digit s r.
Proof.
  unfold parse_unsigned.
  destruct (parse_int s) as [[ip r1] |] eqn:Hint; [| discriminate].
  destruct (parse_frac r1) as [[fp r2] |] eqn:Hfrac; [| discriminate].
  destruct (parse_exp r2) as [[e r3] |] eqn:Hexp; [| discriminate].
  intros [= _ <-].
  apply parse_int_spec in Hint. apply parse_frac_spec in Hfrac.
  apply parse_exp_spec in Hexp.
  eapply consumes_then; [| exact Hexp].
  eapply consumes_then; eassumption.
Qed.

Lemma parse_number_spec (s : jstring) (x : Double.double) (r : jstring) :
  parse_number s = Some (x, r) -> consumes digit s r.
Proof.
  destruct s as [| c s]; cbn [parse_number]; [discriminate |].
  destruct (ch c "-").
  - destruct (parse_unsigned s) as [[q' r'] |] eqn:H; [| discriminate].
    intros [= _ <-]. apply parse_unsigned_spec in H.
    now apply (consumes_after digit [c]).
  - destruct (parse_unsigned (c :: s)) as [[q' r'] |] eqn:H; [| discriminate].
    intros [= _ <-]. now apply parse_unsigned_spec in H.
Qed.

Lemma consChar_spec (P : ascii -> Prop) (pre : jstring) (c : codeUnit)
    (res : option (ustring * jstring)) (str : ustring) (r : jstring)
    (s' : jstring) :
  (forall str' r', res = Some (str', r') -> consumes P s' r') ->
  consChar c res = Some (str, r) -> consumes P (pre ++ s') r.
Proof.
  intros H. destruct res as [[str' r'] |]; simpl; [| discriminate].
  intros [= _ <-]. apply consumes_after. now apply (H str').
Qed.

Lemma parse_chars_spec (s : jstring) (str : ustring) (r : jstring) :
  parse_chars s = Some (str, r) -> consumes (fun x => x = quote) s r.
Proof.
  remember (List.length s) as n eqn:Hn.
  revert s Hn str r.
  induction n as [n IH] using lt_wf_ind. intros s Hn str r.
  destruct s as [| c s]; simpl; [discriminate |].
  destruct (Ascii.eqb_spec c quote) as [-> | _].
  { intros [= _ <-]. exists [], quote. auto. }
  destruct (Ascii.eqb c "\").
  - destruct s as [| e s]; [discriminate |].
    destruct (Ascii.eqb e "u").
    + destruct s as [| h1 [| h2 [| h3 [| h4 s]]]]; try discriminate.
      destruct (unicodeEscape h1 h2 h3 h4) as [u |]; [| discriminate].
      apply (consChar_spec _ [c; e; h1; h2; h3; h4]).
      intros str' r'. apply (IH (List.length s)); [subst n; simpl; lia | reflexivity].
    + destruct (simpleEscape e) as [x |]; [| discriminate].
      apply (consChar_spec _ [c; e]).
      intros str' r'. apply (IH (List.length s)); [subst n; simpl; lia | reflexivity].
  - destruct (nat_of_ascii c <? 32)%nat; [discriminate |].
    apply (consChar_spec _ [c]).
    intros str' r'. apply (IH (List.length s)); [subst n; simpl; lia | reflexivity].
Qed.

Lemma startsWith_split (p s : jstring) :
  startsWith p s = true -> s = p ++ skipn (List.length p) s.
Proof.
  revert s. induction p as [| a p IH]; intros s H; simpl; [reflexivity |].
  destruct s as [| b s]; simpl in H; [discriminate |].
  apply andb_true_iff in H as [Hab H].
  apply Ascii.eqb_eq in Hab. subst b. simpl. f_equal. now apply IH.
Qed.

Lemma parse_literal_spec (name : string) (v v' : json) (s r : jstring) :
  parse_literal name v s = Some (v', r) -> s = js name ++ r /\ v' = v.
Proof.
  unfold parse_literal.
  destruct (startsWith (js name) s) eqn:H; [| discriminate].
  intros [= <- <-]. split; [now apply startsWith_split | reflexivity].
Qed.

Lemma parse_spec (fuel : nat) :
  (forall s v r, parse_value fuel s = Some (v, r) ->
     consumes (closes s) s r /\
     (forall t, s = "["%char :: t -> exists l, v = JArray l)) /\
  (forall s vs r, parse_elements fuel s = Some (vs, r) ->
     consumes (fun x => x = "]"%char) s r) /\
  (forall s ms r, parse_members fuel s = Some (ms, r) ->
     consumes (fun x => x = "}"%char) s r).
Proof.
  induction fuel as [| fuel (IHv & IHe & IHm)].
  { repeat split; intros; discriminate. }
  split; [| split].
  - (* a value *)
    intros s v r. simpl.
    destruct s as [| c s]; [discriminate |].
    destruct (Ascii.eqb_spec c "[") as [-> | Hopen].
    { (* an array *)
      destruct (skip_ws_suffix s) as (ws & Hs & _).
      destruct (skip_ws s) as [| d r'] eqn:Hskip; [discriminate |].
      destruct (Ascii.eqb_spec d "]") as [-> | _].
      - intros [= <- <-]. split.
        + exists ("["%char :: ws), "]"%char. rewrite Hs.
          split; [reflexivity |]. intros _. eexists; reflexivity.
        + intros t _. eexists; reflexivity.
      - destruct (parse_elements fuel (d :: r')) as [[vs rest] |] eqn:He;
          [| discriminate].
        intros [= <- <-]. split.
        + apply IHe in He. rewrite Hs.
          apply (consumes_after _ ("["%char :: ws)) in He.
          eapply consumes_weaken; [| exact He].
          intros x _ _. eexists; reflexivity.
        + intros t _. eexists; reflexivity. }
    assert (Hnot : forall t, c :: s = "["%char :: t -> exists l, v = JArray l).
    { intros t [= Hc _]. contradiction. }
    destruct (Ascii.eqb_spec c "{") as [-> | _].
    { (* an object *)
      destruct (skip_ws_suffix s) as (ws & Hs & _).
      destruct (skip_ws s) as [| d r'] eqn:Hskip; [discriminate |].
      destruct (Ascii.eqb_spec d "}") as [-> | _].
      - intros [= <- <-]. split; [| exact Hnot].
        exists ("{"%char :: ws), "}"%char. rewrite Hs.
        split; [reflexivity | discriminate].
      - destruct (parse_members fuel (d :: r')) as [[ms rest] |] eqn:Hm;
          [| discriminate].
        intros [= <- <-]. split; [| exact Hnot].
        apply IHm in Hm. rewrite Hs.
        apply (consumes_after _ ("{"%char :: ws)) in Hm.
        eapply consumes_weaken; [| exact Hm].
        intros x -> [=]. }
    destruct (Ascii.eqb_spec c quote) as [-> | _].
    { (* a string *)
      destruct (parse_chars s) as [[str rest] |] eqn:Hc; [| discriminate].
      intros [= <- <-]. split; [| exact Hnot].
      apply parse_chars_spec in Hc.
      apply (consumes_after _ [quote]) in Hc.
      eapply consumes_weaken; [| exact Hc].
      intros x -> [=]. }
    assert (Hlit : forall name v0,
              parse_literal name v0 (c :: s) = Some (v, r) ->
              (exists c0, js name = c0 ++ ["e"%char] \/ js name = c0 ++ ["l"%char]) ->
              consumes (closes (c :: s)) (c :: s) r).
    { intros name v0 H (c0 & Hname).
      apply parse_literal_spec in H as [-> _].
      destruct Hname as [-> | ->]; rewrite <- app_assoc;
        eexists c0, _; (split; [reflexivity | intros [=]]). }
    destruct (Ascii.eqb c "t").
    { intros H. split; [| exact Hnot].
      apply (Hlit _ _ H). exists (js "tru"). now left. }
    destruct (Ascii.eqb c "f").
    { intros H. split; [| exact Hnot].
      apply (Hlit _ _ H). exists (js "fals"). now left. }
    destruct (Ascii.eqb c "n").
    { intros H. split; [| exact Hnot].
      apply (Hlit _ _ H). exists (js "nul"). now right. }
    (* a number *)
    destruct (parse_number (c :: s)) as [[q rest] |] eqn:Hn; [| discriminate].
    intros [= <- <-]. split; [| exact Hnot].
    apply parse_number_spec in Hn.
    eapply consumes_weaken; [| exact Hn].
    intros x Hx ->. discriminate.
  - (* the elements of an array *)
    intros s vs r. simpl.
    destruct (parse_value fuel s) as [[v r1] |] eqn:Hv; [| discriminate].
    apply IHv in Hv as [(c1 & x1 & -> & _) _].
    destruct (skip_ws_suffix r1) as (ws & Hr1 & _).
    destruct (skip_ws r1) as [| d r'] eqn:Hskip; [discriminate |].
    destruct (Ascii.eqb_spec d ",") as [-> | _].
    + destruct (skip_ws_suffix r') as (ws' & Hr' & _).
      destruct (parse_elements fuel (skip_ws r')) as [[vs' rest] |] eqn:He;
        [| discriminate].
      intros [= _ <-]. apply IHe in He.
      rewrite Hr1, Hr'.
      apply (consumes_after _ (c1 ++ x1 :: ws ++ ","%char :: ws')) in He.
      rewrite <- !app_assoc in He. simpl in He.
      rewrite <- !app_assoc in He. exact He.
    + destruct (Ascii.eqb_spec d "]") as [-> | _]; [| discriminate].
      intros [= _ <-]. rewrite Hr1.
      exists (c1 ++ x1 :: ws), "]"%char.
      rewrite <- app_assoc. auto.
  - (* the members of an object *)
    intros s ms r. simpl.
    destruct s as [| q s]; [discriminate |].
    destruct (Ascii.eqb q quote); [| discriminate].
    destruct (parse_chars s) as [[key r1] |] eqn:Hk; [| discriminate].
    apply parse_chars_spec in Hk as (c0 & x0 & -> & _).
    destruct (skip_ws_suffix r1) as (ws1 & Hr1 & _).
    destruct (skip_ws r1) as [| col r2] eqn:Hskip1; [discriminate |].
    destruct (Ascii.eqb col ":"); [| discriminate].
    destruct (skip_ws_suffix r2) as (ws2 & Hr2 & _).
    destruct (parse_value fuel (skip_ws r2)) as [[v r3] |] eqn:Hv;
      [| discriminate].
    apply IHv in Hv as [(c3 & x3 & Hv & _) _].
    destruct (skip_ws_suffix r3) as (ws3 & Hr3 & _).
    destruct (skip_ws r3) as [| d r4] eqn:Hskip3; [discriminate |].
    assert (Hs : q :: c0 ++ x0 :: r1
                 = (q :: c0 ++ x0 :: ws1 ++ col :: ws2 ++ c3 ++ x3 :: ws3)
                     ++ d :: r4).
    { rewrite Hr1, Hr2, Hv, Hr3. simpl.
      repeat (rewrite <- ?app_assoc; simpl). reflexivity. }
    rewrite Hs.
    destruct (Ascii.eqb_spec d ",") as [-> | _].
    + destruct (skip_ws_suffix r4) as (ws4 & Hr4 & _).
      destruct (parse_members fuel (skip_ws r4)) as [[ms' rest] |] eqn:Hm;
        [| discriminate].
      intros [= _ <-]. apply IHm in Hm.
      rewrite Hr4.
      apply (consumes_after _ (","%char :: ws4)) in Hm.
      apply consumes_after. exact Hm.
    + destruct (Ascii.eqb_spec d "}") as [-> | _]; [| discriminate].
      intros [= _ <-]. eexists _, "}"%char. split; reflexivity.
Qed.

(** *** The fuel is enough *)

Lemma skip_ws_length (s : jstring) :
  (List.length (skip_ws s) <= List.length s)%nat.
Proof.
  destruct (skip_ws_suffix s) as (ws & H & _).
  rewrite H at 2. rewrite length_app. lia.
Qed.

Lemma skip_ws_cons_length (s : jstring) (d : ascii) (r : jstring) :
  skip_ws s = d :: r -> (S (List.length r) <= List.length s)%nat.
Proof.
  intros H. pose proof (skip_ws_length s) as Hlen.
  rewrite H in Hlen. exact Hlen.
Qed.

Lemma consumes_length (P : ascii -> Prop) (s r : jstring) :
  consumes P s r -> (S (List.length r) <= List.length s)%nat.
Proof.
  intros (c & x & -> & _). rewrite length_app. simpl. lia.
Qed.

(** What some amount of fuel parses, every amount from twice the length
    of the text on parses alike. *)
Lemma fuel_enough (fuel : nat) :
  (forall s res, parse_value fuel s = Some res ->
     forall n, (2 * List.length s <= n)%nat -> parse_value n s = Some res) /\
  (forall s res, parse_elements fuel s = Some res ->
     forall n, (2 * List.length s + 1 <= n)%nat ->
     parse_elements n s = Some res) /\
  (forall s res, parse_members fuel s = Some res ->
     forall n, (2 * List.length s + 1 <= n)%nat ->
     parse_members n s = Some res).
Proof.
  induction fuel as [| fuel (IHv & IHe & IHm)].
  { repeat split; intros; discriminate. }
  split; [| split].
  - intros s res H n Hn.
    destruct s as [| c s]; [discriminate |].
    destruct n as [| n]; [simpl in Hn; lia |].
    simpl in H |- *.
    destruct (Ascii.eqb c "[").
    { destruct (skip_ws s) as [| d r'] eqn:Hskip; [discriminate |].
      apply skip_ws_cons_length in Hskip.
      destruct (Ascii.eqb d "]"); [exact H |].
      destruct (parse_elements fuel (d :: r')) as [[vs rest] |] eqn:He;
        [| discriminate].
      rewrite (IHe _ _ He n); [exact H |]. simpl in Hn |- *. lia. }
    destruct (Ascii.eqb c "{").
    { destruct (skip_ws s) as [| d r'] eqn:Hskip; [discriminate |].
      apply skip_ws_cons_length in Hskip.
      destruct (Ascii.eqb d "}"); [exact H |].
      destruct (parse_members fuel (d :: r')) as [[ms rest] |] eqn:Hm;
        [| discriminate].
      rewrite (IHm _ _ Hm n); [exact H |]. simpl in Hn |- *. lia. }
    exact H.
  - intros s res H n Hn.
    destruct n as [| n]; [lia |].
    simpl in H |- *.
    destruct (parse_value fuel s) as [[v r] |] eqn:Hv; [| discriminate].
    rewrite (IHv _ _ Hv n) by lia.
    apply parse_spec in Hv as [Hv _]. apply consumes_length in Hv.
    destruct (skip_ws r) as [| d r'] eqn:Hskip; [discriminate |].
    apply skip_ws_cons_length in Hskip.
    destruct (Ascii.eqb d ","); [| exact H].
    destruct (parse_elements fuel (skip_ws r')) as [[vs rest] |] eqn:He;
      [| discriminate].
    rewrite (IHe _ _ He n); [exact H |].
    pose proof (skip_ws_length r'). lia.
  - intros s res H n Hn.
    destruct n as [| n]; [lia |].
    simpl in H |- *.
    destruct s as [| q s]; [discriminate |].
    destruct (Ascii.eqb q quote); [| discriminate].
    destruct (parse_chars s) as [[key r1] |] eqn:Hk; [| discriminate].
    apply parse_chars_spec, consumes_length in Hk.
    destruct (skip_ws r1) as [| col r2] eqn:Hskip1; [discriminate |].
    apply skip_ws_cons_length in Hskip1.
    destruct (Ascii.eqb col ":"); [| discriminate].
    pose proof (skip_ws_length r2) as Hr2.
    destruct (parse_value fuel (skip_ws r2)) as [[v r3] |] eqn:Hv;
      [| discriminate].
    rewrite (IHv _ _ Hv n) by (simpl in Hn; lia).
    apply parse_spec in Hv as [Hv _]. apply consumes_length in Hv.
    destruct (skip_ws r3) as [| d r4] eqn:Hskip3; [discriminate |].
    apply skip_ws_cons_length in Hskip3.
    destruct (Ascii.eqb d ","); [| exact H].
    pose proof (skip_ws_length r4) as Hr4.
    destruct (parse_members fuel (skip_ws r4)) as [[ms rest] |] eqn:Hm;
      [| discriminate].
    rewrite (IHm _ _ Hm n); [exact H |]. simpl in Hn. lia.
Qed.

(** [JSON_parse] does not depend on its fuel: a text that parses with
    some fuel, up to whitespace at its end, parses. *)
Lemma JSON_parse_any_fuel (fuel : nat) (s : jstring) (v : json)
    (rest : jstring) :
  parse_value fuel (skip_ws s) = Some (v, rest) ->
  skip_ws rest = [] ->
  JSON_parse s = Returned v.
Proof.
  intros H Hrest. unfold JSON_parse.
  rewrite (proj1 (fuel_enough fuel) _ _ H).
  - now rewrite Hrest.
  - unfold fuelFor. pose proof (skip_ws_length s). lia.
Qed.

Lemma JSON_parse_cases (s : jstring) :
  (exists v, JSON_parse s = Returned v) \/ JSON_parse s = Thrown SyntaxError.
Proof.
  unfold JSON_parse.
  destruct (parse_value _ _) as [[v rest] |]; [| now right].
  destruct (skip_ws rest); [left; now exists v | now right].
Qed.

(** A text that starts with a bracket parses to an array or not at all. *)
Lemma JSON_parse_bracket (t : jstring) (v : json) :
  JSON_parse ("["%char :: t) = Returned v -> exists l, v = JArray l.
Proof.
  unfold JSON_parse. rewrite skip_ws_head by reflexivity.
  destruct (parse_value _ _) as [[v' rest] |] eqn:H; [| discriminate].
  destruct (skip_ws rest); [| discriminate].
  intros [= <-].
  apply parse_spec in H as [_ H]. now apply (H t).
Qed.

(** A text that parses and ends with a closing bracket starts, behind its
    whitespace, with an opening one. *)
Lemma JSON_parse_closing (s0 : jstring) (v : json) :
  JSON_parse (s0 ++ ["]"%char]) = Returned v ->
  exists t, skip_ws (s0 ++ ["]"%char]) = "["%char :: t.
Proof.
  unfold JSON_parse.
  destruct (parse_value _ _) as [[v' rest] |] eqn:H; [| discriminate].
  destruct (skip_ws rest) eqn:Hrest; [| discriminate].
  intros _.
  apply parse_spec in H as [(c & x & Hs & Hx) _].
  apply skip_ws_nil in Hrest.
  destruct (skip_ws_suffix (s0 ++ ["]"%char])) as (ws & Hws & _).
  rewrite Hs in Hws.
  assert (Hlast : x = "]"%char).
  { destruct rest as [| y0 rest0].
    - replace (ws ++ c ++ [x]) with ((ws ++ c) ++ [x]) in Hws
        by now rewrite <- app_assoc.
      now apply app_inj_tail in Hws as [_ <-].
    - exfalso.
      destruct (@exists_last _ (y0 :: rest0)) as (rest' & y & Hy);
        [discriminate |].
      rewrite Hy in Hws, Hrest.
      replace (ws ++ c ++ x :: rest' ++ [y])
        with ((ws ++ c ++ x :: rest') ++ [y]) in Hws
        by (rewrite <- !app_assoc; reflexivity).
      apply app_inj_tail in Hws as [_ <-].
      apply Forall_app in Hrest as [_ Hy'].
      inversion Hy' as [| ? ? Hbad _]. discriminate. }
  apply Hx. exact Hlast.
Qed.

End JSONFacts.

(** ** The extractor *)

Module ExtractorFacts.
Import JSON Extractor StringFacts JSONFacts.

Lemma isArray_result (parsed : json) :
  exists l, (if isArray parsed then parsed else JArray []) = JArray l.
Proof. destruct parsed; simpl; eexists; reflexivity. Qed.

Lemma groq_returns_array (content : option jstring) :
  exists l, Groq.parseResponse content = Returned (JArray l).
Proof.
  unfold Groq.parseResponse.
  destruct (JSON_parse (Groq.cleanOf (Groq.rawOf content))) as [parsed | e].
  - simpl. destruct (isArray_result parsed) as [l ->]. now exists l.
  - simpl.
    destruct (firstBracketBlock _) as [block |] eqn:Hb; [| now exists []].
    apply firstBracketBlock_spec in Hb as [_ [u ->]].
    destruct (JSON_parse ("["%char :: u)) as [v | e'] eqn:Hv; simpl.
    + apply JSON_parse_bracket in Hv as [l ->]. now exists l.
    + now exists [].
Qed.

Lemma openai_returns_array (content : option jstring) :
  exists l, OpenAI.parseResponse content = Returned (JArray l).
Proof.
  unfold OpenAI.parseResponse.
  destruct (JSON_parse _) as [parsed | e]; simpl.
  - destruct (isArray_result parsed) as [l ->]. now exists l.
  - now exists [].
Qed.

Lemma space_no_bracket (ws : jstring) :
  Forall space ws ->
  Forall (fun c => c <> "["%char) ws /\ Forall (fun c => c <> "]"%char) ws.
Proof.
  intros H. split; (eapply Forall_impl; [| exact H]); intros c Hc;
    now apply space_not_bracket in Hc.
Qed.

Lemma groq_parse_array (content : option jstring) (l : list json) :
  JSON_parse (Groq.cleanOf (Groq.rawOf content)) = Returned (JArray l) ->
  Groq.parseResponse content = Returned (JArray l).
Proof. unfold Groq.parseResponse. now intros ->. Qed.

Lemma openai_block (content block : jstring) (l : list json) :
  firstBracketBlock content = Some block ->
  JSON_parse block = Returned (JArray l) ->
  OpenAI.parseResponse (Some content) = Returned (JArray l).
Proof.
  intros Hb Hp. unfold OpenAI.parseResponse, OpenAI.jsonStrOf. simpl.
  now rewrite Hb, Hp.
Qed.

(** *** An array behind prose, in front of a closing fence *)

Lemma ws_is_space (c : ascii) : is_ws c = true -> is_space c = true.
Proof.
  unfold is_ws, ch. intros H.
  repeat (apply orb_true_iff in H as [H | H]);
    apply Ascii.eqb_eq in H; subst c; reflexivity.
Qed.

Lemma Forall_skipn {A} (P : A -> Prop) (n : nat) (l : list A) :
  Forall P l -> Forall P (skipn n l).
Proof.
  intros H. rewrite <- (firstn_skipn n l) in H.
  now apply Forall_app in H.
Qed.

Lemma Forall_trimStart (P : ascii -> Prop) (s : jstring) :
  Forall P s -> Forall P (trimStart s).
Proof.
  intros H. destruct (trimStart_suffix s) as [ws Hws].
  rewrite Hws in H. now apply Forall_app in H.
Qed.

Lemma skipn_within (n : nat) (p x : jstring) :
  (n <= List.length p)%nat -> skipn n (p ++ x) = skipn n p ++ x.
Proof.
  intros H. rewrite skipn_app.
  replace (n - List.length p)%nat with 0%nat by lia.
  reflexivity.
Qed.

Lemma bracketed_cons (body rest : jstring) :
  bracketed body ++ rest = "["%char :: (body ++ ["]"%char]) ++ rest.
Proof. reflexivity. Qed.

(** What the opening-fence pattern removes lies in front of the array. *)
Lemma stripOpeningFence_prose (p body rest : jstring) :
  noOpen p ->
  exists p2, Groq.stripOpeningFence (p ++ bracketed body ++ rest)
             = p2 ++ bracketed body ++ rest /\ noOpen p2.
Proof.
  intros Hp. unfold Groq.stripOpeningFence.
  destruct (startsWith Groq.fence (p ++ bracketed body ++ rest)) eqn:Hf;
    [| now exists p].
  rewrite bracketed_cons in *.
  apply startsWith_before_bracket in Hf;
    [| repeat constructor; discriminate].
  rewrite skipn_within by exact Hf.
  set (p1 := skipn 3 p).
  assert (Hp1 : noOpen p1) by now apply Forall_skipn.
  destruct (startsWith (js "json") (toLowerCase (p1 ++ _))) eqn:Hj.
  - unfold toLowerCase in Hj. rewrite map_app in Hj.
    apply startsWith_before_bracket in Hj;
      [| repeat constructor; discriminate].
    rewrite length_map in Hj.
    rewrite skipn_within by exact Hj.
    rewrite trimStart_app by reflexivity.
    eexists. split; [reflexivity |].
    now apply Forall_trimStart, Forall_skipn.
  - rewrite trimStart_app by reflexivity.
    eexists. split; [reflexivity |]. now apply Forall_trimStart.
Qed.

(** The end of an answer behind its array: nothing, or a closing fence
    behind whitespace. *)
Lemma stripClosingFence_none (p body : jstring) :
  Groq.stripClosingFence (p ++ bracketed body) = p ++ bracketed body.
Proof.
  unfold Groq.stripClosingFence, bracketed.
  replace (p ++ "["%char :: body ++ ["]"%char])
    with ((p ++ "["%char :: body) ++ ["]"%char])
    by (rewrite <- app_assoc; reflexivity).
  rewrite rev_app_distr. reflexivity.
Qed.

Lemma rev_bracketed (body : jstring) :
  rev (bracketed body) = "]"%char :: rev ("["%char :: body).
Proof.
  unfold bracketed.
  change ("["%char :: body ++ ["]"%char]) with (("["%char :: body) ++ ["]"%char]).
  now rewrite rev_app_distr.
Qed.

Lemma stripClosingFence_fence (p body ws : jstring) :
  Forall space ws ->
  Groq.stripClosingFence (p ++ bracketed body ++ ws ++ js "```")
  = p ++ bracketed body.
Proof.
  intros Hws. unfold Groq.stripClosingFence, Groq.fence.
  rewrite !rev_app_distr.
  change (rev (js "```")) with (js "```").
  rewrite <- !app_assoc, startsWith_app.
  change (skipn 3 (js "```" ++ ?x)) with x.
  rewrite trimStart_spaces by (apply Forall_rev; exact Hws).
  rewrite rev_bracketed.
  rewrite <- app_comm_cons, trimStart_fixed by reflexivity.
  rewrite app_comm_cons, <- rev_bracketed, <- rev_app_distr.
  apply rev_involutive.
Qed.

Lemma trimEnd_spaces (x ws : jstring) :
  Forall space ws -> trimEnd (x ++ ws) = trimEnd x.
Proof.
  intros Hws. unfold trimEnd. rewrite rev_app_distr.
  now rewrite trimStart_spaces by (apply Forall_rev; exact Hws).
Qed.

Lemma trim_prose (p body ws : jstring) :
  Forall space ws ->
  trim (p ++ bracketed body ++ ws) = trimStart p ++ bracketed body.
Proof.
  intros Hws. unfold trim.
  rewrite bracketed_cons, trimStart_app by reflexivity.
  rewrite <- bracketed_cons, app_assoc, trimEnd_spaces by exact Hws.
  unfold bracketed.
  replace (trimStart p ++ "["%char :: body ++ ["]"%char])
    with ((trimStart p ++ "["%char :: body) ++ ["]"%char])
    by (rewrite <- app_assoc; reflexivity).
  apply trimEnd_fixed. reflexivity.
Qed.

Lemma trim_prose_only (p body : jstring) :
  trim (p ++ bracketed body) = trimStart p ++ bracketed body.
Proof.
  rewrite <- (app_nil_r (bracketed body)) at 1.
  apply trim_prose. constructor.
Qed.

Lemma trim_prose_fence (p body ws ws' : jstring) :
  Forall space ws' ->
  trim (p ++ bracketed body ++ ws ++ js "```" ++ ws')
  = trimStart p ++ bracketed body ++ ws ++ js "```".
Proof.
  intros Hws'. unfold trim.
  rewrite bracketed_cons, trimStart_app by reflexivity.
  rewrite <- bracketed_cons.
  replace (trimStart p ++ bracketed body ++ ws ++ js "```" ++ ws')
    with ((trimStart p ++ bracketed body ++ ws ++ js "```") ++ ws')
    by (rewrite <- !app_assoc; reflexivity).
  rewrite trimEnd_spaces by exact Hws'.
  replace (trimStart p ++ bracketed body ++ ws ++ js "```")
    with ((trimStart p ++ bracketed body ++ ws ++ js "``") ++ ["`"%char])
    by (rewrite <- !app_assoc; reflexivity).
  apply trimEnd_fixed. reflexivity.
Qed.

Lemma rawOf_nonempty (p x : jstring) (c : ascii) (t : jstring) :
  x = c :: t ->
  match p ++ x with [] => js "[]" | a :: u => a :: u end = p ++ x.
Proof. intros ->. destruct p; reflexivity. Qed.

(** What is left of prose, an array and a closing fence after the
    cleaning: trimmed prose without a bracket, and the array. *)
Lemma groq_clean_prose (prose body tail : jstring) :
  noOpen prose -> closingTail tail ->
  exists p, Groq.cleanOf (Groq.rawOf (Some (prose ++ bracketed body ++ tail)))
            = p ++ bracketed body /\
            noOpen p /\
            (forall c t, p = c :: t -> is_space c = false).
Proof.
  intros Hp [Hws | (ws & ws' & -> & Hws & Hws')]; unfold Groq.rawOf.
  - rewrite trim_prose by exact Hws.
    rewrite (rawOf_nonempty (trimStart prose) (bracketed body) _ _ eq_refl).
    unfold Groq.cleanOf.
    destruct (stripOpeningFence_prose (trimStart prose) body [])
      as (p2 & Hstrip & Hp2); [now apply Forall_trimStart |].
    rewrite app_nil_r in Hstrip. rewrite Hstrip.
    rewrite stripClosingFence_none.
    rewrite trim_prose_only.
    exists (trimStart p2). split; [reflexivity |].
    split; [now apply Forall_trimStart |].
    intros c t. apply trimStart_head.
  - rewrite trim_prose_fence by exact Hws'.
    rewrite (rawOf_nonempty (trimStart prose)
               (bracketed body ++ ws ++ js "```") _ _ (bracketed_cons body _)).
    unfold Groq.cleanOf.
    destruct (stripOpeningFence_prose (trimStart prose) body (ws ++ js "```"))
      as (p2 & -> & Hp2); [now apply Forall_trimStart |].
    rewrite stripClosingFence_fence by exact Hws.
    rewrite trim_prose_only.
    exists (trimStart p2). split; [reflexivity |].
    split; [now apply Forall_trimStart |].
    intros c t. apply trimStart_head.
Qed.

(** Prose in front of an array is no JSON. *)
Lemma JSON_parse_prose (c : ascii) (t body : jstring) :
  is_space c = false -> c <> "["%char ->
  JSON_parse ((c :: t) ++ bracketed body) = Thrown SyntaxError.
Proof.
  intros Hc Hopen.
  destruct (JSON_parse_cases ((c :: t) ++ bracketed body)) as [[v Hv] | H];
    [| exact H].
  exfalso. unfold bracketed in Hv.
  replace ((c :: t) ++ "["%char :: body ++ ["]"%char])
    with ((c :: t ++ "["%char :: body) ++ ["]"%char]) in Hv
    by (simpl; rewrite <- app_assoc; reflexivity).
  apply JSON_parse_closing in Hv as [t' Hv].
  simpl in Hv.
  destruct (is_ws c) eqn:Hws.
  - apply ws_is_space in Hws. congruence.
  - injection Hv as Hv _. contradiction.
Qed.

Lemma groq_recovers (prose body tail : jstring) (l : list json) :
  noOpen prose -> closingTail tail ->
  JSON_parse (bracketed body) = Returned (JArray l) ->
  Groq.parseResponse (Some (prose ++ bracketed body ++ tail))
  = Returned (JArray l).
Proof.
  intros Hp Ht Hparse.
  destruct (groq_clean_prose prose body tail Hp Ht)
    as (p & Hclean & Hno & Hhead).
  destruct p as [| c t].
  - apply groq_parse_array. now rewrite Hclean.
  - unfold Groq.parseResponse. rewrite Hclean.
    rewrite JSON_parse_prose.
    + unfold try_catch.
      rewrite (firstBracketBlock_last (c :: t) body Hno).
      now rewrite Hparse.
    + now apply (Hhead c t).
    + now inversion Hno.
Qed.

Lemma closingTail_no_close (tail : jstring) :
  closingTail tail -> Forall (fun c => c <> "]"%char) tail.
Proof.
  intros [Hws | (ws & ws' & -> & Hws & Hws')];
    [now apply space_no_bracket |].
  apply Forall_app. split; [now apply space_no_bracket |].
  apply Forall_app. split; [repeat constructor; discriminate |].
  now apply space_no_bracket.
Qed.

Lemma openai_recovers (prose body tail : jstring) (l : list json) :
  noOpen prose -> closingTail tail ->
  JSON_parse (bracketed body) = Returned (JArray l) ->
  OpenAI.parseResponse (Some (prose ++ bracketed body ++ tail))
  = Returned (JArray l).
Proof.
  intros Hp Ht Hparse.
  apply openai_block with (block := bracketed body); [| exact Hparse].
  apply firstBracketBlock_found; [exact Hp | now apply closingTail_no_close].
Qed.

Lemma fenced_shape (lead info body ws trail : jstring) :
  Forall space lead -> noOpen info -> Forall space ws -> Forall space trail ->
  exists prose tail,
    lead ++ fenced info (bracketed body) ws ++ trail
    = prose ++ bracketed body ++ tail /\
    noOpen prose /\ closingTail tail.
Proof.
  intros Hlead Hinfo Hws Htrail.
  exists (lead ++ js "```" ++ info), (ws ++ js "```" ++ trail).
  split; [unfold fenced; now rewrite <- !app_assoc |].
  split.
  - apply Forall_app. split; [now apply space_no_bracket |].
    apply Forall_app. split; [repeat constructor; discriminate | exact Hinfo].
  - right. now exists ws, trail.
Qed.

(** *** No array at all *)

Lemma rev_infix (a s : jstring) : infix a (rev s) -> infix (rev a) s.
Proof.
  intros (pre & post & H).
  apply (f_equal (@rev ascii)) in H.
  rewrite rev_involutive, !rev_app_distr in H.
  exists (rev post), (rev pre). now rewrite <- app_assoc in H.
Qed.

Lemma stripOpeningFence_infix (s : jstring) :
  infix (Groq.stripOpeningFence s) s.
Proof.
  unfold Groq.stripOpeningFence.
  destruct (startsWith Groq.fence s); [| apply infix_refl].
  eapply infix_trans; [apply trimStart_infix |].
  destruct (startsWith _ _).
  - eapply infix_trans; apply skipn_infix.
  - apply skipn_infix.
Qed.

Lemma stripClosingFence_infix (s : jstring) :
  infix (Groq.stripClosingFence s) s.
Proof.
  unfold Groq.stripClosingFence.
  destruct (startsWith Groq.fence (rev s)); [| apply infix_refl].
  apply rev_infix.
  eapply infix_trans; [apply trimStart_infix | apply skipn_infix].
Qed.

Lemma cleanOf_infix (s : jstring) : infix (Groq.cleanOf s) s.
Proof.
  unfold Groq.cleanOf.
  eapply infix_trans; [apply trim_infix |].
  eapply infix_trans; [apply stripClosingFence_infix |].
  apply stripOpeningFence_infix.
Qed.

Lemma groq_no_array (content : jstring) :
  holdsNoArray content ->
  Groq.parseResponse (Some content) = Returned (JArray []).
Proof.
  intros Hno. unfold Groq.parseResponse.
  destruct (trim content) as [| c t] eqn:Htrim.
  { unfold Groq.rawOf. rewrite Htrim. reflexivity. }
  assert (Hraw : Groq.rawOf (Some content) = trim content).
  { unfold Groq.rawOf. now rewrite Htrim. }
  rewrite Hraw.
  assert (Hclean : infix (Groq.cleanOf (trim content)) content).
  { eapply infix_trans; [apply cleanOf_infix | apply trim_infix]. }
  destruct (JSON_parse (Groq.cleanOf (trim content))) as [parsed | e] eqn:Hp.
  - destruct parsed as [| | | | l |]; try reflexivity.
    exfalso. exact (Hno _ l Hclean Hp).
  - simpl.
    destruct (firstBracketBlock _) as [block |] eqn:Hb; [| reflexivity].
    apply firstBracketBlock_spec in Hb as [Hin [u ->]].
    destruct (JSON_parse ("["%char :: u)) as [v | e'] eqn:Hv; [| reflexivity].
    exfalso.
    destruct (JSON_parse_bracket u v Hv) as [l ->].
    apply (Hno ("["%char :: u) l); [| exact Hv].
    eapply infix_trans; eassumption.
Qed.

Lemma openai_no_array (content : jstring) :
  holdsNoArray content ->
  OpenAI.parseResponse (Some content) = Returned (JArray []).
Proof.
  intros Hno. unfold OpenAI.parseResponse. simpl OpenAI.textOf.
  set (jsonStr := OpenAI.jsonStrOf content).
  assert (Hin : infix jsonStr content).
  { unfold jsonStr, OpenAI.jsonStrOf.
    destruct (firstBracketBlock content) as [block |] eqn:Hb.
    - now apply firstBracketBlock_spec in Hb as [Hin _].
    - apply infix_refl. }
  destruct (JSON_parse jsonStr) as [parsed | e] eqn:Hp; [| reflexivity].
  destruct parsed as [| | | | l |]; try reflexivity.
  exfalso. exact (Hno _ l Hin Hp).
Qed.

(** *** Deciding [holdsNoArray] *)

Lemma In_prefixes (sub post : jstring) : In sub (prefixes (sub ++ post)).
Proof.
  unfold prefixes. apply in_map_iff. exists (List.length sub). split.
  - rewrite firstn_app, Nat.sub_diag, firstn_all. simpl. apply app_nil_r.
  - apply in_seq. rewrite length_app. lia.
Qed.

Lemma In_suffixes (pre s : jstring) : In s (suffixes (pre ++ s)).
Proof.
  unfold suffixes. apply in_map_iff. exists (List.length pre). split.
  - rewrite skipn_app, Nat.sub_diag, skipn_all. reflexivity.
  - apply in_seq. rewrite length_app. lia.
Qed.

Lemma infix_parts (sub s : jstring) : infix sub s -> In sub (parts s).
Proof.
  intros (pre & post & ->). unfold parts. apply in_flat_map.
  exists (sub ++ post). split; [apply In_suffixes | apply In_prefixes].
Qed.

Lemma noPartIsArray_sound (s : jstring) :
  noPartIsArray s = true -> holdsNoArray s.
Proof.
  unfold noPartIsArray. intros H sub l Hin Hparse.
  rewrite forallb_forall in H.
  specialize (H sub (infix_parts sub s Hin)).
  unfold parsesToArray in H. rewrite Hparse in H. discriminate.
Qed.

(** What [JSON.parse] makes of an escape beyond Latin-1 (an en dash), of
    a decimal that is no double (it rounds to 0.5) and of [-0]. *)
Lemma JSON_parse_examples :
  JSON_parse (bracketed (quoted "\u2013"))
  = Returned (JArray [JString [8211%N]]) /\
  JSON_parse (js "0.49999999999999999")
  = Returned (JNumber (Double.ofQ (1 # 2))) /\
  JSON_parse (js "-0") = Returned (JNumber (S754_zero true)).
Proof. repeat split; vm_compute; reflexivity. Qed.

(** *** The claims on [extractSpecs] *)

(** C6.  The step of [extractSpecs] behind the call never raises and
    always returns a list, in both services.  An answer that wraps a JSON
    array in a markdown code fence gives that array; so does an answer of
    prose, without an opening bracket of its own, in front of a JSON
    array; an answer no part of which is a JSON array gives the empty
    list. *)
Theorem response_parsing_resilient :
  (forall content,
     (exists l, Groq.parseResponse content = Returned (JArray l)) /\
     (exists l, OpenAI.parseResponse content = Returned (JArray l))) /\
  (forall lead info body ws trail l,
     Forall space lead -> noOpen info ->
     Forall space ws -> Forall space trail ->
     JSON_parse (bracketed body) = Returned (JArray l) ->
     let answer := Some (lead ++ fenced info (bracketed body) ws ++ trail) in
     Groq.parseResponse answer = Returned (JArray l) /\
     OpenAI.parseResponse answer = Returned (JArray l)) /\
  (forall prose body trail l,
     noOpen prose -> Forall space trail ->
     JSON_parse (bracketed body) = Returned (JArray l) ->
     let answer := Some (prose ++ bracketed body ++ trail) in
     Groq.parseResponse answer = Returned (JArray l) /\
     OpenAI.parseResponse answer = Returned (JArray l)) /\
  (forall content,
     holdsNoArray content ->
     Groq.parseResponse (Some content) = Returned (JArray []) /\
     OpenAI.parseResponse (Some content) = Returned (JArray [])).
Proof.
  split; [| split; [| split]].
  - intros content. split.
    + apply groq_returns_array.
    + apply openai_returns_array.
  - intros lead info body ws trail l Hlead Hinfo Hws Htrail Hparse answer.
    unfold answer.
    destruct (fenced_shape lead info body ws trail Hlead Hinfo Hws Htrail)
      as (prose & tail & -> & Hprose & Htail).
    split; [now apply groq_recovers | now apply openai_recovers].
  - intros prose body trail l Hprose Htrail Hparse answer. unfold answer.
    split; [apply groq_recovers | apply openai_recovers];
      try assumption; now left.
  - intros content Hno. split.
    + now apply groq_no_array.
    + now apply openai_no_array.
Qed.

(** A fenced array, an array behind a sentence, and a plain sentence. *)
Lemma response_parsing_resilient_witness :
  let l := [JNumber (Double.ofZ 1); JNumber (Double.ofZ 2)] in
  let nl := [newline] in
  (noOpen (js "json" ++ nl) /\ Forall space nl /\
   JSON_parse (bracketed (js "1,2")) = Returned (JArray l) /\
   Groq.parseResponse
     (Some ([] ++ fenced (js "json" ++ nl) (bracketed (js "1,2")) nl ++ nl))
   = Returned (JArray l)) /\
  (noOpen (js "Here are the specs: ") /\
   Groq.parseResponse
     (Some (js "Here are the specs: " ++ bracketed (js "1,2") ++ nl))
   = Returned (JArray l)) /\
  (holdsNoArray (js "No specs found.") /\
   Groq.parseResponse (Some (js "No specs found.")) = Returned (JArray [])).
Proof.
  intros l nl.
  assert (Hinfo : noOpen (js "json" ++ nl))
    by (repeat constructor; discriminate).
  assert (Hws : Forall space nl) by (repeat constructor).
  assert (Hparse : JSON_parse (bracketed (js "1,2")) = Returned (JArray l))
    by reflexivity.
  assert (Hprose : noOpen (js "Here are the specs: "))
    by (repeat constructor; discriminate).
  assert (Hnone : holdsNoArray (js "No specs found."))
    by (apply noPartIsArray_sound; vm_compute; reflexivity).
  destruct response_parsing_resilient as (_ & Hfence & Hpr & Hno).
  split; [| split].
  - split; [exact Hinfo |]. split; [exact Hws |]. split; [exact Hparse |].
    exact (proj1 (Hfence [] _ _ _ _ _ (Forall_nil _) Hinfo Hws Hws Hparse)).
  - split; [exact Hprose |].
    exact (proj1 (Hpr _ _ _ _ Hprose Hws Hparse)).
  - split; [exact Hnone |].
    exact (proj1 (Hno _ Hnone)).
Defined.

Section WithClient.

Variable create : jstring -> completion (option jstring).
Variables query context : jstring.

(** C2, as the code has it.  [extractSpecs] filters nothing: when the text
    it hands to [JSON.parse] is an array, it returns that array, every
    record of it in order, whatever the confidence of a record. *)
Theorem no_confidence_filter (content : option jstring) (l : list json) :
  create (userMessage query context) = Returned content ->
  (JSON_parse (Groq.cleanOf (Groq.rawOf content)) = Returned (JArray l) ->
   Groq.extractSpecs create query context = Returned (JArray l)) /\
  (JSON_parse (OpenAI.jsonStrOf (OpenAI.textOf content)) = Returned (JArray l) ->
   OpenAI.extractSpecs create query context = Returned (JArray l)).
Proof.
  intros Hcall. split; intros Hparse.
  - unfold Groq.extractSpecs. rewrite Hcall.
    rewrite (groq_parse_array content l Hparse). reflexivity.
  - unfold OpenAI.extractSpecs, OpenAI.parseResponse. rewrite Hcall.
    cbv zeta. rewrite Hparse. reflexivity.
Qed.

(** C7, as the code has it.  There are no error classes: when the call
    fails, [GroqService] throws a plain [Error] whose message tells the
    case: the invalid-key message when the failure's message holds "401"
    or "invalid_api_key", else the rate-limit message when it holds
    "429" or "rate_limit", else "LLM extraction failed: " and the
    failure's message.  When the call answers, neither service throws:
    a parse failure gives a list. *)
Theorem failure_taxonomy :
  (forall e,
     create (userMessage query context) = Thrown e ->
     Groq.extractSpecs create query context
     = Thrown
         {| name := js "Error";
            message :=
              Some (if authFailure (Groq.messageOr e)
                    then Groq.invalidKeyMessage
                    else if rateLimited (Groq.messageOr e)
                    then Groq.rateLimitMessage
                    else js "LLM extraction failed: " ++ Groq.messageOr e) |}) /\
  (forall content,
     create (userMessage query context) = Returned content ->
     (exists l, Groq.extractSpecs create query context = Returned (JArray l)) /\
     (exists l, OpenAI.extractSpecs create query context = Returned (JArray l))).
Proof.
  split.
  - intros e Hcall.
    unfold Groq.extractSpecs. rewrite Hcall. simpl.
    unfold Groq.handleFailure, authFailure, rateLimited.
    destruct (_ || _); [reflexivity |].
    destruct (_ || _); reflexivity.
  - intros content Hcall. split.
    + unfold Groq.extractSpecs. rewrite Hcall.
      destruct (groq_returns_array content) as [l ->]. now exists l.
    + unfold OpenAI.extractSpecs. rewrite Hcall.
      destruct (openai_returns_array content) as [l ->]. now exists l.
Qed.

End WithClient.

(** Against C2: a record of confidence 0.2 in the model's answer is
    returned by both services, so the floor does not hold. *)
Lemma confidence_floor_counterexample :
  let create := fun _ : jstring => Returned (Some lowConfidenceAnswer) in
  Groq.extractSpecs create (js "wheel nut torque") (js "PAGE: 1")
  = Returned (JArray [lowConfidenceRecord]) /\
  OpenAI.extractSpecs create (js "wheel nut torque") (js "PAGE: 1")
  = Returned (JArray [lowConfidenceRecord]) /\
  confidence lowConfidenceRecord = Some (Double.ofQ (2 # 10)) /\
  ~ confidenceFloor
      (Groq.extractSpecs create (js "wheel nut torque") (js "PAGE: 1")) /\
  ~ confidenceFloor
      (OpenAI.extractSpecs create (js "wheel nut torque") (js "PAGE: 1")).
Proof.
  intros create.
  assert (Hg : Groq.extractSpecs create (js "wheel nut torque") (js "PAGE: 1")
               = Returned (JArray [lowConfidenceRecord])) by reflexivity.
  assert (Ho : OpenAI.extractSpecs create (js "wheel nut torque") (js "PAGE: 1")
               = Returned (JArray [lowConfidenceRecord])) by reflexivity.
  assert (Hc : confidence lowConfidenceRecord = Some (Double.ofQ (2 # 10)))
    by reflexivity.
  assert (Hlow : Double.leb (Double.ofQ (1 # 2)) (Double.ofQ (2 # 10)) <> true)
    by (vm_compute; discriminate).
  repeat split; try assumption.
  - intros Hfloor. specialize (Hfloor _ Hg).
    inversion Hfloor as [| ? ? Hr _]. exact (Hlow (Hr _ Hc)).
  - intros Hfloor. specialize (Hfloor _ Ho).
    inversion Hfloor as [| ? ? Hr _]. exact (Hlow (Hr _ Hc)).
Qed.

Lemma no_confidence_filter_witness :
  let create := fun _ : jstring => Returned (Some lowConfidenceAnswer) in
  create (userMessage (js "q") (js "c")) = Returned (Some lowConfidenceAnswer) /\
  JSON_parse (Groq.cleanOf (Groq.rawOf (Some lowConfidenceAnswer)))
  = Returned (JArray [lowConfidenceRecord]) /\
  Groq.extractSpecs create (js "q") (js "c")
  = Returned (JArray [lowConfidenceRecord]).
Proof.
  intros create.
  assert (Hp : JSON_parse (Groq.cleanOf (Groq.rawOf (Some lowConfidenceAnswer)))
               = Returned (JArray [lowConfidenceRecord])) by reflexivity.
  split; [reflexivity |]. split; [exact Hp |].
  exact (proj1 (no_confidence_filter create (js "q") (js "c")
                  (Some lowConfidenceAnswer) [lowConfidenceRecord] eq_refl) Hp).
Defined.

(** Against C7: a failure of the call with the message "401 Unauthorized"
    is an authentication failure, and what [GroqService] throws for it is
    an [Error] like any other, told apart by its message alone; no
    [InvalidCredentialsError] is raised. *)
Lemma untyped_failure_counterexample :
  let unauthorized := {| name := js "AuthenticationError";
                         message := Some (js "401 Unauthorized") |} in
  let create := fun _ : jstring => @Thrown (option jstring) unauthorized in
  authFailure (js "401 Unauthorized") = true /\
  taxonomyClass (js "401 Unauthorized") = js "InvalidCredentialsError" /\
  Groq.extractSpecs create (js "q") (js "c")
  = Thrown {| name := js "Error"; message := Some Groq.invalidKeyMessage |} /\
  ~ raisesTypedErrors Groq.extractSpecs.
Proof.
  intros unauthorized create.
  split; [reflexivity |]. split; [reflexivity |]. split; [reflexivity |].
  intros Htyped.
  destruct (Htyped create (js "q") (js "c") unauthorized eq_refl)
    as (e' & Hthrown & Hname).
  injection Hthrown as <-. discriminate Hname.
Qed.

(** The sibling paths tell an authentication failure apart:
    [GroqService.extractSpecs] does, and [OpenAIService.extractSpecs],
    whose handler has a single [throw], does not. *)
Lemma groq_tells_auth_failure_apart : tellsAuthFailureApart Groq.extractSpecs.
Proof.
  intros create query context e Hcall Hauth.
  unfold Groq.extractSpecs. rewrite Hcall.
  unfold try_catch, Groq.handleFailure.
  unfold authFailure in Hauth. cbv zeta. rewrite Hauth.
  unfold throwError. intros [= H].
Qed.

Lemma openai_wraps_auth_failure :
  let unauthorized := {| name := js "AuthenticationError";
                         message := Some (js "401 Unauthorized") |} in
  let create := fun _ : jstring => @Thrown (option jstring) unauthorized in
  OpenAI.extractSpecs create (js "q") (js "c")
  = throwError (js "LLM extraction failed: 401 Unauthorized") /\
  ~ tellsAuthFailureApart OpenAI.extractSpecs.
Proof.
  intros unauthorized create.
  split; [reflexivity |].
  intros Hapart.
  exact (Hapart create (js "q") (js "c") unauthorized
           eq_refl eq_refl eq_refl).
Qed.

Lemma failure_taxonomy_witness :
  let limited := {| name := js "RateLimitError";
                    message := Some (js "429 Too Many Requests") |} in
  let create := fun _ : jstring => @Thrown (option jstring) limited in
  create (userMessage (js "q") (js "c")) = Thrown limited /\
  Groq.extractSpecs create (js "q") (js "c")
  = Thrown {| name := js "Error"; message := Some Groq.rateLimitMessage |}.
Proof.
  intros limited create. split; [reflexivity |].
  exact (proj1 (failure_taxonomy create (js "q") (js "c")) limited eq_refl).
Defined.

End ExtractorFacts.

(** * More properties *)

(** ** Row grouping and the page loop *)

Module DocumentFacts.
Import Layout Document LayoutFacts Extractor StringFacts.

Lemma keys_push (lineMap : LineMap) (k : Z) (item : TextItem) :
  keys (push lineMap k item) = keys lineMap.
Proof.
  unfold keys. induction lineMap as [| [k' row] rest IH]; simpl.
  - reflexivity.
  - destruct (k' =? k); simpl; [reflexivity | now rewrite IH].
Qed.

Lemma In_push (lineMap : LineMap) (k : Z) (item : TextItem)
    (entry : Z * list TextItem) :
  In entry (push lineMap k item) ->
  In entry lineMap \/
  exists row, In (k, row) lineMap /\ entry = (k, row ++ [item]).
Proof.
  induction lineMap as [| [k' row] rest IH]; simpl; [tauto |].
  destruct (Z.eqb_spec k' k) as [-> | Hne]; simpl.
  - intros [<- | Hin]; [right; exists row; auto | left; auto].
  - intros [<- | Hin]; [left; auto |].
    destruct (IH Hin) as [H | (row' & H & ->)]; [left; auto |].
    right. exists row'. auto.
Qed.

Lemma rowsApart_snoc (lineMap : LineMap) (y : Z) (row : list TextItem) :
  rowsApart lineMap ->
  Forall (fun k => ROW_DELTA <= Z.abs (k - y)) (keys lineMap) ->
  rowsApart (lineMap ++ [(y, row)]).
Proof.
  unfold rowsApart, keys. rewrite map_app. simpl.
  generalize (map fst lineMap). intros ks Hks Hy.
  induction Hks as [| k ks Hk Hks IH]; simpl.
  - repeat constructor.
  - inversion Hy as [| ? ? Hky Hy']; subst.
    constructor; [| now apply IH].
    apply Forall_app. split; [exact Hk | repeat constructor; exact Hky].
Qed.

Lemma find_none_all (f : Z -> bool) (ks : list Z) :
  find f ks = None -> Forall (fun k => f k = false) ks.
Proof.
  induction ks as [| k ks IH]; simpl; [constructor |].
  destruct (f k) eqn:Hk; [discriminate |]. intros H. constructor; auto.
Qed.

Lemma groupItem_invariant (lineMap : LineMap) (item : TextItem) :
  rowsApart lineMap -> Forall rowWellFormed lineMap ->
  rowsApart (groupItem lineMap item) /\
  Forall rowWellFormed (groupItem lineMap item).
Proof.
  intros Hapart Hwf. unfold groupItem.
  destruct (find _ (keys lineMap)) as [k |] eqn:Hfind.
  - apply find_some in Hfind as [Hin Hk]. apply Z.ltb_lt in Hk.
    split.
    + unfold rowsApart. now rewrite keys_push.
    + apply Forall_forall. intros entry Hentry.
      rewrite Forall_forall in Hwf.
      apply In_push in Hentry as [Hold | (row & Hrow & ->)];
        [now apply Hwf |].
      destruct (Hwf _ Hrow) as [(first & rest & -> & Hfirst) Hall].
      split.
      * exists first, (rest ++ [item]). auto.
      * apply Forall_app. split; [exact Hall |].
        repeat constructor. exact Hk.
  - apply find_none_all in Hfind. split.
    + apply rowsApart_snoc; [exact Hapart |].
      eapply Forall_impl; [| exact Hfind].
      intros k Hk. apply Z.ltb_ge in Hk. exact Hk.
    + apply Forall_app. split; [exact Hwf |].
      repeat constructor.
      * now exists item, [].
      * rewrite Z.sub_diag. reflexivity.
Qed.

Lemma groupRows_invariant (items : list TextItem) :
  rowsApart (groupRows items) /\ Forall rowWellFormed (groupRows items).
Proof.
  unfold groupRows.
  assert (H : forall lineMap,
             rowsApart lineMap -> Forall rowWellFormed lineMap ->
             rowsApart (fold_left groupItem items lineMap) /\
             Forall rowWellFormed (fold_left groupItem items lineMap)).
  { induction items as [| item items IH]; simpl; intros lineMap Ha Hw.
    - auto.
    - destruct (groupItem_invariant lineMap item Ha Hw) as [Ha' Hw'].
      now apply IH. }
  apply H; constructor.
Qed.

Lemma rowsApart_spec (lineMap : LineMap) :
  rowsApart lineMap ->
  NoDup (keys lineMap) /\
  forall k1 k2, In k1 (keys lineMap) -> In k2 (keys lineMap) ->
                k1 <> k2 -> 3 <= Z.abs (k1 - k2).
Proof.
  unfold rowsApart. generalize (keys lineMap). intros ks H.
  induction H as [| k ks Hk Hks [IHnd IH]].
  - split; [constructor | contradiction].
  - rewrite Forall_forall in Hk. split.
    + constructor; [| exact IHnd].
      intros Hin. specialize (Hk _ Hin).
      rewrite Z.sub_diag in Hk. unfold ROW_DELTA in Hk. simpl in Hk. lia.
    + intros k1 k2 [<- | H1] [<- | H2] Hne.
      * contradiction.
      * now apply Hk.
      * specialize (Hk _ H1). unfold ROW_DELTA in Hk. lia.
      * now apply IH.
Qed.

(** X1.  Whatever the fragments of a page and their order, the rows that
    grouping builds have pairwise distinct coordinates, at least 3 apart;
    no row is empty; a row is keyed by the rounded coordinate of the
    fragment that opened it; and every fragment of a row is less than 3
    from the row's coordinate. *)
Theorem rows_apart_and_well_formed (items : list TextItem) :
  let lineMap := groupRows items in
  NoDup (keys lineMap) /\
  (forall k1 k2, In k1 (keys lineMap) -> In k2 (keys lineMap) ->
                 k1 <> k2 -> 3 <= Z.abs (k1 - k2)) /\
  (forall k row, In (k, row) lineMap ->
     (exists first rest, row = first :: rest /\ rowCoordinate first = k) /\
     Forall (fun item => Z.abs (k - rowCoordinate item) < 3) row).
Proof.
  intros lineMap.
  destruct (groupRows_invariant items) as [Hapart Hwf].
  destruct (rowsApart_spec _ Hapart) as [Hnd Hfar].
  split; [exact Hnd |]. split; [exact Hfar |].
  intros k row Hin. rewrite Forall_forall in Hwf.
  exact (Hwf _ Hin).
Qed.

Lemma rows_apart_and_well_formed_witness :
  let a := {| str := js "a"; transform4 := 0; transform5 := 100 |} in
  let b := {| str := js "b"; transform4 := 0; transform5 := 97 |} in
  let c := {| str := js "c"; transform4 := 0; transform5 := 98 |} in
  In 100 (keys (groupRows [a; b; c])) /\ In 97 (keys (groupRows [a; b; c])) /\
  100 <> 97 /\ 3 <= Z.abs (100 - 97).
Proof.
  intros a b c.
  assert (H1 : In 100 (keys (groupRows [a; b; c]))) by (vm_compute; auto).
  assert (H2 : In 97 (keys (groupRows [a; b; c]))) by (vm_compute; auto).
  assert (H3 : 100 <> 97) by discriminate.
  repeat split; try assumption.
  exact (proj1 (proj2 (rows_apart_and_well_formed [a; b; c])) 100 97 H1 H2 H3).
Defined.

Lemma push_concat (lineMap : LineMap) (k : Z) (item : TextItem) :
  In k (keys lineMap) ->
  Permutation (List.concat (map snd (push lineMap k item)))
              (item :: List.concat (map snd lineMap)).
Proof.
  induction lineMap as [| [k' row] rest IH]; simpl; [contradiction |].
  destruct (Z.eqb_spec k' k) as [-> | Hne]; simpl.
  - intros _. rewrite <- app_assoc. simpl.
    apply Permutation_sym, Permutation_middle.
  - intros [Heq | Hin]; [contradiction |].
    eapply Permutation_trans; [apply Permutation_app_head, IH, Hin |].
    apply Permutation_sym, Permutation_middle.
Qed.

Lemma groupItem_concat (lineMap : LineMap) (item : TextItem) :
  Permutation (List.concat (map snd (groupItem lineMap item)))
              (List.concat (map snd lineMap) ++ [item]).
Proof.
  unfold groupItem.
  destruct (find _ (keys lineMap)) as [k |] eqn:Hfind.
  - apply find_some in Hfind as [Hin _].
    eapply Permutation_trans; [now apply push_concat |].
    apply Permutation_cons_append.
  - rewrite map_app, concat_app. simpl. apply Permutation_refl.
Qed.

Lemma rows_hold_every_fragment_lemma (items : list TextItem) :
  Permutation (List.concat (map snd (groupRows items))) items.
Proof.
  unfold groupRows.
  assert (H : forall lineMap,
             Permutation (List.concat (map snd (fold_left groupItem items lineMap)))
                         (List.concat (map snd lineMap) ++ items)).
  { induction items as [| item items IH]; simpl; intros lineMap.
    - now rewrite app_nil_r.
    - eapply Permutation_trans; [apply IH |].
      eapply Permutation_trans;
        [apply Permutation_app_tail, groupItem_concat |].
      now rewrite <- app_assoc. }
  apply (H []).
Qed.

(** X2.  Grouping loses no fragment and makes none up: the rows of a page,
    put together, are exactly the fragments of the page, each as often as
    it came; and two pages with the same fragments in another order have
    rows with the same fragments. *)
Theorem rows_hold_every_fragment (items : list TextItem) :
  Permutation (List.concat (map snd (groupRows items))) items /\
  forall items', Permutation items items' ->
    Permutation (List.concat (map snd (groupRows items)))
                (List.concat (map snd (groupRows items'))).
Proof.
  split; [apply rows_hold_every_fragment_lemma |].
  intros items' Hperm.
  eapply Permutation_trans; [apply rows_hold_every_fragment_lemma |].
  eapply Permutation_trans; [exact Hperm |].
  apply Permutation_sym, rows_hold_every_fragment_lemma.
Qed.

Lemma rows_hold_every_fragment_witness :
  let a := {| str := js "a"; transform4 := 0; transform5 := 100 |} in
  let b := {| str := js "b"; transform4 := 0; transform5 := 97 |} in
  Permutation [a; b] [b; a] /\
  Permutation (List.concat (map snd (groupRows [a; b])))
              (List.concat (map snd (groupRows [b; a]))).
Proof.
  intros a b.
  assert (H : Permutation [a; b] [b; a]) by apply perm_swap.
  split; [exact H |].
  exact (proj2 (rows_hold_every_fragment [a; b]) [b; a] H).
Defined.

Lemma join_infix (sep p : jstring) (parts : list jstring) :
  In p parts -> infix p (join sep parts).
Proof.
  induction parts as [| q rest IH]; [contradiction |].
  intros [-> | Hin].
  - destruct rest; [apply infix_refl | apply infix_prefix].
  - destruct rest as [| r rest']; [contradiction |].
    change (join sep (q :: r :: rest'))
      with (q ++ sep ++ join sep (r :: rest')).
    eapply infix_trans; [apply IH, Hin |].
    rewrite app_assoc. apply infix_suffix.
Qed.

Lemma infix_In (sub s : jstring) (c : ascii) :
  infix sub s -> In c sub -> In c s.
Proof.
  intros (pre & post & ->) Hin.
  apply in_or_app. right. apply in_or_app. now left.
Qed.

Lemma trimStart_split (s : jstring) :
  exists ws, s = ws ++ trimStart s /\ Forall space ws.
Proof.
  induction s as [| c s (ws & IH & Hws)]; simpl.
  - exists []. auto.
  - destruct (is_space c) eqn:Hc.
    + exists (c :: ws). simpl. rewrite <- IH. split; [reflexivity |].
      now constructor.
    + exists []. auto.
Qed.

Lemma trimStart_nil (s : jstring) : trimStart s = [] -> Forall space s.
Proof.
  intros H. destruct (trimStart_split s) as (ws & Heq & Hws).
  rewrite H, app_nil_r in Heq. now subst.
Qed.

Lemma trim_nil (s : jstring) : trim s = [] -> Forall space s.
Proof.
  unfold trim, trimEnd. intros H.
  apply (f_equal (@rev ascii)) in H. rewrite rev_involutive in H. simpl in H.
  apply trimStart_nil, Forall_rev in H. rewrite rev_involutive in H.
  destruct (trimStart_split s) as (ws & Heq & Hws).
  rewrite Heq. apply Forall_app. auto.
Qed.

Lemma trim_has_nonspace (s : jstring) :
  trim s <> [] -> exists c, In c (trim s) /\ is_space c = false.
Proof.
  unfold trim, trimEnd. intros H.
  destruct (trimStart (rev (trimStart s))) as [| c t] eqn:Ht;
    [now contradiction H |].
  exists c. split.
  - apply in_rev. rewrite rev_involutive. now left.
  - exact (trimStart_head _ _ _ Ht).
Qed.

Lemma get_NoDup (lineMap : LineMap) (k : Z) (row : list TextItem) :
  NoDup (keys lineMap) -> In (k, row) lineMap -> rowOf lineMap k = row.
Proof.
  unfold rowOf, keys.
  induction lineMap as [| [k' row'] rest IH]; simpl; [contradiction |].
  intros Hnd Hin. inversion Hnd as [| ? ? Hk Hrest]; subst.
  destruct Hin as [[= -> ->] | Hin].
  - now rewrite Z.eqb_refl.
  - destruct (Z.eqb_spec k' k) as [-> | _]; [| now apply IH].
    exfalso. apply Hk. apply in_map_iff. now exists (k, row).
Qed.

(** X3.  Reconstruction drops no text: the trimmed text of every fragment
    of a page, unless it is empty, occurs in the page text. *)
Theorem page_text_keeps_every_fragment (items : list TextItem)
    (item : TextItem) :
  In item items -> trim (str item) <> [] ->
  infix (trim (str item)) (pageText items).
Proof.
  intros Hitem Htext. unfold pageText.
  set (lineMap := groupRows items).
  assert (Hrow : exists k row, In (k, row) lineMap /\ In item row).
  { assert (Hin : In item (List.concat (map snd lineMap))).
    { eapply Permutation_in; [| exact Hitem].
      apply Permutation_sym, rows_hold_every_fragment_lemma. }
    apply in_concat in Hin as (row & Hrow & Hin).
    apply in_map_iff in Hrow as ([k row'] & <- & Hrow).
    now exists k, row'. }
  destruct Hrow as (k & row & Hrow & Hin).
  destruct (rowsApart_spec _ (proj1 (groupRows_invariant items))) as [Hnd _].
  fold lineMap in Hnd.
  assert (Hline : infix (trim (str item)) (rowText row)).
  { unfold rowText. apply join_infix. apply filter_In. split.
    - apply in_map_iff. exists item. split; [reflexivity |].
      eapply Permutation_in; [| exact Hin].
      apply Permutation_sym, SortFacts.sort_perm.
    - destruct (trim (str item)); [now contradiction Htext | reflexivity]. }
  eapply infix_trans; [exact Hline |].
  unfold pageTextOf. apply join_infix. apply filter_In. split.
  - apply in_map_iff. exists k. split.
    + now rewrite (get_NoDup lineMap k row Hnd Hrow).
    + eapply Permutation_in; [apply Permutation_sym, SortFacts.sort_perm |].
      apply in_map_iff. now exists (k, row).
  - apply Z.ltb_lt. unfold jlength.
    destruct (trim (rowText row)) as [| c t] eqn:Hblank; [| simpl; lia].
    exfalso. apply trim_nil in Hblank.
    destruct (trim_has_nonspace _ Htext) as (c & Hc & Hns).
    rewrite Forall_forall in Hblank.
    specialize (Hblank c (infix_In _ _ c Hline Hc)).
    unfold space in Hblank. congruence.
Qed.

Lemma page_text_keeps_every_fragment_witness :
  let nm := {| str := js " Nm "; transform4 := 50; transform5 := 100 |} in
  let v := {| str := js "350"; transform4 := 10; transform5 := 100 |} in
  In nm [nm; v] /\ trim (str nm) <> [] /\
  infix (js "Nm") (pageText [nm; v]).
Proof.
  intros nm v.
  assert (H1 : In nm [nm; v]) by (left; reflexivity).
  assert (H2 : trim (str nm) <> []) by (vm_compute; discriminate).
  repeat split; try assumption.
  exact (page_text_keeps_every_fragment [nm; v] nm H1 H2).
Defined.

Lemma fold_append {A} (f : A -> jstring) (l : list A) (acc : jstring) :
  fold_left (fun text x => text ++ f x) l acc = acc ++ List.concat (map f l).
Proof.
  revert acc. induction l as [| x l IH]; simpl; intros acc.
  - now rewrite app_nil_r.
  - rewrite IH. now rewrite <- app_assoc.
Qed.

Lemma extractPagesFrom_nums (i : Z) (pageItems : list (list TextItem)) :
  map num (extractPagesFrom i pageItems)
  = map (fun j => i + Z.of_nat j) (seq 0 (List.length pageItems)).
Proof.
  revert i. induction pageItems as [| items rest IH]; simpl; intros i.
  - reflexivity.
  - rewrite IH, <- seq_shift, map_map. f_equal; [lia |].
    apply map_ext. intros j. lia.
Qed.

Lemma extractPagesFrom_contents (i : Z) (pageItems : list (list TextItem)) :
  map content (extractPagesFrom i pageItems) = map pageText pageItems.
Proof.
  revert i. induction pageItems as [| items rest IH]; simpl; intros i.
  - reflexivity.
  - now rewrite IH.
Qed.

(** X4.  A document that opens gives one page per page of the file, in
    order, numbered 1, 2, ... and holding the reconstructed text of that
    page; the full text is the pages' frames
    [START_PAGE_i]/[END_PAGE_i] one after the other.  A document that
    does not open gives no pages: the error names the cause. *)
Theorem document_pages_in_order :
  (forall pageItems,
     exists pages,
       extractTextWithStructure (Returned pageItems)
       = Returned (List.concat (map pageFrame pages), pages) /\
       map num pages
       = map (fun j => 1 + Z.of_nat j) (seq 0 (List.length pageItems)) /\
       map content pages = map pageText pageItems) /\
  (forall e,
     extractTextWithStructure (Thrown e)
     = throwError
         (js "PDF.js failed to open the file: " ++ OpenAI.messageText e
            ++ js ". Make sure the file is a valid, non-encrypted PDF.")).
Proof.
  split.
  - intros pageItems. exists (extractPages pageItems).
    split; [| split].
    + unfold extractTextWithStructure, fullTextOf. now rewrite fold_append.
    + apply extractPagesFrom_nums.
    + apply extractPagesFrom_contents.
  - reflexivity.
Qed.

End DocumentFacts.

(** ** More on the chunker *)

Module ChunkerMore.
Import Chunker Sections JSFacts ChunkerFacts.

Lemma firstn_app_firstn {A} (m : nat) (a b : list A) :
  firstn m (a ++ firstn (m - List.length a) b) = firstn m (a ++ b).
Proof.
  rewrite !firstn_app, firstn_firstn, Nat.min_id. reflexivity.
Qed.

Section WithRegExp.

Variable header : jstring -> option (jstring * jstring).
Variable split : jstring -> list jstring.
Variable test : jstring -> bool.

Lemma selection_nonneg (pages : list PageText) (maxChunks : Z) :
  0 <= maxChunks ->
  generateSemanticChunks header split test pages (Some maxChunks)
  = firstn (Z.to_nat maxChunks)
      (specChunks (allChunks header split test pages)
         ++ generalChunks (allChunks header split test pages)).
Proof.
  intros Hm. unfold generateSemanticChunks, selectChunks.
  rewrite !slice0_nonneg by lia.
  replace (Z.to_nat (Z.max 0 (maxChunks - Z.of_nat (List.length
             (specChunks (allChunks header split test pages))))))
    with (Z.to_nat maxChunks
          - List.length (specChunks (allChunks header split test pages)))%nat
    by lia.
  apply firstn_app_firstn.
Qed.

(** X5.  For a budget [maxChunks >= 0] the selection is the first
    [maxChunks] chunks of the list that has the spec-priority chunks in
    front of the general ones; so a larger budget only adds chunks behind
    those a smaller budget selects. *)
Theorem selection_grows_with_budget (pages : list PageText) (m m' : Z) :
  0 <= m <= m' ->
  let all := allChunks header split test pages in
  generateSemanticChunks header split test pages (Some m)
  = firstn (Z.to_nat m)
      (filter (fun c => truthy (isSpecPriority c)) all
         ++ filter (fun c => negb (truthy (isSpecPriority c))) all) /\
  generateSemanticChunks header split test pages (Some m)
  = firstn (Z.to_nat m)
      (generateSemanticChunks header split test pages (Some m')).
Proof.
  intros Hm all. split.
  - apply selection_nonneg. lia.
  - rewrite !selection_nonneg by lia.
    rewrite firstn_firstn. f_equal. lia.
Qed.

(** X6.  A negative budget selects no general chunk and cuts that many
    spec-priority chunks off the end: [maxChunks = -n] gives all the
    spec-priority chunks but the last [n]. *)
Theorem negative_budget_cuts_from_the_end (pages : list PageText) (n : Z) :
  0 < n ->
  let spec := filter (fun c => truthy (isSpecPriority c))
                     (allChunks header split test pages) in
  generateSemanticChunks header split test pages (Some (- n))
  = firstn (List.length spec - Z.to_nat n) spec.
Proof.
  intros Hn spec. unfold generateSemanticChunks, selectChunks.
  fold spec. change (specChunks (allChunks header split test pages)) with spec.
  replace (Z.max 0 (- n - Z.of_nat (List.length spec))) with 0 by lia.
  rewrite (slice0_nonneg _ 0) by lia. simpl firstn. rewrite app_nil_r.
  rewrite slice0_negative by lia. f_equal. lia.
Qed.

Lemma segmentChunks_shape sec p segs i c :
  In c (segmentChunks test sec p i segs) ->
  exists seg,
    In seg segs /\
    30 <= jlength (trim seg) /\
    text c = js "SECTION: " ++ sec ++ newline :: js "PAGE: "
               ++ numToString (num p) ++ newline :: js "CONTENT: "
               ++ trim seg /\
    section c = Some sec /\
    page c = num p /\
    isSpecPriority c = Some (test (trim seg)) /\
    embedding c = None.
Proof.
  revert i. induction segs as [| seg segs IH]; simpl; intros i Hin.
  - contradiction.
  - apply in_app_or in Hin as [Hin | Hin].
    + unfold segmentChunk in Hin.
      destruct (Z.ltb_spec (jlength (trim seg)) 30) as [| Hlen];
        simpl in Hin; [contradiction |].
      destruct Hin as [<- | []].
      exists seg. simpl. repeat split; auto.
    + apply IH in Hin as (seg' & Hseg & Hrest).
      exists seg'. split; [now right | exact Hrest].
Qed.

Lemma pagesChunks_shape sec pages c :
  In c (pagesChunks header split test sec pages) ->
  exists pre p post seg,
    pages = pre ++ p :: post /\
    In seg (split (content p)) /\
    30 <= jlength (trim seg) /\
    text c = js "SECTION: " ++ sectionAfter header sec (pre ++ [p])
               ++ newline :: js "PAGE: " ++ numToString (num p)
               ++ newline :: js "CONTENT: " ++ trim seg /\
    section c = Some (sectionAfter header sec (pre ++ [p])) /\
    page c = num p /\
    isSpecPriority c = Some (test (trim seg)) /\
    embedding c = None.
Proof.
  revert sec. induction pages as [| p pages IH]; simpl; intros sec Hin.
  - contradiction.
  - apply in_app_or in Hin as [Hin | Hin].
    + apply segmentChunks_shape in Hin as (seg & Hseg & Hrest).
      exists [], p, pages, seg. simpl. auto.
    + apply IH in Hin as (pre & p' & post & seg & -> & Hseg & Hrest).
      exists (p :: pre), p', post, seg. simpl. auto.
Qed.

(** X7.  Every chunk [generateSemanticChunks] returns, whatever the
    budget, comes from a segment of a page of the input: its content is
    the trimmed segment, of 30 characters or more; its text is
    "SECTION: <section>\nPAGE: <page>\nCONTENT: <content>"; its section
    is the one active after that page's header; its flag is the unit
    test on the content; and it carries no embedding yet. *)
Theorem chunks_have_shape (pages : list PageText) (maxChunks : option Z)
    (c : Chunk) :
  In c (generateSemanticChunks header split test pages maxChunks) ->
  exists pre p post seg,
    pages = pre ++ p :: post /\
    In seg (split (content p)) /\
    30 <= jlength (trim seg) /\
    let sec := sectionAfter header (js "GENERAL INFORMATION") (pre ++ [p]) in
    text c = js "SECTION: " ++ sec ++ newline :: js "PAGE: "
               ++ numToString (num p) ++ newline :: js "CONTENT: "
               ++ trim seg /\
    section c = Some sec /\
    page c = num p /\
    isSpecPriority c = Some (test (trim seg)) /\
    embedding c = None.
Proof.
  intros Hin. apply selectChunks_incl in Hin.
  apply pagesChunks_shape in Hin. exact Hin.
Qed.

Lemma sectionAfter_headerless sec pages :
  Forall (headerless header) pages -> sectionAfter header sec pages = sec.
Proof.
  unfold sectionAfter. intros H. revert sec.
  induction H as [| p pages Hp Hpages IH]; simpl; intros sec.
  - reflexivity.
  - unfold nextSection at 2. unfold headerless in Hp. rewrite Hp. apply IH.
Qed.

Lemma sectionAfter_app sec a b :
  sectionAfter header sec (a ++ b)
  = sectionAfter header (sectionAfter header sec a) b.
Proof. unfold sectionAfter. apply fold_left_app. Qed.

(** The section after a page with a header and pages without one. *)
Lemma sectionAfter_header sec a q mid code title :
  header (content q) = Some (code, title) ->
  Forall (headerless header) mid ->
  sectionAfter header sec (a ++ q :: mid) = code ++ js ": " ++ trim title.
Proof.
  intros Hq Hmid.
  rewrite sectionAfter_app.
  change (q :: mid) with ([q] ++ mid).
  rewrite sectionAfter_app, sectionAfter_headerless by exact Hmid.
  unfold sectionAfter. simpl. unfold nextSection. now rewrite Hq.
Qed.

(** X8.  The section of a chunk is inherited across pages.  Every chunk
    returned has its page somewhere in the input, and its section is set
    by the last section header up to that page: when "<code> <title>" is
    the header of that page, or of an earlier page with no header
    between, the section is "<code>: <title>" (the title trimmed); when
    no page up to that page has a header, it is "GENERAL INFORMATION". *)
Theorem section_is_inherited (pages : list PageText) (maxChunks : option Z)
    (c : Chunk) :
  In c (generateSemanticChunks header split test pages maxChunks) ->
  exists pre p post,
    pages = pre ++ p :: post /\
    page c = num p /\
    (forall a q mid code title,
       pre ++ [p] = a ++ q :: mid ->
       header (content q) = Some (code, title) ->
       Forall (headerless header) mid ->
       section c = Some (code ++ js ": " ++ trim title)) /\
    (Forall (headerless header) (pre ++ [p]) ->
     section c = Some (js "GENERAL INFORMATION")).
Proof.
  intros Hin. apply selectChunks_incl in Hin.
  apply pagesChunks_shape in Hin
    as (pre & p & post & seg & Hpages & _ & _ & _ & Hsec & Hpage & _).
  exists pre, p, post. split; [exact Hpages |]. split; [exact Hpage |].
  split.
  - intros a q mid code title Hsplit Hq Hmid.
    rewrite Hsec, Hsplit. f_equal. now apply sectionAfter_header.
  - intros Hnone. rewrite Hsec. f_equal.
    now apply sectionAfter_headerless.
Qed.

End WithRegExp.

Lemma example_chunk_returned :
  In exampleChunk2
     (generateSemanticChunks exampleHeader exampleSplit exampleTest
        examplePages None).
Proof. right. left. reflexivity. Qed.

Lemma selection_grows_with_budget_witness :
  0 <= 1 <= 2 /\
  generateSemanticChunks exampleHeader exampleSplit exampleTest
    examplePages (Some 1)
  = firstn 1 (generateSemanticChunks exampleHeader exampleSplit exampleTest
                examplePages (Some 2)).
Proof.
  split; [lia |].
  exact (proj2 (selection_grows_with_budget exampleHeader exampleSplit
                  exampleTest examplePages 1 2 ltac:(lia))).
Defined.

Lemma negative_budget_cuts_from_the_end_witness :
  0 < 1 /\
  generateSemanticChunks exampleHeader exampleSplit exampleTest
    examplePages (Some (- 1)) = [].
Proof.
  split; [lia |].
  exact (negative_budget_cuts_from_the_end exampleHeader exampleSplit
           exampleTest examplePages 1 ltac:(lia)).
Defined.

Lemma chunks_have_shape_witness :
  In exampleChunk2
     (generateSemanticChunks exampleHeader exampleSplit exampleTest
        examplePages None) /\
  exists pre p post seg,
    examplePages = pre ++ p :: post /\
    In seg (exampleSplit (content p)) /\
    30 <= jlength (trim seg) /\
    page exampleChunk2 = num p.
Proof.
  split; [exact example_chunk_returned |].
  destruct (chunks_have_shape exampleHeader exampleSplit exampleTest
              examplePages None exampleChunk2 example_chunk_returned)
    as (pre & p & post & seg & H1 & H2 & H3 & _ & _ & H4 & _).
  now exists pre, p, post, seg.
Defined.

Lemma section_is_inherited_witness :
  In exampleChunk2
     (generateSemanticChunks exampleHeader exampleSplit exampleTest
        examplePages None) /\
  exists pre p post,
    examplePages = pre ++ p :: post /\ page exampleChunk2 = num p.
Proof.
  split; [exact example_chunk_returned |].
  destruct (section_is_inherited exampleHeader exampleSplit exampleTest
              examplePages None exampleChunk2 example_chunk_returned)
    as (pre & p & post & H1 & H2 & _).
  now exists pre, p, post.
Defined.

End ChunkerMore.

(** ** More on the retriever *)

Module RetrieverMore.
Import Double DoubleFacts Retriever SortFacts JSFacts RetrieverFacts.

Lemma dotFrom_comm (acc : double) (a b : list double) :
  dotFrom acc a b = dotFrom acc b a.
Proof.
  unfold dotFrom. revert acc b.
  induction a as [| x a IH]; intros acc [| y b]; cbn [combine fold_left];
    try reflexivity.
  cbn [fst snd]. rewrite (mul_comm x y). apply IH.
Qed.

Lemma dot_comm (a b : list double) : dot a b = dot b a.
Proof. apply dotFrom_comm. Qed.

Lemma cosineSimilarity_comm (a b : list double) :
  cosineSimilarity a b = cosineSimilarity b a.
Proof.
  destruct (Nat.eq_dec (List.length a) (List.length b)) as [Hlen | Hlen].
  - destruct a as [| x a], b as [| y b]; try discriminate; [reflexivity |].
    rewrite !cosineSimilarity_same_length by (auto; discriminate).
    rewrite (dot_comm (x :: a) (y :: b)), (mul_comm (magnitude (x :: a))).
    reflexivity.
  - rewrite !cosineSimilarity_mismatch by congruence. reflexivity.
Qed.

(** X29.  What [cosineSimilarity] guards.  It is 0 when the two vectors
    differ in length and when one is empty.  For vectors of one length
    it divides the dot product by the product of the magnitudes, all
    three as the doubles the loop computes, unless that product is a
    zero: then it returns 0 without dividing, so it never divides by
    zero.  With one magnitude zero and the other one finite the product
    is a zero and the result 0. *)
Theorem cosine_division_guarded (a b : list double) :
  (List.length a <> List.length b -> cosineSimilarity a b = zero) /\
  (a = [] \/ b = [] -> cosineSimilarity a b = zero) /\
  (List.length a = List.length b -> a <> [] ->
   cosineSimilarity a b
   = if isZero (mul (magnitude a) (magnitude b)) then zero
     else div (dot a b) (mul (magnitude a) (magnitude b))) /\
  (isZero (magnitude a) = true /\ isFinite (magnitude b) = true \/
   isFinite (magnitude a) = true /\ isZero (magnitude b) = true ->
   cosineSimilarity a b = zero).
Proof.
  split; [apply cosineSimilarity_mismatch |].
  split.
  { intros [-> | ->]; [apply cosineSimilarity_empty |].
    destruct a; [apply cosineSimilarity_empty |].
    now apply cosineSimilarity_mismatch. }
  split; [apply cosineSimilarity_same_length |].
  apply cosineSimilarity_zero_magnitude.
Qed.

(** The vectors (3,4) and (4,3): similarity 24/25, to the nearest
    double; and (0,0) against (3,4): similarity 0. *)
Lemma cosine_division_guarded_witness :
  let a := [ofZ 3; ofZ 4] in
  let b := [ofZ 4; ofZ 3] in
  let o := [zero; zero] in
  (List.length a = List.length b /\ a <> [] /\
   isZero (mul (magnitude a) (magnitude b)) = false /\
   cosineSimilarity a b = div (dot a b) (mul (magnitude a) (magnitude b)) /\
   cosineSimilarity a b = ofQ (24 # 25)) /\
  (isZero (magnitude o) = true /\ isFinite (magnitude a) = true /\
   cosineSimilarity o a = zero).
Proof.
  intros a b o.
  assert (Hne : a <> []) by discriminate.
  assert (Hz : isZero (magnitude o) = true) by (vm_compute; reflexivity).
  assert (Hf : isFinite (magnitude a) = true) by (vm_compute; reflexivity).
  split.
  - split; [reflexivity |]. split; [exact Hne |].
    split; [vm_compute; reflexivity |].
    split; [| vm_compute; reflexivity].
    exact (proj1 (proj2 (proj2 (cosine_division_guarded a b))) eq_refl Hne).
  - split; [exact Hz |]. split; [exact Hf |].
    exact (proj2 (proj2 (proj2 (cosine_division_guarded o a)))
                 (or_introl (conj Hz Hf))).
Defined.

(** X10.  The score does not depend on which vector is the query and
    which the chunk's: the two calls return the same double.  A score
    is a rounded quotient, and it can pass 1: the vector (1,5) has
    similarity 1.0000000000000002 to itself. *)
Theorem cosine_symmetric (a b : list double) :
  cosineSimilarity a b = cosineSimilarity b a /\
  cosineSimilarity [ofZ 1; ofZ 5] [ofZ 1; ofZ 5]
  = ofQ (10000000000000002 # 10000000000000000) /\
  ltb one (cosineSimilarity [ofZ 1; ofZ 5] [ofZ 1; ofZ 5]) = true.
Proof.
  split; [apply cosineSimilarity_comm |].
  split; vm_compute; reflexivity.
Qed.

Local Open Scope Z_scope.

Lemma firstn_firstn_le {A} (n m : nat) (l : list A) :
  (n <= m)%nat -> firstn n (firstn m l) = firstn n l.
Proof.
  intros H. rewrite firstn_firstn. f_equal. lia.
Qed.

Lemma scoreAll_length (q : list double) (chunks : list Chunk) :
  List.length (ranked q chunks) = List.length (filter hasEmbedding chunks).
Proof.
  unfold ranked. rewrite (Permutation_length (sort_perm _ _)).
  unfold scoreAll. apply length_map.
Qed.

(** X12.  Asking for more chunks only adds chunks behind those a smaller
    [k] returns: for [0 <= k <= k'] the result for [k] is the first [k]
    entries of the result for [k'].  Once [k] reaches the number of
    chunks with an embedding, every one of them is returned. *)
Theorem retrieval_grows_with_k (q : list double) (chunks : list Chunk)
    (k k' : Z) :
  0 <= k <= k' ->
  scored (retrieveRelevantChunks q chunks (Some k))
  = firstn (Z.to_nat k) (scored (retrieveRelevantChunks q chunks (Some k'))) /\
  (Z.of_nat (List.length (filter hasEmbedding chunks)) <= k ->
   Permutation (scored (retrieveRelevantChunks q chunks (Some k)))
               (scoreAll q chunks)).
Proof.
  intros Hk. unfold retrieveRelevantChunks. simpl.
  rewrite !slice0_nonneg by lia.
  split.
  - rewrite firstn_firstn_le by lia. reflexivity.
  - intros Hall. rewrite firstn_all2.
    + apply sort_perm.
    + rewrite scoreAll_length. lia.
Qed.

(** Two chunks with embeddings; [k = 1] against [k = 2]. *)
Lemma retrieval_grows_with_k_witness :
  let c1 := {| id := js "p1-s0"; text := js "Wheel nut 204 Nm";
               section := None; page := 1;
               embedding := Some [ofZ 3; ofZ 4]; isSpecPriority := Some true |} in
  let c2 := {| id := js "p1-s1"; text := js "Oil capacity 5.7 L";
               section := None; page := 1;
               embedding := Some [ofZ 4; ofZ 3]; isSpecPriority := Some true |} in
  0 <= 1 <= 2 /\
  scored (retrieveRelevantChunks [ofZ 4; ofZ 3] [c1; c2] (Some 1))
  = firstn 1 (scored (retrieveRelevantChunks [ofZ 4; ofZ 3] [c1; c2] (Some 2))).
Proof.
  intros c1 c2.
  assert (H : 0 <= 1 <= 2) by lia.
  split; [exact H |].
  exact (proj1 (retrieval_grows_with_k [ofZ 4; ofZ 3] [c1; c2] 1 2 H)).
Defined.

(** X13.  The edges of [k].  With [k = 0] nothing is returned and the
    context is the empty string.  A negative [k] does not fail: [k = -n]
    returns the ranking without its last [n] entries, the lowest
    scores. *)
Theorem retrieval_at_the_edges_of_k (q : list double) (chunks : list Chunk) :
  retrieveRelevantChunks q chunks (Some 0)
  = {| context := []; scored := [] |} /\
  forall n, 0 < n ->
    scored (retrieveRelevantChunks q chunks (Some (- n)))
    = firstn (List.length (filter hasEmbedding chunks) - Z.to_nat n)
             (ranked q chunks).
Proof.
  split.
  - unfold retrieveRelevantChunks. rewrite slice0_nonneg by lia. reflexivity.
  - intros n Hn. unfold retrieveRelevantChunks. simpl.
    rewrite slice0_negative by lia.
    rewrite scoreAll_length. f_equal. f_equal. lia.
Qed.

(** One chunk and [k = -1]: nothing is returned. *)
Lemma retrieval_at_the_edges_of_k_witness :
  let c := {| id := js "p1-s0"; text := js "Wheel nut 204 Nm";
              section := None; page := 1;
              embedding := Some [ofZ 3; ofZ 4]; isSpecPriority := Some true |} in
  0 < 1 /\
  scored (retrieveRelevantChunks [ofZ 3; ofZ 4] [c] (Some (- 1))) = [].
Proof.
  intros c.
  assert (H : 0 < 1) by lia.
  split; [exact H |].
  exact (proj2 (retrieval_at_the_edges_of_k [ofZ 3; ofZ 4] [c]) 1 H).
Defined.

End RetrieverMore.

(** ** More on the hashing embedding *)

Module EmbeddingMore.
Import Embedding Weights Retriever EmbeddingFacts RetrieverFacts RetrieverMore.

Lemma bump_total (i : nat) (w : Z) (vector : list Z) :
  (i < List.length vector)%nat -> total (bump i w vector) = total vector + w.
Proof.
  unfold total. revert i.
  induction vector as [| v rest IH]; intros [| i] Hi; simpl in *; try lia.
  rewrite IH by lia. lia.
Qed.

Lemma bump_nonneg (i : nat) (w : Z) (vector : list Z) :
  0 <= w -> Forall (fun v => 0 <= v) vector ->
  Forall (fun v => 0 <= v) (bump i w vector).
Proof.
  intros Hw. revert i.
  induction vector as [| v rest IH]; intros [| i] H; simpl; auto;
    inversion H; subst; constructor; auto; lia.
Qed.

Lemma bigram_index (c1 c2 : ascii) :
  (Z.to_nat (Z.abs ((charCode c1 * 31 + charCode c2) mod dim)) < 1536)%nat.
Proof.
  unfold dim.
  pose proof (Z.mod_pos_bound (charCode c1 * 31 + charCode c2) 1536).
  lia.
Qed.

Lemma word_index (word : jstring) :
  (Z.to_nat (Z.abs (hashWord word) mod dim) < 1536)%nat.
Proof.
  unfold dim.
  pose proof (Z.mod_pos_bound (Z.abs (hashWord word)) 1536).
  lia.
Qed.

Lemma bigrams_total (s : jstring) (vector : list Z) :
  List.length vector = 1536%nat ->
  total (bigrams s vector) = total vector + bigramCount s.
Proof.
  unfold bigramCount. revert vector.
  induction s as [| c1 s IH]; intros vector Hlen.
  - simpl. lia.
  - destruct s as [| c2 s'].
    + simpl. lia.
    + change (bigrams (c1 :: c2 :: s') vector)
        with (bigrams (c2 :: s')
                (bump (Z.to_nat (Z.abs ((charCode c1 * 31 + charCode c2) mod dim)))
                      1 vector)).
      rewrite IH by (rewrite bump_length; exact Hlen).
      rewrite bump_total by (rewrite Hlen; apply bigram_index).
      simpl List.length. lia.
Qed.

Lemma bigrams_nonneg (s : jstring) (vector : list Z) :
  Forall (fun v => 0 <= v) vector ->
  Forall (fun v => 0 <= v) (bigrams s vector).
Proof.
  revert vector. induction s as [| c1 s IH]; intros vector H.
  - exact H.
  - destruct s as [| c2 s']; [exact H |].
    change (bigrams (c1 :: c2 :: s') vector)
      with (bigrams (c2 :: s')
              (bump (Z.to_nat (Z.abs ((charCode c1 * 31 + charCode c2) mod dim)))
                    1 vector)).
    apply IH. apply bump_nonneg; [lia | exact H].
Qed.

Lemma weightOf_pos (word : jstring) : 0 < weightOf word.
Proof. unfold weightOf. destruct (has autoTerms word); lia. Qed.

Lemma unigrams_total (ws : list jstring) (vector : list Z) :
  List.length vector = 1536%nat ->
  total (unigrams ws vector) = total vector + total (map weightOf ws).
Proof.
  unfold unigrams. revert vector.
  induction ws as [| w ws IH]; intros vector Hlen; simpl.
  - unfold total. simpl. lia.
  - rewrite IH by (rewrite bump_length; exact Hlen).
    rewrite bump_total by (rewrite Hlen; apply word_index).
    unfold total, weightOf. simpl. lia.
Qed.

Lemma unigrams_nonneg (ws : list jstring) (vector : list Z) :
  Forall (fun v => 0 <= v) vector ->
  Forall (fun v => 0 <= v) (unigrams ws vector).
Proof.
  unfold unigrams. revert vector.
  induction ws as [| w ws IH]; intros vector H; [exact H |].
  cbn [fold_left]. apply IH. apply bump_nonneg; [| exact H].
  destruct (has autoTerms w); lia.
Qed.

Lemma zeros_total (n : nat) : total (repeat 0 n) = 0.
Proof. unfold total. induction n; simpl; lia. Qed.

Lemma zeros_nonneg (n : nat) : Forall (fun v => 0 <= v) (repeat 0 n).
Proof. induction n; simpl; constructor; auto; lia. Qed.

Lemma buckets_total (s : jstring) :
  total (buckets s) = bigramCount s + total (map weightOf (words s)).
Proof.
  unfold buckets.
  rewrite unigrams_total by (rewrite bigrams_length; apply repeat_length).
  rewrite bigrams_total by apply repeat_length.
  rewrite zeros_total. lia.
Qed.

Lemma buckets_nonneg (s : jstring) : Forall (fun v => 0 <= v) (buckets s).
Proof.
  unfold buckets. apply unigrams_nonneg, bigrams_nonneg, zeros_nonneg.
Qed.

(** X14.  No feature falls outside the vector and none is counted twice:
    the buckets are never negative, and they add up to the number of
    character bigrams of the normalised text plus the weights of its
    words, 3 for an automotive term and 1 for any other word. *)
Theorem buckets_conserve_weight (text : jstring) :
  let normalized := normalize text in
  Forall (fun v => 0 <= v) (buckets normalized) /\
  total (buckets normalized)
  = bigramCount normalized + total (map weightOf (words normalized)) /\
  List.length (buckets normalized) = 1536%nat.
Proof.
  intros normalized. split; [apply buckets_nonneg |].
  split; [apply buckets_total | apply buckets_length].
Qed.

(** A text of five bigrams and two words, one of them a term. *)
Lemma buckets_conserve_weight_witness :
  total (buckets (normalize (js "Nut 5a"))) = 5 + (3 + 1).
Proof.
  exact (proj1 (proj2 (buckets_conserve_weight (js "Nut 5a")))).
Defined.

(** *** The normalised vector *)

Lemma nonneg_total_zero (vector : list Z) :
  Forall (fun v => 0 <= v) vector -> total vector = 0 ->
  vector = repeat 0 (List.length vector).
Proof.
  unfold total. induction 1 as [| v rest Hv Hrest IH]; intros Ht;
    [reflexivity |].
  cbn [fold_right map List.length repeat] in *.
  assert (Hsum : 0 <= fold_right Z.add 0 rest).
  { clear - Hrest. induction Hrest; simpl; lia. }
  assert (v = 0) by lia. subst v. f_equal. apply IH. lia.
Qed.

Lemma squares_of_zeros (n : nat) :
  fold_left (fun norm v => norm + v * v) (repeat 0 n) 0 = 0.
Proof. induction n as [| n IH]; [reflexivity | exact IH]. Qed.

(** The zero vector stays the zero vector: its norm is 0, which
    [|| 1] replaces by 1. *)
Lemma l2normalize_zeros (n : nat) :
  l2normalize (repeat 0 n) = repeat Double.zero n.
Proof.
  unfold l2normalize. rewrite squares_of_zeros.
  change (Double.isZero (Double.sqrt (Double.ofZ 0))
          || Double.isNaN (Double.sqrt (Double.ofZ 0))) with true.
  cbv iota.
  induction n as [| n IH]; [reflexivity |].
  cbn [repeat map]. rewrite IH. reflexivity.
Qed.

Lemma getEmbedding_featureless (text : jstring) :
  bigramCount (normalize text) = 0 ->
  words (normalize text) = [] ->
  getEmbedding text = repeat Double.zero 1536.
Proof.
  intros Hb Hw. unfold getEmbedding.
  assert (Ht : total (buckets (normalize text)) = 0).
  { rewrite buckets_total, Hb, Hw. reflexivity. }
  rewrite (nonneg_total_zero _ (buckets_nonneg _) Ht), buckets_length.
  apply l2normalize_zeros.
Qed.

(** X15.  A text without features, one that has no character bigram
    and no word, is embedded as the zero vector: the norm of its buckets
    is 0, [Math.sqrt(norm) || 1] puts 1 in its place, and every component
    is [0 / 1], the number 0, where a division by the norm itself would
    give [NaN].  The empty text is such a text. *)
Theorem featureless_text_embeds_to_zero (text : jstring) :
  bigramCount (normalize text) = 0 ->
  words (normalize text) = [] ->
  getEmbedding text = repeat Double.zero 1536 /\
  getEmbedding [] = repeat Double.zero 1536.
Proof.
  intros Hb Hw. split; [now apply getEmbedding_featureless |].
  apply getEmbedding_featureless; reflexivity.
Qed.

(** A dash: one character and no word. *)
Lemma featureless_text_embeds_to_zero_witness :
  bigramCount (normalize (js "-")) = 0 /\
  words (normalize (js "-")) = [] /\
  getEmbedding (js "-") = repeat Double.zero 1536.
Proof.
  assert (Hb : bigramCount (normalize (js "-")) = 0) by reflexivity.
  assert (Hw : words (normalize (js "-")) = []) by reflexivity.
  split; [exact Hb |]. split; [exact Hw |].
  exact (proj1 (featureless_text_embeds_to_zero (js "-") Hb Hw)).
Defined.

End EmbeddingMore.

(** ** The embedding step of the pipeline *)

Module PipelineFacts.
Import Retriever Embedding Pipeline SortFacts JSFacts RetrieverFacts
       EmbeddingFacts RetrieverMore EmbeddingMore.

Lemma assignEmbeddings_same (embs : list entry) (batch assigned : list Chunk) :
  assignEmbeddings embs batch = Returned assigned ->
  Forall2 sameButEmbedding batch assigned.
Proof.
  assert (Hrefl : forall l, Forall2 sameButEmbedding l l).
  { induction l; constructor; auto. repeat split. }
  revert batch assigned.
  induction embs as [| e embs IH]; intros batch assigned H.
  - destruct batch; injection H as <-; apply Hrefl.
  - destruct batch as [| c batch]; [discriminate |].
    simpl in H.
    destruct (assignEmbeddings embs batch) as [rest | err] eqn:Hrest;
      [| discriminate].
    injection H as <-. constructor; [repeat split | now apply IH].
Qed.

Lemma assignEmbeddings_groq (batch : list Chunk) :
  assignEmbeddings (map (fun t => Some (getEmbedding t)) (map text batch))
                   batch
  = Returned (map embedded batch).
Proof.
  induction batch as [| c batch IH]; simpl; [reflexivity |].
  now rewrite IH.
Qed.

Lemma firstn_plus {A} (i n : nat) (l : list A) :
  firstn (i + n) l = firstn i l ++ firstn n (skipn i l).
Proof.
  revert l. induction i as [| i IH]; intros l; simpl; [reflexivity |].
  destruct l as [| x l]; simpl.
  - now rewrite firstn_nil.
  - now rewrite IH.
Qed.

Lemma skipn_plus {A} (i n : nat) (l : list A) :
  skipn (i + n) l = skipn n (skipn i l).
Proof.
  revert l. induction i as [| i IH]; intros l; simpl; [reflexivity |].
  destruct l as [| x l]; simpl; [now rewrite skipn_nil | apply IH].
Qed.

Lemma Forall2_length_eq {A B} (P : A -> B -> Prop) (l : list A) (l' : list B) :
  Forall2 P l l' -> List.length l = List.length l'.
Proof. induction 1; simpl; auto. Qed.

Lemma Forall2_trans_same (l1 l2 l3 : list Chunk) :
  Forall2 sameButEmbedding l1 l2 -> Forall2 sameButEmbedding l2 l3 ->
  Forall2 sameButEmbedding l1 l3.
Proof.
  intros H12. revert l3.
  induction H12 as [| a b l1 l2 Hab _ IH]; intros l3 H23;
    inversion H23; subst; constructor; auto.
  unfold sameButEmbedding in *. intuition congruence.
Qed.

Lemma Forall2_same_refl (l : list Chunk) : Forall2 sameButEmbedding l l.
Proof. induction l; constructor; auto. repeat split. Qed.

(** Putting a batch back in its place. *)
Lemma replace_batch_same (i : nat) (chunks assigned : list Chunk) :
  Forall2 sameButEmbedding (firstn BATCH (skipn i chunks)) assigned ->
  Forall2 sameButEmbedding chunks
    (firstn i chunks ++ assigned ++ skipn (i + BATCH) chunks).
Proof.
  intros H.
  rewrite <- (firstn_skipn i chunks) at 1.
  apply Forall2_app; [apply Forall2_same_refl |].
  rewrite <- (firstn_skipn BATCH (skipn i chunks)) at 1.
  apply Forall2_app; [exact H |].
  rewrite skipn_plus. apply Forall2_same_refl.
Qed.

Section WithEmbedder.

Variable getBatchEmbeddings : list jstring -> completion (list entry).

(** Enough fuel: the loop ends, and a result it returns has the chunks of
    the input but for their embeddings. *)
Lemma embedFrom_ends (fuel i : nat) (chunks : list Chunk) :
  (0 < fuel)%nat ->
  (List.length chunks + BATCH <= i + BATCH * fuel)%nat ->
  exists r, embedFrom getBatchEmbeddings fuel i chunks = Some r /\
            forall chunks', r = Returned chunks' ->
                            Forall2 sameButEmbedding chunks chunks'.
Proof.
  revert i chunks.
  induction fuel as [| fuel IH]; intros i chunks Hpos Hfuel; [lia |].
  - cbn [embedFrom].
    destruct (Nat.ltb_spec i (List.length chunks)) as [Hlt | Hge].
    + destruct (getBatchEmbeddings _) as [embs | err].
      2:{ eexists. split; [reflexivity | discriminate]. }
      destruct (assignEmbeddings embs _) as [assigned | err] eqn:Hassign.
      2:{ eexists. split; [reflexivity | discriminate]. }
      apply assignEmbeddings_same in Hassign.
      pose proof (replace_batch_same i chunks assigned Hassign) as Hsame.
      destruct (IH (i + BATCH)%nat
                   (firstn i chunks ++ assigned ++ skipn (i + BATCH) chunks))
        as (r & Hr & Hshape).
      { unfold BATCH in *. lia. }
      { rewrite <- (Forall2_length_eq _ _ _ Hsame). unfold BATCH in *. lia. }
      exists r. split; [exact Hr |].
      intros chunks' ->.
      eapply Forall2_trans_same; [exact Hsame | now apply Hshape].
    + eexists. split; [reflexivity |].
      intros chunks' [= <-]. apply Forall2_same_refl.
Qed.

(** X17.  Whatever the embedding service answers, the embedding loop of
    [runPipeline] comes to an end, and when it does not throw it leaves
    the chunks as they were but for their embeddings: as many chunks, in
    the same order, each with its id, text, section, page and priority
    flag.  With no chunk the service is not called at all. *)
Theorem embedding_loop_ends_and_keeps_chunks (chunks : list Chunk) :
  (exists r, embedChunks getBatchEmbeddings chunks = Some r) /\
  (forall chunks',
     embedChunks getBatchEmbeddings chunks = Some (Returned chunks') ->
     Forall2 sameButEmbedding chunks chunks') /\
  embedChunks getBatchEmbeddings [] = Some (Returned []).
Proof.
  destruct (embedFrom_ends (S (List.length chunks)) 0 chunks)
    as (r & Hr & Hshape).
  { lia. }
  { unfold BATCH. lia. }
  split; [now exists r |].
  split; [| reflexivity].
  intros chunks' H. unfold embedChunks in H. rewrite Hr in H.
  injection H as ->. now apply Hshape.
Qed.

(** X18.  A failure of the embedding service ends the loop at once: when
    the call for the first batch throws, the loop throws the same error;
    and the loop itself fails when the service returns more embeddings
    than the batch has chunks. *)
Theorem embedding_failure_stops_the_loop (chunks : list Chunk) :
  chunks <> [] ->
  (forall err,
     getBatchEmbeddings (map text (firstn BATCH chunks)) = Thrown err ->
     embedChunks getBatchEmbeddings chunks = Some (Thrown err)) /\
  (forall embs,
     getBatchEmbeddings (map text (firstn BATCH chunks)) = Returned embs ->
     (List.length (firstn BATCH chunks) < List.length embs)%nat ->
     embedChunks getBatchEmbeddings chunks = Some (Thrown TypeError)).
Proof.
  intros Hne.
  assert (Hlt : (0 <? List.length chunks)%nat = true).
  { destruct chunks; [congruence | reflexivity]. }
  split.
  - intros err Hcall. unfold embedChunks. cbn [embedFrom].
    rewrite Hlt. change (skipn 0 chunks) with chunks. now rewrite Hcall.
  - intros embs Hcall Hlong. unfold embedChunks. cbn [embedFrom].
    rewrite Hlt. change (skipn 0 chunks) with chunks. rewrite Hcall.
    assert (Hthrow : forall (es : list entry) (b : list Chunk),
               (List.length b < List.length es)%nat ->
               assignEmbeddings es b = Thrown TypeError).
    { induction es as [| e es IH]; intros b Hb; simpl in Hb; [lia |].
      destruct b as [| c b]; [reflexivity |].
      simpl in *. rewrite IH by lia. reflexivity. }
    now rewrite Hthrow.
Qed.

End WithEmbedder.

(** A service that is down. *)
Lemma embedding_failure_stops_the_loop_witness :
  let down := {| name := js "Error";
                 message := Some (js "429 Too Many Requests") |} in
  let service := fun _ : list jstring => @Thrown (list entry) down in
  [exampleChunk] <> [] /\
  embedChunks service [exampleChunk] = Some (Thrown down).
Proof.
  intros down service.
  assert (Hne : [exampleChunk] <> []) by discriminate.
  split; [exact Hne |].
  exact (proj1 (embedding_failure_stops_the_loop service [exampleChunk] Hne)
               down eq_refl).
Defined.

(** Two chunks and a service that answers with one embedding: the second
    chunk keeps its place and its text. *)
Lemma embedding_loop_ends_and_keeps_chunks_witness :
  let service := fun _ : list jstring => Returned [Some [Double.one]] in
  embedChunks service [exampleChunk; exampleChunk]
  = Some (Returned [setEmbedding (Some [Double.one]) exampleChunk; exampleChunk]) /\
  Forall2 sameButEmbedding [exampleChunk; exampleChunk]
          [setEmbedding (Some [Double.one]) exampleChunk; exampleChunk].
Proof.
  intros service.
  assert (H : embedChunks service [exampleChunk; exampleChunk]
              = Some (Returned [setEmbedding (Some [Double.one]) exampleChunk; exampleChunk]))
    by reflexivity.
  split; [exact H |].
  exact (proj1 (proj2 (embedding_loop_ends_and_keeps_chunks
                         service [exampleChunk; exampleChunk])) _ H).
Defined.

(** *** With the hashing embedding *)

Lemma embedFrom_groq (fuel i : nat) (chunks : list Chunk) :
  (0 < fuel)%nat ->
  (List.length chunks + BATCH <= i + BATCH * fuel)%nat ->
  embedFrom groqBatchEmbeddings fuel i
    (map embedded (firstn i chunks) ++ skipn i chunks)
  = Some (Returned (map embedded chunks)).
Proof.
  revert i.
  induction fuel as [| fuel IH]; intros i Hpos Hfuel; [lia |].
  - cbn [embedFrom].
    set (L := map embedded (firstn i chunks) ++ skipn i chunks).
    assert (HlenL : List.length L = List.length chunks).
    { unfold L. rewrite length_app, length_map, <- length_app.
      now rewrite firstn_skipn. }
    rewrite HlenL.
    destruct (Nat.ltb_spec i (List.length chunks)) as [Hlt | Hge].
    + assert (Hpre : List.length (map embedded (firstn i chunks)) = i)
        by (rewrite length_map, length_firstn; lia).
      assert (Hskip : skipn i L = skipn i chunks).
      { unfold L. rewrite skipn_app, Hpre, Nat.sub_diag.
        rewrite skipn_all2 by lia. reflexivity. }
      assert (Hfirst : firstn i L = map embedded (firstn i chunks)).
      { unfold L. rewrite firstn_app, Hpre, Nat.sub_diag.
        rewrite firstn_all2 by lia. simpl. apply app_nil_r. }
      rewrite Hskip. unfold groqBatchEmbeddings.
      rewrite assignEmbeddings_groq.
      rewrite skipn_plus, Hskip, <- skipn_plus, Hfirst.
      rewrite app_assoc, <- map_app, <- firstn_plus.
      apply IH; unfold BATCH in *; lia.
    + unfold L. rewrite firstn_all2, skipn_all2 by lia.
      now rewrite app_nil_r.
Qed.

(** X19.  In the Groq pipeline the embedding loop always succeeds, and
    batching changes nothing: every chunk, whatever its place in the list
    and however many chunks there are, ends up with the hashing embedding
    of its own text, and is otherwise as it was. *)
Theorem every_chunk_gets_its_own_embedding (chunks : list Chunk) :
  embedChunks groqBatchEmbeddings chunks
  = Some (Returned (map embedded chunks)) /\
  Forall (fun c => embedding c = Some (getEmbedding (text c)) /\
                   List.length (embeddingOf c) = 1536%nat)
         (map embedded chunks).
Proof.
  split.
  - unfold embedChunks.
    apply (embedFrom_groq (S (List.length chunks)) 0 chunks);
      unfold BATCH; lia.
  - apply Forall_map, Forall_forall. intros c _. simpl.
    split; [reflexivity |].
    unfold embeddingOf. simpl. unfold getEmbedding, l2normalize.
    rewrite length_map. apply buckets_length.
Qed.

Lemma embedded_hasEmbedding (chunks : list Chunk) :
  filter hasEmbedding (map embedded chunks) = map embedded chunks.
Proof.
  induction chunks as [| c chunks IH]; simpl; [reflexivity |].
  assert (Hc : hasEmbedding (embedded c) = true).
  { unfold hasEmbedding. simpl.
    destruct (getEmbedding (text c)) as [| x e] eqn:He; [| reflexivity].
    apply (f_equal (@List.length Double.double)) in He.
    unfold getEmbedding, l2normalize in He.
    rewrite length_map, buckets_length in He. discriminate. }
  rewrite Hc, IH. reflexivity.
Qed.

(** X20.  After the embedding step of the Groq pipeline no chunk is left
    out of retrieval: [retrieveRelevantChunks] with its default [k]
    returns 6 chunks, or all of them when there are fewer; every chunk
    returned is a chunk of the input with its embedding, and its score
    is the similarity of the query's embedding and the embedding of the
    chunk's own text. *)
Theorem retrieval_after_embedding (query : jstring) (chunks : list Chunk) :
  let r := Embedding.retrieveRelevantChunks query (map embedded chunks) None in
  List.length (scored r) = Nat.min 6 (List.length chunks) /\
  Forall (fun sc =>
            exists c, In c chunks /\ chunk sc = embedded c /\
                      score sc = cosineSimilarity (getEmbedding query)
                                                  (getEmbedding (text c)))
         (scored r).
Proof.
  intros r. unfold r, Embedding.retrieveRelevantChunks,
    Retriever.retrieveRelevantChunks. simpl scored.
  rewrite slice0_nonneg by lia.
  split.
  - rewrite length_firstn, scoreAll_length, embedded_hasEmbedding, length_map.
    reflexivity.
  - apply Forall_forall. intros sc Hin.
    apply In_firstn in Hin.
    apply (Permutation_in _ (sort_perm _ _)) in Hin.
    unfold scoreAll in Hin. rewrite embedded_hasEmbedding in Hin.
    apply in_map_iff in Hin as (c' & <- & Hc').
    apply in_map_iff in Hc' as (c & <- & Hc).
    exists c. repeat split. exact Hc.
Qed.

End PipelineFacts.

(** ** The embeddings of [OpenAIService] *)

Module OpenAIEmbeddingsFacts.
Import Extractor OpenAIEmbeddings SortFacts.

Lemma indexBefore_iff (a b : Item) :
  indexBefore a b = true <-> index a <= index b.
Proof. unfold indexBefore. rewrite Z.leb_le. lia. Qed.

Lemma handleFailure_classified {A} (e : JSError) :
  exists e', @handleFailure A e = Thrown e' /\ classified e'.
Proof.
  unfold handleFailure, classified.
  destruct (_ || _ || _).
  - eexists. split; [reflexivity |]. now left.
  - destruct (_ || _ || _).
    + eexists. split; [reflexivity |]. right. now left.
    + eexists. split; [reflexivity |]. right. right. now eexists.
Qed.

Section WithClient.

Variable createOne : jstring -> completion Response.
Variable createMany : list jstring -> completion Response.

Lemma getBatchEmbeddings_cases (texts : list jstring) :
  (exists e, getBatchEmbeddings createMany texts = Thrown e /\ classified e) \/
  (exists first rest,
     createMany texts = Returned (Some (first :: rest)) /\
     getBatchEmbeddings createMany texts
     = Returned (map itemEmbedding
                     (JSArray.sort indexBefore (first :: rest)))).
Proof.
  unfold getBatchEmbeddings.
  destruct (createMany texts) as [[[| first rest] |] | e]; simpl try_catch.
  - left. apply handleFailure_classified.
  - right. now exists first, rest.
  - left. apply handleFailure_classified.
  - left. apply handleFailure_classified.
Qed.

(** X21.  [getBatchEmbeddings] returns the embeddings of the response in
    the order of their [index], entries of equal index in the order of
    the response, and never an empty list; it does not compare their
    number with the number of texts.  When it throws, the message is one
    of three: the invalid-key message, the rate-limit message, or
    "Embedding failed: " and the cause; a response without data fails
    with "Embedding failed: No embeddings returned". *)
Theorem batch_embeddings_ordered_or_classified (texts : list jstring) :
  (forall embs,
     getBatchEmbeddings createMany texts = Returned embs ->
     embs <> [] /\
     exists data sorted,
       createMany texts = Returned (Some data) /\
       embs = map itemEmbedding sorted /\
       Permutation sorted data /\
       StronglySorted (fun a b => index a <= index b) sorted /\
       forall i, filter (fun item => index item =? i) sorted
                 = filter (fun item => index item =? i) data) /\
  (forall e,
     getBatchEmbeddings createMany texts = Thrown e -> classified e) /\
  (createMany texts = Returned None \/ createMany texts = Returned (Some []) ->
   getBatchEmbeddings createMany texts
   = throwError (embeddingFailedPrefix ++ js "No embeddings returned")).
Proof.
  split; [| split].
  - intros embs Hret.
    destruct (getBatchEmbeddings_cases texts)
      as [(e & He & _) | (first & rest & Hcall & Hres)]; [congruence |].
    rewrite Hres in Hret. injection Hret as <-.
    set (data := first :: rest) in *.
    split.
    { intros Hnil. apply map_eq_nil in Hnil.
      pose proof (Permutation_length (sort_perm indexBefore data)) as Hl.
      change (JSArray.sort indexBefore data)
        with (JSArray.insertSorted indexBefore first
                (JSArray.sort indexBefore rest)) in Hl.
      rewrite Hnil in Hl. discriminate. }
    exists data, (JSArray.sort indexBefore data).
    split; [exact Hcall |]. split; [reflexivity |].
    split; [apply sort_perm |].
    split.
    + apply StronglySorted_impl with (R1 := fun a b => indexBefore a b = true).
      * intros a b. apply indexBefore_iff.
      * apply sort_sorted.
        -- intros a b. rewrite !indexBefore_iff. lia.
        -- intros a b c. rewrite !indexBefore_iff. lia.
    + intros i. apply sort_stable. intros a b Ha Hb.
      apply indexBefore_iff. apply Z.eqb_eq in Ha, Hb. lia.
  - intros e Hthrow.
    destruct (getBatchEmbeddings_cases texts)
      as [(e' & He & Hc) | (first & rest & _ & Hres)]; [| congruence].
    rewrite He in Hthrow. now injection Hthrow as <-.
  - intros [Hcall | Hcall]; unfold getBatchEmbeddings; rewrite Hcall;
      reflexivity.
Qed.

(** X22.  [getEmbedding] returns the embedding of the first entry of
    the response when that entry has one, without a second call.  In
    every other case (no data, no entry, a first entry without an
    embedding, a call that throws) it asks [getBatchEmbeddings] for the
    one text and returns the first entry of its answer: the first
    failure is never reported, and a failure that reaches the caller
    carries one of the three messages of [getBatchEmbeddings].  The
    result is [undefined] only when the entry of least index in the
    second response has no embedding. *)
Theorem single_embedding_falls_back_to_batch (text : jstring) :
  (forall i e rest,
     createOne text
     = Returned (Some ({| index := i; itemEmbedding := Some e |} :: rest)) ->
     getEmbedding createOne createMany text = Returned (Some e)) /\
  (createOne text = Returned None \/ createOne text = Returned (Some []) \/
   (exists i rest,
      createOne text
      = Returned (Some ({| index := i; itemEmbedding := None |} :: rest))) \/
   (exists e, createOne text = Thrown e) ->
   getEmbedding createOne createMany text
   = match getBatchEmbeddings createMany [text] with
     | Returned batch =>
         Returned (match batch with e :: _ => e | [] => None end)
     | Thrown e => Thrown e
     end) /\
  (getEmbedding createOne createMany text = Returned None ->
   exists data first rest,
     createMany [text] = Returned (Some data) /\
     JSArray.sort indexBefore data = first :: rest /\
     itemEmbedding first = None) /\
  (forall e,
     getEmbedding createOne createMany text = Thrown e -> classified e).
Proof.
  set (fallback :=
         match getBatchEmbeddings createMany [text] with
         | Returned batch =>
             Returned (match batch with e :: _ => e | [] => None end)
         | Thrown e => Thrown e
         end).
  assert (Hfallback :
    createOne text = Returned None \/ createOne text = Returned (Some []) \/
    (exists i rest,
       createOne text
       = Returned (Some ({| index := i; itemEmbedding := None |} :: rest))) \/
    (exists e, createOne text = Thrown e) ->
    getEmbedding createOne createMany text = fallback).
  { intros [H | [H | [(i & rest & H) | [e H]]]];
      unfold getEmbedding; rewrite H; reflexivity. }
  assert (Hfirst : forall i e rest,
    createOne text
    = Returned (Some ({| index := i; itemEmbedding := Some e |} :: rest)) ->
    getEmbedding createOne createMany text = Returned (Some e)).
  { intros i e rest H. unfold getEmbedding. now rewrite H. }
  assert (Hcases :
    (exists i e rest,
       createOne text
       = Returned (Some ({| index := i; itemEmbedding := Some e |} :: rest))) \/
    getEmbedding createOne createMany text = fallback).
  { destruct (createOne text) as [[[| [i [e |]] rest] |] | e] eqn:H.
    - right. apply Hfallback. auto.
    - left. now exists i, e, rest.
    - right. apply Hfallback. right. right. left. now exists i, rest.
    - right. apply Hfallback. auto.
    - right. apply Hfallback. right. right. right. now exists e. }
  split; [exact Hfirst |]. split; [exact Hfallback |].
  split.
  - intros Hnone.
    destruct Hcases as [(i & e & rest & H) | H].
    + rewrite (Hfirst _ _ _ H) in Hnone. discriminate.
    + rewrite H in Hnone. unfold fallback in Hnone.
      destruct (getBatchEmbeddings_cases [text])
        as [(e & He & _) | (f & r & Hcall & Hres)].
      * rewrite He in Hnone. discriminate.
      * rewrite Hres in Hnone.
        destruct (JSArray.sort indexBefore (f :: r)) as [| x l] eqn:Hs.
        { pose proof (Permutation_length (sort_perm indexBefore (f :: r)))
            as Hl.
          rewrite Hs in Hl. discriminate. }
        cbn [map] in Hnone. injection Hnone as Hx.
        now exists (f :: r), x, l.
  - intros e Hthrow.
    destruct Hcases as [(i & e0 & rest & H) | H].
    + rewrite (Hfirst _ _ _ H) in Hthrow. discriminate.
    + rewrite H in Hthrow. unfold fallback in Hthrow.
      destruct (getBatchEmbeddings_cases [text])
        as [(e' & He & Hc) | (f & r & _ & Hres)].
      * rewrite He in Hthrow. now injection Hthrow as <-.
      * rewrite Hres in Hthrow. discriminate.
Qed.

End WithClient.

(** A response whose two entries come in the wrong order. *)
Lemma batch_embeddings_ordered_or_classified_witness :
  let e0 := [Double.one; Double.zero] in
  let e1 := [Double.zero; Double.one] in
  let data := [ {| index := 1; itemEmbedding := Some e1 |};
                {| index := 0; itemEmbedding := Some e0 |} ] in
  let createMany := fun _ : list jstring => Returned (Some data) in
  getBatchEmbeddings createMany [js "a"; js "b"]
  = Returned [Some e0; Some e1] /\
  [Some e0; Some e1] <> [].
Proof.
  intros e0 e1 data createMany.
  assert (H : getBatchEmbeddings createMany [js "a"; js "b"]
              = Returned [Some e0; Some e1]) by reflexivity.
  split; [exact H |].
  exact (proj1 (proj1 (batch_embeddings_ordered_or_classified
                         createMany [js "a"; js "b"]) _ H)).
Defined.

(** The single call fails with a rate limit and the batch call with an
    authentication error: the caller sees the second only. *)
Lemma single_embedding_falls_back_to_batch_witness :
  let createOne := fun _ : jstring =>
    @Thrown Response {| name := js "RateLimitError";
                        message := Some (js "429 Too Many Requests") |} in
  let createMany := fun _ : list jstring =>
    @Thrown Response {| name := js "AuthenticationError";
                        message := Some (js "401 Unauthorized") |} in
  getEmbedding createOne createMany (js "wheel nut torque")
  = throwError invalidKeyMessage /\
  classified {| name := js "Error"; message := Some invalidKeyMessage |}.
Proof.
  intros createOne createMany.
  assert (H : getEmbedding createOne createMany (js "wheel nut torque")
              = throwError invalidKeyMessage) by reflexivity.
  split; [exact H |].
  exact (proj2 (proj2 (proj2 (single_embedding_falls_back_to_batch
                                createOne createMany (js "wheel nut torque"))))
               _ H).
Defined.

(** Both responses hold one entry without an embedding: the result is
    [undefined]. *)
Lemma single_embedding_can_be_undefined :
  let data := [ {| index := 0; itemEmbedding := None |} ] in
  let createOne := fun _ : jstring => Returned (Some data) in
  let createMany := fun _ : list jstring => Returned (Some data) in
  getEmbedding createOne createMany (js "wheel nut torque") = Returned None.
Proof. reflexivity. Qed.

End OpenAIEmbeddingsFacts.

(** ** From the document to the chunks *)

Module DocumentToChunks.
Import Layout Chunker JSFacts ChunkerFacts LayoutFacts DocumentFacts.

Section WithRegExp.

Variable header : jstring -> option (jstring * jstring).
Variable split : jstring -> list jstring.
Variable test : jstring -> bool.

(** X23.  The pages [extractTextWithStructure] hands over are numbered
    without repetition, so the chunks made from them never share an id,
    whatever the document, the patterns and the budget; and the page of
    every chunk is a page of the document, between 1 and the number of
    its pages. *)
Theorem extracted_pages_give_distinct_ids
    (pageItems : list (list TextItem)) (maxChunks : option Z) :
  let chunks :=
    generateSemanticChunks header split test (extractPages pageItems)
                           maxChunks in
  NoDup (map id chunks) /\
  Forall (fun c => 1 <= page c <= Z.of_nat (List.length pageItems)) chunks.
Proof.
  intros chunks. unfold chunks, generateSemanticChunks.
  set (m := match maxChunks with Some m => m | None => 300 end).
  split.
  - destruct (selectChunks_is_prefix
                (allChunks header split test (extractPages pageItems)) m)
      as (n & k & ->).
    rewrite <- firstn_map. apply NoDup_firstn.
    apply NoDup_map_partition.
    apply pagesChunks_NoDup, extractPages_distinct.
  - apply Forall_forall. intros c Hin.
    apply selectChunks_incl in Hin.
    apply pagesChunks_origin in Hin as (p & j & seg & Hp & _ & Hpage & _).
    rewrite Hpage.
    assert (Hnum : In (num p) (map num (extractPages pageItems)))
      by now apply in_map.
    unfold extractPages in Hnum. rewrite extractPagesFrom_nums in Hnum.
    apply in_map_iff in Hnum as (i & <- & Hi).
    apply in_seq in Hi. lia.
Qed.

End WithRegExp.

End DocumentToChunks.

(** ** The CSV export *)

Module CSVFacts.
Import JSON CSV.

Lemma readQuoted_field (v rest : jstring) :
  (forall r, rest <> quote :: r) ->
  readQuoted (doubleQuotes v ++ quote :: rest) = Some (v, rest).
Proof.
  intros Hrest.
  induction v as [| c v IH].
  - cbn [doubleQuotes app readQuoted]. rewrite Ascii.eqb_refl.
    destruct rest as [| d rest']; [reflexivity |].
    destruct (Ascii.eqb_spec d quote) as [-> | _]; [| reflexivity].
    exfalso. now apply (Hrest rest').
  - cbn [doubleQuotes].
    destruct (Ascii.eqb_spec c quote) as [-> | Hc].
    + cbn [app readQuoted]. rewrite !Ascii.eqb_refl.
      now rewrite IH.
    + cbn [app readQuoted].
      destruct (Ascii.eqb_spec c quote) as [| _]; [contradiction |].
      now rewrite IH.
Qed.

Lemma csvRow_one (x : jstring) :
  csvRow [x] = quote :: doubleQuotes x ++ [quote].
Proof. reflexivity. Qed.

Lemma csvRow_more (x y : jstring) (l : list jstring) :
  csvRow (x :: y :: l)
  = quote :: doubleQuotes x ++ quote :: ","%char :: csvRow (y :: l).
Proof.
  unfold csvRow. cbn [map join]. unfold csvField.
  cbn [app]. rewrite <- app_assoc. reflexivity.
Qed.

Lemma readFields_row (values : list jstring) (fuel : nat) :
  (List.length (csvRow values) <= fuel)%nat ->
  readFields fuel (csvRow values) = Some values.
Proof.
  revert fuel.
  induction values as [| x values IH]; intros fuel Hfuel.
  - destruct fuel; reflexivity.
  - destruct values as [| y l].
    + rewrite csvRow_one in *.
      destruct fuel as [| fuel]; [simpl in Hfuel; lia |].
      cbn [readFields]. rewrite Ascii.eqb_refl.
      rewrite readQuoted_field by discriminate. reflexivity.
    + rewrite csvRow_more in *.
      destruct fuel as [| fuel]; [simpl in Hfuel; lia |].
      cbn [readFields]. rewrite Ascii.eqb_refl.
      rewrite readQuoted_field by (intros r [= H]; discriminate H).
      cbn [ch]. rewrite Ascii.eqb_refl.
      rewrite IH; [reflexivity |].
      simpl in Hfuel. rewrite length_app in Hfuel. simpl in Hfuel. lia.
Qed.

(** X24.  A row of the CSV file can be read back, whatever its values
    hold, commas, line feeds and double quotes included: reading the
    quoted fields of the row gives the values again, so two different
    lists of values never give the same row. *)
Theorem csv_row_reads_back (values : list jstring) :
  readRow (csvRow values) = Some values /\
  forall values', csvRow values = csvRow values' -> values = values'.
Proof.
  assert (Hread : forall vs, readRow (csvRow vs) = Some vs).
  { intros vs. unfold readRow. apply readFields_row. lia. }
  split; [apply Hread |].
  intros values' Heq.
  pose proof (Hread values) as H1. pose proof (Hread values') as H2.
  rewrite Heq in H1. congruence.
Qed.

(** A value with a comma and a value with a double quote. *)
Lemma csv_row_reads_back_witness :
  let values := [js "Cam bolt, front"; quote :: js "M12"] in
  readRow (csvRow values) = Some values /\
  (csvRow values = csvRow values -> values = values).
Proof.
  intros values.
  split.
  - exact (proj1 (csv_row_reads_back values)).
  - exact (proj2 (csv_row_reads_back values) values).
Defined.

End CSVFacts.

(** ** The row tolerance in page units *)

Module ToleranceFacts.
Import Layout.

Local Open Scope Q_scope.

Lemma Math_round_bounds (x : Q) :
  x - (1 # 2) < inject_Z (Math_round x) /\
  inject_Z (Math_round x) <= x + (1 # 2).
Proof.
  unfold Math_round.
  pose proof (Qfloor_le (x + (1 # 2))) as Hle.
  pose proof (Qlt_floor (x + (1 # 2))) as Hlt.
  rewrite inject_Z_plus in Hlt.
  change (inject_Z 1) with 1 in Hlt.
  split; Lqa.lra.
Qed.

Lemma round_difference (x y : Q) :
  x - y - 1 < inject_Z (Math_round x - Math_round y) < x - y + 1.
Proof.
  destruct (Math_round_bounds x) as [Hx1 Hx2].
  destruct (Math_round_bounds y) as [Hy1 Hy2].
  unfold Zminus. rewrite inject_Z_plus, inject_Z_opp.
  split; Lqa.lra.
Qed.

Lemma near_rows (x y : Q) :
  Qabs.Qabs (x - y) <= 2 -> (Z.abs (Math_round x - Math_round y) < 3)%Z.
Proof.
  intros H. apply Qabs.Qabs_Qle_condition in H as [Hlo Hhi].
  destruct (round_difference x y) as [H1 H2].
  assert (Hlt : inject_Z (Math_round x - Math_round y) < inject_Z 3)
    by (change (inject_Z 3) with 3; Lqa.lra).
  assert (Hgt : inject_Z (-3) < inject_Z (Math_round x - Math_round y))
    by (change (inject_Z (-3)) with (-3 # 1); Lqa.lra).
  rewrite <- Zlt_Qlt in Hlt, Hgt. lia.
Qed.

Lemma far_rows (x y : Q) :
  4 <= Qabs.Qabs (x - y) -> (3 <= Z.abs (Math_round x - Math_round y))%Z.
Proof.
  intros H.
  destruct (round_difference x y) as [H1 H2].
  destruct (Qlt_le_dec (x - y) 0) as [Hneg | Hpos].
  - rewrite Qabs.Qabs_neg in H by Lqa.lra.
    assert (Hlt : inject_Z (Math_round x - Math_round y) < inject_Z (-3))
      by (change (inject_Z (-3)) with (-3 # 1); Lqa.lra).
    rewrite <- Zlt_Qlt in Hlt. lia.
  - rewrite Qabs.Qabs_pos in H by Lqa.lra.
    assert (Hgt : inject_Z 3 < inject_Z (Math_round x - Math_round y))
      by (change (inject_Z 3) with 3; Lqa.lra).
    rewrite <- Zlt_Qlt in Hgt. lia.
Qed.

(** X25.  Rounding widens the tolerance of 3 in page units by up to one
    unit either way.  Two fragments whose vertical coordinates differ by
    2 or less always come into one row, the second behind the first; two
    fragments 4 or more apart never do; in between it depends on how the
    two coordinates round. *)
Theorem rounding_blurs_the_tolerance (a b : TextItem) :
  (Qabs.Qabs (transform5 a - transform5 b) <= 2 ->
   groupRows [a; b] = [(rowCoordinate a, [a; b])]) /\
  (4 <= Qabs.Qabs (transform5 a - transform5 b) ->
   groupRows [a; b] = [(rowCoordinate a, [a]); (rowCoordinate b, [b])]).
Proof.
  assert (Hstep : groupRows [a; b]
    = if (Z.abs (rowCoordinate a - rowCoordinate b) <? ROW_DELTA)%Z
      then [(rowCoordinate a, [a; b])]
      else [(rowCoordinate a, [a]); (rowCoordinate b, [b])]).
  { unfold groupRows. cbn [fold_left]. unfold groupItem at 2.
    cbn [keys map find app]. unfold groupItem. cbn [keys map find fst].
    destruct (Z.abs (rowCoordinate a - rowCoordinate b) <? ROW_DELTA)%Z;
      [| reflexivity].
    cbn [push]. rewrite Z.eqb_refl. reflexivity. }
  rewrite Hstep. unfold rowCoordinate, ROW_DELTA. split; intros H.
  - apply near_rows in H. apply Z.ltb_lt in H. now rewrite H.
  - apply far_rows in H.
    destruct (Z.ltb_spec (Z.abs (Math_round (transform5 a)
                                 - Math_round (transform5 b))) 3);
      [lia | reflexivity].
Qed.

(** A label at 100.4 and its value at 98.6; a line at 100 and the next at
    88. *)
Lemma rounding_blurs_the_tolerance_witness :
  let label := {| str := js "Cam bolt"; transform4 := 5;
                  transform5 := 1004 # 10 |} in
  let value := {| str := js "350 Nm"; transform4 := 80;
                  transform5 := 986 # 10 |} in
  let line1 := {| str := js "Cam bolt"; transform4 := 5; transform5 := 100 |} in
  let line2 := {| str := js "Nut"; transform4 := 5; transform5 := 88 |} in
  (Qabs.Qabs (transform5 label - transform5 value) <= 2 /\
   groupRows [label; value] = [(100%Z, [label; value])]) /\
  (4 <= Qabs.Qabs (transform5 line1 - transform5 line2) /\
   groupRows [line1; line2] = [(100%Z, [line1]); (88%Z, [line2])]).
Proof.
  intros label value line1 line2.
  assert (H1 : Qabs.Qabs (transform5 label - transform5 value) <= 2)
    by (unfold Qle; simpl; lia).
  assert (H2 : 4 <= Qabs.Qabs (transform5 line1 - transform5 line2))
    by (unfold Qle; simpl; lia).
  split; split; try assumption.
  - exact (proj1 (rounding_blurs_the_tolerance label value) H1).
  - exact (proj2 (rounding_blurs_the_tolerance line1 line2) H2).
Defined.

End ToleranceFacts.

(** ** From the query to the scores *)

Module EndToEnd.
Import Double Chunker Sections Retriever Embedding Pipeline Weights.
Import JSFacts ChunkerFacts SortFacts RetrieverFacts EmbeddingFacts.
Import RetrieverMore EmbeddingMore ChunkerMore.

Lemma dot_zeros (n : nat) :
  dot (repeat zero n) (repeat zero n) = zero.
Proof.
  unfold dot, dotFrom. induction n as [| n IH]; [reflexivity | exact IH].
Qed.

Lemma magnitude_zeros (n : nat) : magnitude (repeat zero n) = zero.
Proof. unfold magnitude. now rewrite dot_zeros. Qed.

Lemma filter_all {A} (P : A -> bool) (l : list A) :
  Forall (fun a => P a = true) l -> filter P l = l.
Proof.
  induction 1 as [| a l Ha _ IH]; simpl; [reflexivity |].
  now rewrite Ha, IH.
Qed.

(** With every score 0 the sort changes nothing. *)
Lemma ranked_all_zero (q : list double) (chunks : list Chunk) :
  Forall (fun sc => score sc = zero) (scoreAll q chunks) ->
  ranked q chunks = scoreAll q chunks.
Proof.
  intros Hall.
  assert (Hfinite : Forall (fun sc => isFinite (score sc) = true)
                           (scoreAll q chunks)).
  { eapply Forall_impl; [| exact Hall]. intros sc ->. reflexivity. }
  assert (Hzero : forall l, Forall (fun sc => score sc = zero) l ->
                            Forall (fun sc => scoreIs 0 sc = true) l).
  { intros l Hl. eapply Forall_impl; [| exact Hl].
    intros sc Hsc. unfold scoreIs. now rewrite Hsc. }
  pose proof (ranked_stable q chunks Hfinite 0%Q) as Hst.
  rewrite (filter_all _ _ (Hzero _ Hall)) in Hst.
  rewrite filter_all in Hst; [exact Hst |].
  apply Hzero. apply Forall_forall. intros sc Hin.
  apply (Permutation_in _ (sort_perm _ _)) in Hin.
  rewrite Forall_forall in Hall. now apply Hall.
Qed.

Lemma featureless_query (query : jstring) :
  (List.length query <= 1)%nat -> words (normalize query) = [] ->
  getEmbedding query = repeat zero 1536.
Proof.
  intros Hlen Hwords. apply getEmbedding_featureless; [| exact Hwords].
  unfold bigramCount, normalize, toLowerCase.
  rewrite length_firstn, length_map. lia.
Qed.

(** X27.  A query of at most one character that holds no word, such as a
    question mark, is embedded as the zero vector.  Retrieval does not
    fail on it: against chunk embeddings of finite magnitude every score
    is 0, the sort leaves the chunks in the order they were generated,
    and the result is the first 6 chunks that have an embedding. *)
Theorem wordless_query_returns_leading_chunks (query : jstring)
    (chunks : list Chunk) :
  (List.length query <= 1)%nat -> words (normalize query) = [] ->
  Forall (fun c => isFinite (magnitude (embeddingOf c)) = true) chunks ->
  let r := Embedding.retrieveRelevantChunks query chunks None in
  map chunk (scored r) = firstn 6 (filter hasEmbedding chunks) /\
  Forall (fun sc => score sc = zero) (scored r).
Proof.
  intros Hlen Hwords Hfinite r.
  pose proof (featureless_query query Hlen Hwords) as Hq.
  assert (Hall : Forall (fun sc => score sc = zero)
                        (scoreAll (getEmbedding query) chunks)).
  { unfold scoreAll. apply Forall_map, Forall_forall. intros c Hc.
    apply filter_In in Hc as [Hc _]. cbn [score].
    rewrite Forall_forall in Hfinite.
    apply cosineSimilarity_zero_magnitude. left.
    split; [| now apply Hfinite].
    rewrite Hq, magnitude_zeros. reflexivity. }
  unfold r, Embedding.retrieveRelevantChunks,
    Retriever.retrieveRelevantChunks. simpl scored.
  rewrite slice0_nonneg by lia.
  rewrite (ranked_all_zero _ _ Hall).
  split.
  - change (Z.to_nat 6) with 6%nat. rewrite <- firstn_map.
    unfold scoreAll. rewrite map_map. simpl. now rewrite map_id.
  - apply Forall_forall. intros sc Hin. apply In_firstn in Hin.
    rewrite Forall_forall in Hall. now apply Hall.
Qed.

(** The query "?" and two chunks with embeddings. *)
Lemma wordless_query_returns_leading_chunks_witness :
  let c1 := setEmbedding (Some [ofZ 3; ofZ 4]) exampleChunk in
  let c2 := setEmbedding (Some [ofZ 4; ofZ 3]) exampleChunk2 in
  (List.length (js "?") <= 1)%nat /\
  words (normalize (js "?")) = [] /\
  Forall (fun c => isFinite (magnitude (embeddingOf c)) = true) [c1; c2] /\
  map chunk (scored (Embedding.retrieveRelevantChunks (js "?") [c1; c2] None))
  = [c1; c2].
Proof.
  intros c1 c2.
  assert (Hlen : (List.length (js "?") <= 1)%nat) by (simpl; lia).
  assert (Hwords : words (normalize (js "?")) = []) by reflexivity.
  assert (Hfinite : Forall (fun c => isFinite (magnitude (embeddingOf c)) = true)
                           [c1; c2])
    by (repeat constructor).
  split; [exact Hlen |]. split; [exact Hwords |]. split; [exact Hfinite |].
  exact (proj1 (wordless_query_returns_leading_chunks
                  (js "?") [c1; c2] Hlen Hwords Hfinite)).
Defined.

End EndToEnd.

(** ** An answer wrapped in an object *)

Module WrappedAnswers.
Import JSON Extractor Answers StringFacts JSONFacts ExtractorFacts.

Lemma braced_trim (body : jstring) : trim (braced body) = braced body.
Proof.
  unfold trim, braced.
  rewrite trimStart_fixed by reflexivity.
  change ("{"%char :: body ++ ["}"%char])
    with (("{"%char :: body) ++ ["}"%char]).
  now apply trimEnd_fixed.
Qed.

Lemma braced_no_fence (body : jstring) :
  Groq.stripClosingFence (Groq.stripOpeningFence (braced body)) = braced body.
Proof.
  assert (Hopen : Groq.stripOpeningFence (braced body) = braced body)
    by reflexivity.
  rewrite Hopen. unfold Groq.stripClosingFence.
  assert (Hrev : rev (braced body) = "}"%char :: rev ("{"%char :: body)).
  { unfold braced.
    change ("{"%char :: body ++ ["}"%char])
      with (("{"%char :: body) ++ ["}"%char]).
    now rewrite rev_app_distr. }
  rewrite Hrev. reflexivity.
Qed.

Lemma braced_clean (body : jstring) :
  Groq.cleanOf (Groq.rawOf (Some (braced body))) = braced body.
Proof.
  assert (Hraw : Groq.rawOf (Some (braced body)) = braced body).
  { unfold Groq.rawOf. rewrite braced_trim. reflexivity. }
  rewrite Hraw. unfold Groq.cleanOf.
  rewrite braced_no_fence. apply braced_trim.
Qed.

(** X28.  The two services disagree on an answer that is a JSON object:
    [GroqService.extractSpecs] parses the object, sees that it is no
    array and returns the empty list, whatever the object holds, while
    [OpenAIService.extractSpecs] cuts out the text from the first opening
    to the last closing bracket and returns the array found there. *)
Theorem object_answer_splits_the_services (body : jstring) (v : json) :
  JSON_parse (braced body) = Returned v -> isArray v = false ->
  Groq.parseResponse (Some (braced body)) = Returned (JArray []) /\
  forall block l,
    firstBracketBlock (braced body) = Some block ->
    JSON_parse block = Returned (JArray l) ->
    OpenAI.parseResponse (Some (braced body)) = Returned (JArray l).
Proof.
  intros Hparse Harray. split.
  - unfold Groq.parseResponse. rewrite braced_clean, Hparse.
    simpl try_catch. now rewrite Harray.
  - intros block l Hblock Hl. now apply (openai_block _ block).
Qed.

(** The answer with the array [1] under the key specs. *)
Lemma object_answer_splits_the_services_witness :
  let v := JObject [(ujs "specs", JArray wrappedArray)] in
  JSON_parse wrappedAnswer = Returned v /\
  Groq.parseResponse (Some wrappedAnswer) = Returned (JArray []) /\
  OpenAI.parseResponse (Some wrappedAnswer) = Returned (JArray wrappedArray).
Proof.
  intros v.
  assert (Hparse : JSON_parse wrappedAnswer = Returned v) by reflexivity.
  split; [exact Hparse |].
  pose proof (object_answer_splits_the_services
                (quoted "specs" ++ js ": [1]") v Hparse eq_refl)
    as [Hgroq Hopenai].
  split; [exact Hgroq |].
  exact (Hopenai (js "[1]") wrappedArray eq_refl eq_refl).
Defined.

End WrappedAnswers.
